(** * quantile.c: the nearest-rank quantile aggregate, embedded and verified

    The aggregate keeps, per group, a [struct_T] holding the requested
    probabilities and a buffer of the observations seen so far.  The
    transition functions ([quantile_append_*]) create the struct on the
    first call and append one observation per call; the final functions
    ([quantile_*]) sort the buffer and pick one entry per probability.

    The embedding follows the C text: [int] fields are integers with their
    32-bit wrap-around written out, [double] is IEEE binary64 as specified by
    [SpecFloat], the group state lives in a memory of structs addressed by
    pointers, and every function is a computation in a small state and error
    monad whose outcomes are a value, an [elog(ERROR)] or undefined
    behaviour. *)

From Stdlib Require Import ZArith Lia SpecFloat.
From stdpp Require Import base list gmap sorting strings pretty.

Open Scope Z_scope.

(** ** C scalar types *)

Definition INT_MAX : Z := 2147483647.
Definition INT_MIN : Z := -2147483648.

(** [int] arithmetic wraps modulo 2^32 around the signed range. *)
Definition int_wrap (z : Z) : Z := (z + 2 ^ 31) mod 2 ^ 32 - 2 ^ 31.
Definition int_add (a b : Z) : Z := int_wrap (a + b).
Definition int_sub (a b : Z) : Z := int_wrap (a - b).

(** [size_t] is unsigned 64-bit; an [int] operand is converted first. *)
Definition size_t_of_int (z : Z) : Z := z mod 2 ^ 64.
Definition size_mul (a b : Z) : Z := (a * b) mod 2 ^ 64.

(** [double] is binary64: 53 bits of precision, exponents below 1024. *)
Definition prec : Z := 53.
Definition emax : Z := 1024.
Definition float8 : Type := spec_float.

Definition float8_zero : float8 := S754_zero false.
Definition float8_one : float8 := S754_finite false 4503599627370496 (-52).

(** The usual arithmetic conversion of an [int] operand to [double]. *)
Definition float8_of_int (n : Z) : float8 := binary_normalize prec emax n 0 false.
Definition float8_mul : float8 -> float8 -> float8 := SFmul prec emax.

(** C comparisons on doubles; all of them are false on a NaN operand. *)
Definition float8_lt (x y : float8) : bool := SFltb x y.
Definition float8_le (x y : float8) : bool := SFleb x y.
Definition float8_gt (x y : float8) : bool := SFltb y x.
Definition float8_ge (x y : float8) : bool := SFleb y x.

(** The least integer not below [z * 2^e]. *)
Definition Zceil_scaled (z e : Z) : Z :=
  if 0 <=? e then z * 2 ^ e else - ((- z) / 2 ^ (- e)).

(** [(int)ceil(x)].  libm's [ceil] returns the least integral double not
    below [x]; the cast to [int] is exact on an integral double inside the
    range of [int] and undefined outside it and on NaN and the infinities
    (C11 6.3.1.4), which is [None] here. *)
Definition int_of_ceil (x : float8) : option Z :=
  match x with
  | S754_zero _ => Some 0
  | S754_finite s m e =>
      let c := Zceil_scaled (cond_Zopp s (Zpos m)) e in
      if (INT_MIN <=? c) && (c <=? INT_MAX) then Some c else None
  | _ => None
  end.

(** ** Value domains

    The source repeats every function for four element types.  A [domain]
    gives the element type, its [sizeof] and its qsort comparator; the
    generic functions below are the common text of the four copies. *)

Record domain : Type := Domain {
  elt : Type;
  elt_size : Z;
  comparator : elt -> elt -> Z
}.

Definition double_comparator (af bf : float8) : Z :=
  Z.b2z (float8_gt af bf) - Z.b2z (float8_lt af bf).

Definition int32_comparator (af bf : Z) : Z :=
  Z.b2z (bf <? af) - Z.b2z (af <? bf).

Definition int64_comparator (af bf : Z) : Z :=
  Z.b2z (bf <? af) - Z.b2z (af <? bf).

Definition double_domain : domain := Domain float8 8 double_comparator.
Definition int32_domain : domain := Domain Z 4 int32_comparator.
Definition int64_domain : domain := Domain Z 8 int64_comparator.

(** [sizeof] of the element types of the source is 4 or 8. *)
Definition sized (D : domain) : Prop := 0 < elt_size D <= 8.

(** ** The sorting routine

    [postgres.h] maps [qsort] to the host's [pg_qsort], which is not part
    of the extension.  On fewer than seven entries [pg_qsort] is the
    insertion sort below: each entry in turn is swapped leftwards while its
    left neighbour compares greater.  On longer arrays the host partitions.
    Its result is the list below where the comparator orders the entries
    and tells them apart ([ordersb], [separatesb]).  Where the comparator
    orders them without telling them apart, both are ascending
    arrangements, which may differ in the places of entries that compare
    as equal; where it does not order them (a NaN among doubles), both are
    permutations of the entries and may differ.  General statements about
    the values returned are therefore made against an ascending
    arrangement of the values, for values that the comparator orders, and
    evaluations are made on fewer than seven values.  [sift x rpre] enters
    [x] into the already processed prefix, which is kept last entry
    first. *)

Section Sorting.
Context {A : Type} (cmp : A -> A -> Z).

Fixpoint sift (x : A) (rpre : list A) : list A :=
    match rpre with
    | [] => [x]
    | y :: r => if 0 <? cmp y x then y :: sift x r else x :: y :: r
    end.

Definition pg_qsort (l : list A) : list A :=
    reverse (foldl (fun rpre x => sift x rpre) [] l).

  (** [x] does not compare greater than [y]. *)
Definition cmp_le (x y : A) : Prop := cmp x y <= 0.

  (** The comparator orders the entries of [l] consistently: any two are
      comparable and the comparison is transitive. *)
Definition ordersb (l : list A) : bool :=
    forallb (fun x => forallb (fun y =>
      ((cmp x y <=? 0) || (cmp y x <=? 0)) &&
      forallb (fun z =>
        implb ((cmp x y <=? 0) && (cmp y z <=? 0)) (cmp x z <=? 0)) l) l) l.

  (** The comparator tells the entries of [l] apart: two entries that
      compare as equal are the same value. *)
Definition separatesb `{EqDecision A} (l : list A) : bool :=
    forallb (fun x => forallb (fun y =>
      implb ((cmp x y <=? 0) && (cmp y x <=? 0)) (bool_decide (x = y))) l) l.
End Sorting.

(** ** Memory, outcomes and the monad *)

(** The four structs [struct_double], [struct_int32], [struct_int64] and
    [struct_numeric].  [quantiles] is [None] for a NULL pointer; the cells of
    [elements] are [None] while the palloc'ed memory has not been written. *)
Record struct_T (D : domain) : Type := Struct {
  nquantiles : Z;
  nelements : Z;
  next : Z;
  quantiles : option (list float8);
  elements : list (option (elt D))
}.
Arguments Struct {D} _ _ _ _ _.
Arguments nquantiles {D} _.
Arguments nelements {D} _.
Arguments next {D} _.
Arguments quantiles {D} _.
Arguments elements {D} _.

Definition ptr : Type := positive.

Inductive outcome (A : Type) : Type :=
  | Done (a : A)
  | Raised (msg : string)
  | Undefined.
Arguments Done {A} a.
Arguments Raised {A} msg.
Arguments Undefined {A}.

(** A computation over the memory of one aggregation context.  An error
    leaves the memory as it was when [elog] was reached. *)
Definition M (D : domain) (A : Type) : Type :=
  gmap ptr (struct_T D) -> outcome A * gmap ptr (struct_T D).

Global Instance M_ret D : MRet (M D) := fun A a m => (Done a, m).

Global Instance M_bind D : MBind (M D) := fun A B k c m =>
  match c m with
  | (Done a, m') => k a m'
  | (Raised msg, m') => (Raised msg, m')
  | (Undefined, m') => (Undefined, m')
  end.

Section Primitives.
Context {D : domain}.

Definition elog_ERROR {A} (msg : string) : M D A := fun m => (Raised msg, m).
Definition undefined {A} : M D A := fun m => (Undefined, m).

  (** Dereference of a struct pointer; a pointer to nothing is undefined. *)
Definition load (p : ptr) : M D (struct_T D) := fun m =>
    match m !! p with
    | Some st => (Done st, m)
    | None => (Undefined, m)
    end.

Definition store (p : ptr) (st : struct_T D) : M D unit := fun m =>
    (Done (), <[p := st]> m).

  (** A freshly palloc'ed struct, entered once its fields are assigned. *)
Definition new_struct (st : struct_T D) : M D ptr := fun m =>
    let p := fresh (dom m) in (Done p, <[p := st]> m).
End Primitives.

(** ** Host functions *)

Definition SLICE_SIZE : Z := 1024.

(** The host's allocator refuses requests above [MaxAllocSize] (memutils.h);
    running out of memory, the other way it can fail, is not modelled. *)
Definition MaxAllocSize : Z := 1073741823.
Definition AllocSizeIsValid (size : Z) : bool := (0 <=? size) && (size <=? MaxAllocSize).
Definition alloc_error : string := "invalid memory alloc request size".

Section Host.
Context {D : domain}.

  (** [palloc(size)] of a block whose contents the model does not track. *)
Definition palloc (size : Z) : M D unit :=
    if AllocSizeIsValid size then mret () else elog_ERROR alloc_error.

  (** [palloc(size)] of an array of cells of width [width], unwritten. *)
Definition palloc_array {A} (width size : Z) : M D (list (option A)) :=
    if AllocSizeIsValid size
    then mret (replicate (Z.to_nat (size / width)) None)
    else elog_ERROR alloc_error.

  (** [repalloc(block, size)]: the old cells are kept, new ones unwritten. *)
Definition repalloc {A} (width : Z) (block : list (option A)) (size : Z)
    : M D (list (option A)) :=
    if AllocSizeIsValid size
    then mret (resize (Z.to_nat (size / width)) None block)
    else elog_ERROR alloc_error.

  (** [AggCheckCallContext(fcinfo, ...)] is true in an aggregate call; the
      two macros differ only in fetching the context. *)
Definition GET_AGG_CONTEXT (fname : string) (in_agg : bool) : M D unit :=
    if in_agg then mret ()
    else elog_ERROR (fname +:+ " called in non-aggregate context").

Definition CHECK_AGG_CONTEXT (fname : string) (in_agg : bool) : M D unit :=
    if in_agg then mret ()
    else elog_ERROR (fname +:+ " called in non-aggregate context").
End Host.

(** The host's array value: its dimensions and data area.  A well-formed
    float8 array without NULL entries has as many data items as
    [ArrayGetNItems] reports. *)
Record ArrayType : Type := Array {
  ARR_NDIM : Z;
  ARR_DIMS : list Z;
  ARR_DATA : list float8
}.

Definition ArrayGetNItems (ndims : Z) (dims : list Z) : Z :=
  if ndims <=? 0 then 0 else foldr Z.mul 1 (take (Z.to_nat ndims) dims).

(** ** The functions of quantile.c *)

Section Quantile.
Context (D : domain).

  (** A cell or probability read by a C index. *)
Definition index {A} (l : list A) (i : Z) : option A :=
    if i <? 0 then None else l !! Z.to_nat i.

Definition set_buffer (st : struct_T D) (cells : list (option (elt D))) (n : Z)
    : struct_T D :=
    Struct (nquantiles st) n (next st) (quantiles st) cells.

Definition set_entry (st : struct_T D) (cells : list (option (elt D))) (nx : Z)
    : struct_T D :=
    Struct (nquantiles st) (nelements st) nx (quantiles st) cells.

  (** The reading loop of [array_to_double]. *)
Fixpoint read_items (p : list float8) (count : nat) {struct count}
  : M D (list float8) :=
    match count with
    | O => mret []
    | S count' =>
        match p with
        | [] => undefined
        | val :: p' => rest ← read_items p' count'; mret (val :: rest)
        end
    end.

  (** [array_to_double(fcinfo, v, &len)], returning the array and [len]. *)
Definition array_to_double (v : ArrayType) : M D (option (list float8) * Z) :=
    let ndims := ARR_NDIM v in
    let nitems := ArrayGetNItems ndims (ARR_DIMS v) in
    if negb (ndims =? 1) then
      elog_ERROR ("error, array_to_double expects a single-dimensional array"
                  +:+ "(dims = " +:+ pretty ndims +:+ ")")
    else if nitems =? 0 then mret (None, 0)
    else
      palloc (size_mul (size_t_of_int nitems) 8);;
      result ← read_items (ARR_DATA v) (Z.to_nat nitems);
      mret (Some result, Z.of_nat (length result)).

  (** The block guarded by "ignore NULL values", common to all eight
      transition functions. *)
Definition append_element (data : ptr) (element : elt D) : M D unit :=
    st ← load data;
    (if next st >? int_sub (nelements st) 1 then
       cells ← repalloc (elt_size D) (elements st)
                 (size_mul (elt_size D)
                    (size_t_of_int (int_add (nelements st) SLICE_SIZE)));
       store data (set_buffer st cells (int_add (nelements st) SLICE_SIZE))
     else mret ());;
    st ← load data;
    if (0 <=? next st) && (next st <? Z.of_nat (length (elements st))) then
      store data (set_entry st (<[Z.to_nat (next st) := Some element]> (elements st))
                            (int_add (next st) 1))
    else undefined.

  (** [quantile_append_double], [_numeric], [_int32], [_int64].  Arguments:
      the call context, the group state (argument 0, [None] when NULL), the
      observation (argument 1, [None] when NULL) and the probability
      (argument 2). *)
Definition quantile_append_T (fname : string) (in_agg : bool)
      (state : option ptr) (element : option (elt D)) (q : float8) : M D ptr :=
    GET_AGG_CONTEXT fname in_agg;;
    data ← match state with
           | None =>
               cells ← palloc_array (elt_size D)
                         (size_mul SLICE_SIZE (elt_size D));
               palloc 8;;
               new_struct (Struct 1 SLICE_SIZE 0 (Some [q]) cells)
           | Some data => mret data
           end;
    match element with
    | Some e => append_element data e
    | None => mret ()
    end;;
    mret data.

  (** [quantile_append_double_array] and its three siblings. *)
Definition quantile_append_T_array (fname : string) (in_agg : bool)
      (state : option ptr) (element : option (elt D)) (v : ArrayType) : M D ptr :=
    GET_AGG_CONTEXT fname in_agg;;
    data ← match state with
           | None =>
               cells ← palloc_array (elt_size D)
                         (size_mul SLICE_SIZE (elt_size D));
               '(qs, len) ← array_to_double v;
               new_struct (Struct len SLICE_SIZE 0 qs cells)
           | Some data => mret data
           end;
    match element with
    | Some e => append_element data e
    | None => mret ()
    end;;
    mret data.

  (** [qsort(data->elements, data->next, sizeof(T), &comparator)]: sorts the
      first [next] cells in place.  Cells outside the block or never written
      make the call undefined. *)
Definition qsort_elements (data : ptr) : M D unit :=
    st ← load data;
    if (0 <=? next st) && (next st <=? Z.of_nat (length (elements st))) then
      match mapM id (take (Z.to_nat (next st)) (elements st)) with
      | Some vals =>
          store data
            (set_entry st
               ((Some <$> pg_qsort (comparator D) vals)
                  ++ drop (Z.to_nat (next st)) (elements st))
               (next st))
      | None => undefined
      end
    else undefined.

Definition read_quantile (data : ptr) (i : Z) : M D float8 :=
    st ← load data;
    match quantiles st with
    | Some qs => match index qs i with Some q => mret q | None => undefined end
    | None => undefined
    end.

Definition read_element (data : ptr) (idx : Z) : M D (elt D) :=
    st ← load data;
    match index (elements st) idx with
    | Some (Some v) => mret v
    | _ => undefined
    end.

  (** [(int)ceil(data->next * q) - 1]. *)
Definition ceil_rank (data : ptr) (q : float8) : M D Z :=
    st ← load data;
    match int_of_ceil (float8_mul (float8_of_int (next st)) q) with
    | Some c => mret (int_sub c 1)
    | None => undefined
    end.

  (** [quantile_int32], [quantile_int64] and [quantile_numeric]. *)
Definition quantile_T (fname : string) (in_agg : bool) (state : option ptr)
    : M D (option (elt D)) :=
    CHECK_AGG_CONTEXT fname in_agg;;
    match state with
    | None => mret None
    | Some data =>
        qsort_elements data;;
        q ← read_quantile data 0;
        idx ← (if float8_gt q float8_zero then ceil_rank data q else mret 0);
        v ← read_element data idx;
        mret (Some v)
    end.

  (** The body of the loop of the array final functions: the index chosen
      for probability [q] when the previous iteration left [idx]. *)
Definition rank_index (data : ptr) (q : float8) (idx : Z) : M D Z :=
    if float8_gt q float8_zero && float8_lt q float8_one then ceil_rank data q
    else if float8_le q float8_zero then mret 0
    else if float8_ge q float8_one then
      st ← load data; mret (int_sub (next st) 1)
    else mret idx.

  (** [for (i = 0; i < data->nquantiles; i++)], with [count] iterations
      left; the list returned is [result]. *)
Fixpoint rank_loop (data : ptr) (count : nat) (i idx : Z) : M D (list (elt D)) :=
    match count with
    | O => mret []
    | S count' =>
        q ← read_quantile data i;
        idx' ← rank_index data q idx;
        v ← read_element data idx';
        rest ← rank_loop data count' (i + 1) idx';
        mret (v :: rest)
    end.

  (** [quantile_double_array] and its three siblings.  The closing
      [T_to_array(fcinfo, result, nquantiles)] hands the first [nquantiles]
      entries of [result] to the host's array builder. *)
Definition quantile_T_array (fname : string) (in_agg : bool) (state : option ptr)
    : M D (option (list (elt D))) :=
    CHECK_AGG_CONTEXT fname in_agg;;
    match state with
    | None => mret None
    | Some data =>
        st ← load data;
        palloc (size_mul (size_t_of_int (nquantiles st)) (elt_size D));;
        qsort_elements data;;
        result ← rank_loop data (Z.to_nat (nquantiles st)) 0 0;
        mret (Some result)
    end.
End Quantile.

Arguments index {A} l i.

(** [quantile_double]: the scalar final function of the double domain, which
    alone tests the probability against 1 and allocates [result]. *)
Definition quantile_double (in_agg : bool) (state : option ptr)
  : M double_domain (option float8) :=
  CHECK_AGG_CONTEXT "quantile_double" in_agg;;
  match state with
  | None => mret None
  | Some data =>
      st ← load data;
      palloc (size_mul (size_t_of_int (nquantiles st)) 8);;
      qsort_elements double_domain data;;
      q ← read_quantile double_domain data 0;
      idx ← (if float8_gt q float8_zero && float8_lt q float8_one
             then ceil_rank double_domain data q else mret 0);
      v ← read_element double_domain data idx;
      mret (Some v)
  end.

(** The remaining entry points, by domain. *)
Definition quantile_append_double :=
  quantile_append_T double_domain "quantile_append_double".
Definition quantile_append_double_array :=
  quantile_append_T_array double_domain "quantile_append_double_array".
Definition quantile_double_array :=
  quantile_T_array double_domain "quantile_double_array".

Definition quantile_append_int32 :=
  quantile_append_T int32_domain "quantile_append_int32".
Definition quantile_append_int32_array :=
  quantile_append_T_array int32_domain "quantile_append_int32_array".
Definition quantile_int32 := quantile_T int32_domain "quantile_int32".
Definition quantile_int32_array :=
  quantile_T_array int32_domain "quantile_int32_array".

Definition quantile_append_int64 :=
  quantile_append_T int64_domain "quantile_append_int64".
Definition quantile_append_int64_array :=
  quantile_append_T_array int64_domain "quantile_append_int64_array".
Definition quantile_int64 := quantile_T int64_domain "quantile_int64".
Definition quantile_int64_array :=
  quantile_T_array int64_domain "quantile_int64_array".

(** ** The host's call sequence

    For one group the host calls the transition function once per row,
    passing back the state it returned, and the final function once. *)

Fixpoint run_append {D} (append : option ptr -> option (elt D) -> M D ptr)
    (state : option ptr) (rows : list (option (elt D))) : M D (option ptr) :=
  match rows with
  | [] => mret state
  | r :: rows' => data ← append state r; run_append append (Some data) rows'
  end.

Definition aggregate {D A} (append : option ptr -> option (elt D) -> M D ptr)
    (final : option ptr -> M D A) (rows : list (option (elt D))) : M D A :=
  state ← run_append append None rows; final state.

(** ** Invariants and the specification's rule *)

(** Capacity of the buffer once [k] observations have been appended. *)
Fixpoint capacity_after (k : nat) : Z :=
  match k with
  | O => SLICE_SIZE
  | S k' =>
      let c := capacity_after k' in
      if Z.of_nat k' >? c - 1 then c + SLICE_SIZE else c
  end.

(** The allocator grants the buffer needed for [k] observations. *)
Definition fits (D : domain) (k : nat) : Prop :=
  elt_size D * capacity_after k <= MaxAllocSize.

(** The buffer of capacity [cap] after the values [vals] were written. *)
Definition buffer_of {A} (cap : Z) (vals : list A) : list (option A) :=
  (Some <$> vals) ++ replicate (Z.to_nat cap - length vals) None.

(** The accumulator invariant: [st] holds exactly [vals], in this order, in
    its first [next] cells, within its capacity and the allocator's limit. *)
Record holds {D} (st : struct_T D) (vals : list (elt D)) : Prop := Holds {
  holds_next : next st = Z.of_nat (length vals);
  holds_cells : elements st = buffer_of (nelements st) vals;
  holds_room : next st <= nelements st;
  holds_alloc : elt_size D * nelements st <= MaxAllocSize
}.

(** The struct reached from creation by appending [vals]. *)
Definition struct_after {D} (nq : Z) (qs : option (list float8))
    (vals : list (elt D)) : struct_T D :=
  Struct nq (capacity_after (length vals)) (Z.of_nat (length vals)) qs
         (buffer_of (capacity_after (length vals)) vals).

(** [st] carries the request [qs]: well-formed doubles, counted by
    [nquantiles], small enough for the array to have been allocated. *)
Record requests {D} (st : struct_T D) (qs : list float8) : Prop := Requests {
  requests_list : quantiles st = Some qs;
  requests_count : nquantiles st = Z.of_nat (length qs);
  requests_alloc : 8 * Z.of_nat (length qs) <= MaxAllocSize;
  requests_valid : forallb (valid_binary prec emax) qs = true
}.

(** The nearest-rank rule in the specification's words: a zero-based index
    into the [n] sorted values for probability [p]; the product is taken in
    doubles, as the probabilities are.  No case applies to a NaN. *)
Definition nearest_rank (n : Z) (p : float8) : option Z :=
  if float8_lt float8_zero p && float8_lt p float8_one then
    c ← int_of_ceil (float8_mul (float8_of_int n) p); Some (c - 1)
  else if float8_le p float8_zero then Some 0
  else if float8_le float8_one p then Some (n - 1)
  else None.

Definition is_nan (x : float8) : bool :=
  match x with S754_nan => true | _ => false end.

Global Instance spec_float_eq_dec : EqDecision spec_float.
Proof. solve_decision. Defined.

(** [sorted] is an ascending arrangement of [vals] in the order [le]: the
    same values, each of them at or below every later one.  Two ascending
    arrangements of the same values differ only in the places of values
    that are at or below each other. *)
Definition ascending {A : Type} (le : A -> A -> Prop) (vals sorted : list A) : Prop :=
  sorted ≡ₚ vals /\ StronglySorted le sorted.

(** The numeric order of the doubles, [x <= y] in C. *)
Definition float8_order (x y : float8) : Prop := float8_le x y = true.

Global Instance cmp_le_dec {A} (cmp : A -> A -> Z) x y : Decision (cmp_le cmp x y).
Proof. unfold cmp_le. apply _. Defined.

Global Instance float8_order_dec x y : Decision (float8_order x y).
Proof. unfold float8_order. apply _. Defined.

(** The capacity an append leaves: one slab more when the buffer is full. *)
Definition grown {D} (st : struct_T D) : Z :=
  if next st <? nelements st then nelements st else nelements st + SLICE_SIZE.

(** What every transition function does once [data] points to the struct. *)
Definition append_tail (D : domain) (data : ptr) (element : option (elt D))
  : M D ptr :=
  match element with
  | Some e => append_element D data e
  | None => mret ()
  end;;
  mret data.

(** The struct after [qsort] has run on a struct holding [vals]. *)
Definition sorted_struct {D} (st : struct_T D) (vals : list (elt D)) : struct_T D :=
  Struct (nquantiles st) (nelements st) (next st) (quantiles st)
         (buffer_of (nelements st) (pg_qsort (comparator D) vals)).

(** ** Sample data: the observations 10, 20, 30, 40 and some probabilities *)

Definition float8_half : float8 := S754_finite false 4503599627370496 (-53).
Definition float8_quarter : float8 := S754_finite false 4503599627370496 (-54).
Definition float8_two : float8 := S754_finite false 4503599627370496 (-51).

Definition sample_doubles : list float8 :=
  [float8_of_int 30; float8_of_int 10; float8_of_int 40; float8_of_int 20].

Definition sample_ints : list Z := [30; 10; 40; 20].

(** Three doubles with a NaN between them. *)
Definition doubles_with_nan : list float8 :=
  [float8_of_int 2; S754_nan; float8_of_int 1].

(** The group state reached by appending the sample to a fresh struct. *)
Definition sample_struct (qs : list float8) : struct_T double_domain :=
  struct_after (D := double_domain) (Z.of_nat (length qs)) (Some qs) sample_doubles.

Definition sample_memory (qs : list float8) : gmap ptr (struct_T double_domain) :=
  {[1%positive := sample_struct qs]}.

Definition sample_struct_int32 (qs : list float8) : struct_T int32_domain :=
  struct_after (D := int32_domain) (Z.of_nat (length qs)) (Some qs) sample_ints.

Definition sample_memory_int32 (qs : list float8)
  : gmap ptr (struct_T int32_domain) :=
  {[1%positive := sample_struct_int32 qs]}.

(** A group whose only row carried a NULL observation, and its state. *)
Definition null_group_state (q : float8) : M double_domain (option ptr) :=
  run_append (fun state element => quantile_append_double true state element q)
             None [None].

Definition null_group_state_array (v : ArrayType) : M double_domain (option ptr) :=
  run_append (fun state element => quantile_append_double_array true state element v)
             None [None].

(** A key that orders the doubles other than NaN as the C comparisons do:
    the infinities outermost, the negative finite numbers by falling
    exponent and mantissa, both zeros together, the positive finite numbers
    by rising exponent and mantissa. *)
Definition float8_key (x : float8) : Z * Z * Z :=
  match x with
  | S754_infinity true => (-2, 0, 0)
  | S754_finite true m e => (-1, - e, Zneg m)
  | S754_zero _ => (0, 0, 0)
  | S754_nan => (0, 0, 0)
  | S754_finite false m e => (1, e, Zpos m)
  | S754_infinity false => (2, 0, 0)
  end.

Definition lex_lt (k k' : Z * Z * Z) : Prop :=
  k.1.1 < k'.1.1
  \/ (k.1.1 = k'.1.1 /\ (k.1.2 < k'.1.2 \/ (k.1.2 = k'.1.2 /\ k.2 < k'.2))).

(** The doubles nearest to 0.1 and 0.07. *)
Definition float8_tenth : float8 := S754_finite false 7205759403792794 (-56).
Definition float8_seven_hundredths : float8 :=
  S754_finite false 5044031582654956 (-56).

(** The least integer not below the exact product of [n] and the number the
    double [q] stands for: what [ceil(n*q)] would be without rounding. *)
Definition exact_ceil_product (n : Z) (q : float8) : option Z :=
  match q with
  | S754_zero _ => Some 0
  | S754_finite s m e => Some (Zceil_scaled (n * cond_Zopp s (Zpos m)) e)
  | _ => None
  end.

(** ** The numeric domain

    [Numeric] is a pointer to a number of the host, eight bytes wide;
    [numeric_comparator] hands the two numbers to the host's [numeric_cmp]
    and returns its [int32] answer.  The four entry points are the generic
    functions at this domain. *)
Section Numeric.
Context {Numeric : Type} (numeric_cmp : Numeric -> Numeric -> Z).

Definition numeric_comparator (a b : Numeric) : Z := numeric_cmp a b.

Definition numeric_domain : domain := Domain Numeric 8 numeric_comparator.

Definition quantile_append_numeric :=
  quantile_append_T numeric_domain "quantile_append_numeric".
Definition quantile_append_numeric_array :=
  quantile_append_T_array numeric_domain "quantile_append_numeric_array".
Definition quantile_numeric := quantile_T numeric_domain "quantile_numeric".
Definition quantile_numeric_array :=
  quantile_T_array numeric_domain "quantile_numeric_array".
End Numeric.

(** ** The array builders

    [double_to_array] and its three siblings hand [d[0]] to [d[len-1]], one
    at a time and none of them flagged NULL, to the host's
    [accumArrayResult], starting from a NULL build state, and return what
    the host's [makeArrayResult] makes of the last state.  The two host
    functions stay abstract; the conversion of an entry to a [Datum] is
    part of [accumArrayResult] here, and the memory context, the same
    [CurrentMemoryContext] in every call, is left out.  The four functions
    differ in the element type and its OID (catalog/pg_type.h). *)
Definition FLOAT8OID : Z := 701.
Definition INT4OID : Z := 23.
Definition INT8OID : Z := 20.
Definition NUMERICOID : Z := 1700.

Section Builders.
Context {D : domain} {ArrayBuildState Datum : Type}.
Context (accumArrayResult : option ArrayBuildState -> elt D -> bool -> Z -> ArrayBuildState).
Context (makeArrayResult : option ArrayBuildState -> Datum).

Fixpoint accum_loop (element_type : Z) (d : list (elt D)) (count : nat) (i : Z)
    (astate : option ArrayBuildState) : M D (option ArrayBuildState) :=
  match count with
  | O => mret astate
  | S count' =>
      match index d i with
      | Some v =>
          accum_loop element_type d count' (i + 1)
            (Some (accumArrayResult astate v false element_type))
      | None => undefined
      end
  end.

Definition T_to_array (element_type : Z) (d : list (elt D)) (len : Z) : M D Datum :=
  astate ← accum_loop element_type d (Z.to_nat len) 0 None;
  mret (makeArrayResult astate).
End Builders.

Definition double_to_array {ArrayBuildState Datum} accumArrayResult makeArrayResult :=
  T_to_array (D := double_domain) (ArrayBuildState := ArrayBuildState)
    (Datum := Datum) accumArrayResult makeArrayResult FLOAT8OID.
Definition int32_to_array {ArrayBuildState Datum} accumArrayResult makeArrayResult :=
  T_to_array (D := int32_domain) (ArrayBuildState := ArrayBuildState)
    (Datum := Datum) accumArrayResult makeArrayResult INT4OID.
Definition int64_to_array {ArrayBuildState Datum} accumArrayResult makeArrayResult :=
  T_to_array (D := int64_domain) (ArrayBuildState := ArrayBuildState)
    (Datum := Datum) accumArrayResult makeArrayResult INT8OID.
Definition numeric_to_array {Numeric ArrayBuildState Datum}
    (numeric_cmp : Numeric -> Numeric -> Z) accumArrayResult makeArrayResult :=
  T_to_array (D := numeric_domain numeric_cmp) (ArrayBuildState := ArrayBuildState)
    (Datum := Datum) accumArrayResult makeArrayResult NUMERICOID.

(** ** Closed forms and rounding *)

(** The indices the loop of the array final functions goes through: the
    index of the rule where a case applies, the index of the previous
    probability where none does. *)
Fixpoint kept_indices (n idx : Z) (qs : list float8) : list Z :=
  match qs with
  | [] => []
  | q :: qs' =>
      let idx' := default idx (nearest_rank n q) in
      idx' :: kept_indices n idx' qs'
  end.

(** The number of observations one group can hold: the largest multiple of
    the slab whose buffer the allocator still grants. *)
Definition group_limit (D : domain) : Z :=
  MaxAllocSize / (elt_size D * SLICE_SIZE) * SLICE_SIZE.

(** The capacity in whole slabs needed for [k] observations. *)
Definition slabs_for (k : Z) : Z :=
  SLICE_SIZE * Z.max 1 ((k + SLICE_SIZE - 1) / SLICE_SIZE).

(** [M / 2^k] rounded to the nearest integer, ties to even. *)
Definition rne_div (M k : Z) : Z :=
  let q := M / 2 ^ k in
  let r := M mod 2 ^ k in
  if 2 * r <? 2 ^ k then q
  else if 2 ^ k <? 2 * r then q + 1
  else if Z.even q then q else q + 1.

(** The exponent binary64 gives a positive number of mantissa [M] and
    exponent [E], and the rounded number scaled by [2^1074], an integer. *)
Definition round_exponent (M : positive) (E : Z) : Z :=
  Z.max (Zpos (digits2_pos M) + E - 53) (-1074).

Definition rounded_scaled (M : positive) (E : Z) : Z :=
  rne_div (Zpos M) (round_exponent M E - E) * 2 ^ (round_exponent M E + 1074).

(** The least integer not below [W / 2^1074]. *)
Definition ceil_scaled (W : Z) : Z := - ((- W) / 2 ^ 1074).

(** * Verification *)

(** ** Binary64 rounding

    What the rank computation needs from IEEE arithmetic: the product of a
    positive [int] and a probability strictly inside (0,1), rounded to
    nearest, is a positive double not above the [int]. *)

Lemma shr_1_m mrs : 0 <= shr_m mrs -> shr_m (shr_1 mrs) = shr_m mrs / 2.
Proof.
  destruct mrs as [m r s]; simpl. intros Hm.
  destruct m as [|[p|p|]|p]; cbn [shr_m]; try lia; try reflexivity.
  - apply Z.div_unique with 1; lia.
  - apply Z.div_unique with 0; lia.
Qed.

Lemma pow2_xO p : 2 ^ Zpos p~0 = 2 ^ Zpos p * 2 ^ Zpos p.
Proof. rewrite <- Z.pow_add_r by lia. f_equal. lia. Qed.

Lemma pow2_xI p : 2 ^ Zpos p~1 = 2 * (2 ^ Zpos p * 2 ^ Zpos p).
Proof. rewrite <- Z.pow_add_r, <- Z.pow_succ_r by lia. f_equal. lia. Qed.

Lemma iter_shr_1_m p : forall mrs, 0 <= shr_m mrs ->
  shr_m (SpecFloat.iter_pos shr_1 p mrs) = shr_m mrs / 2 ^ Zpos p.
Proof.
  induction p as [p IH|p IH|]; intros mrs Hm; simpl SpecFloat.iter_pos.
  - assert (H1 : 0 <= shr_m (shr_1 mrs)).
    { rewrite shr_1_m by done. apply Z.div_pos; lia. }
    assert (H2 : 0 <= shr_m (SpecFloat.iter_pos shr_1 p (shr_1 mrs))).
    { rewrite IH by done. apply Z.div_pos; lia. }
    rewrite IH, IH, shr_1_m by done.
    rewrite !Z.div_div by lia.
    f_equal. rewrite pow2_xI. lia.
  - assert (H2 : 0 <= shr_m (SpecFloat.iter_pos shr_1 p mrs)).
    { rewrite IH by done. apply Z.div_pos; lia. }
    rewrite IH, IH by done.
    rewrite !Z.div_div by lia.
    f_equal. rewrite pow2_xO. lia.
  - rewrite shr_1_m by done. done.
Qed.

Lemma shr_cases mrs e n : 0 <= shr_m mrs ->
  (n <= 0 /\ shr mrs e n = (mrs, e)) \/
  (0 < n /\ exists mrs', shr mrs e n = (mrs', e + n) /\ shr_m mrs' = shr_m mrs / 2 ^ n).
Proof.
  intros Hm. destruct n as [|p|p]; simpl.
  - left. split; [lia|done].
  - right. split; [lia|]. eexists. split; [done|]. by apply iter_shr_1_m.
  - left. split; [lia|done].
Qed.

Lemma digits2_pos_bounds m :
  2 ^ (Zpos (digits2_pos m) - 1) <= Zpos m < 2 ^ Zpos (digits2_pos m).
Proof.
  induction m as [m IH|m IH|]; simpl digits2_pos.
  - rewrite Pos2Z.inj_succ.
    replace (Z.succ (Z.pos (digits2_pos m)) - 1) with (Z.succ (Z.pos (digits2_pos m) - 1)) by lia.
    rewrite !Z.pow_succ_r by lia. lia.
  - rewrite Pos2Z.inj_succ.
    replace (Z.succ (Z.pos (digits2_pos m)) - 1) with (Z.succ (Z.pos (digits2_pos m) - 1)) by lia.
    rewrite !Z.pow_succ_r by lia. lia.
  - simpl. lia.
Qed.

Lemma round_nearest_even_bounds m l :
  m <= round_nearest_even m l <= m + 1.
Proof.
  destruct l as [|[| |]]; simpl; try lia. destruct (Z.even m); lia.
Qed.

Lemma pow2_split a b : 0 <= a -> 0 <= b -> 2 ^ (a + b) = 2 ^ a * 2 ^ b.
Proof. intros. apply Z.pow_add_r; lia. Qed.

Lemma digits_le_of_lt m b : 0 <= b -> Zpos m < 2 ^ b -> Zpos (digits2_pos m) <= b.
Proof.
  intros Hb Hlt. destruct (digits2_pos_bounds m) as [Hlo _].
  destruct (Z.le_gt_cases (Zpos (digits2_pos m)) b) as [|Hgt]; [done|].
  assert (2 ^ b <= 2 ^ (Z.pos (digits2_pos m) - 1)) by (apply Z.pow_le_mono_r; lia).
  lia.
Qed.

Lemma lt_pow2_31 x e N :
  e <= 0 -> 1 <= N < 2 ^ 31 -> x <= N * 2 ^ (- e) -> x < 2 ^ (31 - e).
Proof.
  intros He HN Hx. replace (31 - e) with (31 + - e) by lia.
  rewrite pow2_split by lia.
  assert (0 < 2 ^ (- e)) by (apply Z.pow_pos_nonneg; lia). nia.
Qed.

(** Rounding an exact positive product that lies strictly below the integer
    [N] and at or above the least subnormal gives a finite positive double
    that is still at most [N]. *)
Lemma binary_round_aux_below (M : positive) (E N : Z) :
  E < 0 -> 1 <= N < 2 ^ 31 ->
  Zpos M < N * 2 ^ (- E) ->
  2 ^ (-1074 - E) <= Zpos M ->
  exists m e,
    binary_round_aux prec emax false (Zpos M) E loc_Exact = S754_finite false m e
    /\ e <= 0 /\ Zpos m <= N * 2 ^ (- e).
Proof.
  intros HE HN Hup Hlo.
  unfold binary_round_aux, shr_fexp, fexp, emin, prec, emax.
  cbn [Zdigits2 shr_record_of_loc].
  set (d := Zpos (digits2_pos M)).
  destruct (digits2_pos_bounds M) as [Hd1 Hd2]. fold d in Hd1, Hd2.
  assert (Hdpos : 1 <= d) by (unfold d; lia).
  assert (HdE : d + E <= 31).
  { pose proof (lt_pow2_31 (Zpos M) E N).
    pose proof (digits_le_of_lt M (31 - E)). unfold d. lia. }
  (* first shift *)
  assert (Hstage1 : exists R e1 mrs1,
     shr {| shr_m := Zpos M; shr_r := false; shr_s := false |} E
         (Z.max (d + E - 53) (3 - 1024 - 53) - E) = (mrs1, e1)
     /\ R = round_nearest_even (shr_m mrs1) (loc_of_shr_record mrs1)
     /\ -1074 <= e1 < 0 /\ 1 <= R <= N * 2 ^ (- e1)).
  { destruct (shr_cases {| shr_m := Zpos M; shr_r := false; shr_s := false |} E
               (Z.max (d + E - 53) (3 - 1024 - 53) - E)) as [[Hk Heq]|[Hk (mrs1 & Heq & Hm1)]];
      [simpl; lia| |].
    - eexists _, _, _. split; [exact Heq|]. split; [reflexivity|].
      simpl. split; [lia|]. split; [lia|]. lia.
    - set (k := Z.max (d + E - 53) (3 - 1024 - 53) - E) in *.
      simpl in Hm1.
      assert (Hk2 : 2 ^ k <= Zpos M).
      { destruct (Z.max_spec (d + E - 53) (3 - 1024 - 53)) as [[_ Hmx]|[_ Hmx]].
        - replace k with (-1074 - E) by lia. done.
        - assert (2 ^ k <= 2 ^ (d - 1)) by (apply Z.pow_le_mono_r; lia). lia. }
      assert (H2k : 0 < 2 ^ k) by (apply Z.pow_pos_nonneg; lia).
      assert (Hsplit : 2 ^ (- E) = 2 ^ k * 2 ^ (- (E + k))).
      { rewrite <- pow2_split by lia. f_equal. lia. }
      assert (Hlow : 1 <= Zpos M / 2 ^ k) by (apply Z.div_le_lower_bound; lia).
      assert (Hupp : Zpos M / 2 ^ k < N * 2 ^ (- (E + k))).
      { apply Z.div_lt_upper_bound; [done|]. rewrite Hsplit in Hup. lia. }
      pose proof (round_nearest_even_bounds (shr_m mrs1) (loc_of_shr_record mrs1)) as Hr.
      rewrite Hm1 in Hr.
      eexists _, _, _. split; [exact Heq|]. split; [reflexivity|].
      rewrite Hm1. split; [lia|]. lia. }
  destruct Hstage1 as (R & e1 & mrs1 & -> & HR & He1 & HRb).
  rewrite <- HR. clear HR mrs1.
  destruct R as [|r|r]; [lia| |lia].
  cbn [Zdigits2 shr_record_of_loc].
  set (d' := Zpos (digits2_pos r)).
  destruct (digits2_pos_bounds r) as [Hd1' Hd2']. fold d' in Hd1', Hd2'.
  assert (Hd'e : d' + e1 <= 31).
  { pose proof (lt_pow2_31 (Zpos r) e1 N).
    pose proof (digits_le_of_lt r (31 - e1)). unfold d'. lia. }
  destruct (shr_cases {| shr_m := Zpos r; shr_r := false; shr_s := false |} e1
               (Z.max (d' + e1 - 53) (3 - 1024 - 53) - e1)) as [[Hk Heq]|[Hk (mrs2 & Heq & Hm2)]];
      [simpl; lia| |]; rewrite Heq.
  - simpl. exists r, e1.
    assert (Hleb : (e1 <=? 1024 - 53) = true) by (apply Z.leb_le; lia).
    rewrite Hleb.
    split; [done|]. lia.
  - set (k := Z.max (d' + e1 - 53) (3 - 1024 - 53) - e1) in *.
    simpl in Hm2.
    assert (Hkd : k = d' - 53) by lia.
    assert (H2k : 0 < 2 ^ k) by (apply Z.pow_pos_nonneg; lia).
    assert (Hk2 : 2 ^ k <= Zpos r).
    { assert (2 ^ k <= 2 ^ (d' - 1)) by (apply Z.pow_le_mono_r; lia). lia. }
    assert (Hsplit : 2 ^ (- e1) = 2 ^ k * 2 ^ (- (e1 + k))).
    { rewrite <- pow2_split by lia. f_equal. lia. }
    assert (Hlow : 1 <= Zpos r / 2 ^ k) by (apply Z.div_le_lower_bound; lia).
    assert (Hupp : Zpos r / 2 ^ k <= N * 2 ^ (- (e1 + k))).
    { apply Z.div_le_upper_bound; [done|]. rewrite Hsplit in HRb. lia. }
    rewrite Hm2. destruct (Zpos r / 2 ^ k) as [|m2|m2] eqn:Hq; [lia| |lia].
    exists m2, (e1 + k).
    assert (Hleb : (e1 + k <=? 1024 - 53) = true) by (apply Z.leb_le; lia).
    rewrite Hleb.
    split; [done|]. lia.
Qed.

Lemma iter_xO_spec m p :
  Zpos (Pos.iter xO m p) = Zpos m * 2 ^ Zpos p /\
  digits2_pos (Pos.iter xO m p) = (digits2_pos m + p)%positive.
Proof.
  induction p as [|p [IH1 IH2]] using Pos.peano_ind.
  - simpl. split; lia.
  - rewrite Pos.iter_succ. split.
    + rewrite Pos2Z.inj_xO, IH1, Pos2Z.inj_succ, Z.pow_succ_r by lia. lia.
    + simpl. rewrite IH2. lia.
Qed.

Lemma binary_round_aux_canonical s m e :
  canonical_mantissa prec emax m e = true -> e <= emax - prec ->
  binary_round_aux prec emax s (Zpos m) e loc_Exact = S754_finite s m e.
Proof.
  unfold canonical_mantissa. intros Hc%Z.eqb_eq He.
  unfold binary_round_aux, shr_fexp. cbn [Zdigits2 shr_record_of_loc].
  rewrite Hc, Z.sub_diag. cbn [shr shr_m loc_of_shr_record round_nearest_even].
  cbn [Zdigits2 shr_record_of_loc].
  rewrite Hc, Z.sub_diag. cbn [shr shr_m].
  by apply Z.leb_le in He as ->.
Qed.

(** The conversion of a positive [int] to [double] is exact. *)
Lemma float8_of_int_pos n :
  1 <= n < 2 ^ 31 ->
  exists m e, float8_of_int n = S754_finite false m e
    /\ e <= 0 /\ Zpos m = n * 2 ^ (- e).
Proof.
  intros Hn. destruct n as [|pn|pn]; [lia| |lia].
  unfold float8_of_int, binary_normalize, binary_round, shl_align, fexp, emin, prec, emax.
  set (d := Zpos (digits2_pos pn)).
  assert (Hd : 1 <= d <= 31).
  { split; [unfold d; lia|]. apply digits_le_of_lt; lia. }
  replace (Z.max (d + 0 - 53) (3 - 1024 - 53) - 0) with (d - 53) by lia.
  destruct (d - 53) as [|k|k] eqn:Hk; [lia|lia|].
  destruct (iter_xO_spec pn k) as [Hv Hdig].
  exists (Pos.iter xO pn k), (d - 53).
  replace (Z.max (d + 0 - 53) (3 - 1024 - 53)) with (d - 53) by lia.
  split; [|split; [lia|]].
  - apply binary_round_aux_canonical; [|unfold emax, prec; lia].
    unfold canonical_mantissa, fexp, emin, prec, emax. apply Z.eqb_eq.
    rewrite Hdig, Pos2Z.inj_add. fold d. lia.
  - rewrite Hv. f_equal. f_equal. lia.
Qed.

(** A valid double strictly between 0 and 1 is a positive finite number
    whose mantissa stays below the weight of its (negative) exponent. *)
Lemma float8_open_unit q :
  valid_binary prec emax q = true ->
  float8_lt float8_zero q = true -> float8_lt q float8_one = true ->
  exists m e, q = S754_finite false m e /\ -1074 <= e < 0 /\ Zpos m < 2 ^ (- e).
Proof.
  intros Hv H0 H1. destruct q as [s|s| |s m e]; try discriminate.
  - by destruct s.
  - destruct s; [discriminate|]. clear H0.
    exists m, e. split; [done|].
    unfold valid_binary, bounded, canonical_mantissa, fexp, emin, prec, emax in Hv.
    apply andb_true_iff in Hv as [Hc%Z.eqb_eq _].
    assert (Hd : Zpos (digits2_pos m) <= 53 /\ -1074 <= e) by lia.
    destruct (digits2_pos_bounds m) as [_ Hm].
    assert (Hm53 : Zpos m < 2 ^ 53).
    { eapply Z.lt_le_trans; [exact Hm|]. apply Z.pow_le_mono_r; lia. }
    unfold float8_lt, SFltb, SFcompare, float8_one in H1.
    destruct (Z.compare_spec e (-52)) as [He|He|He]; try discriminate.
    + subst e. split; [lia|].
      rewrite Pos.compare_cont_spec in H1.
      destruct (Pos.compare_spec m 4503599627370496) as [Hcmp|Hcmp|Hcmp];
        try discriminate.
      clear - Hcmp. change (2 ^ (- -52)) with (Zpos 4503599627370496).
      by apply Pos2Z.pos_lt_pos.
    + split; [lia|]. eapply Z.lt_le_trans; [exact Hm53|].
      apply Z.pow_le_mono_r; lia.
Qed.

Lemma Zceil_scaled_bounds m e N :
  e <= 0 -> 1 <= m <= N * 2 ^ (- e) -> 1 <= Zceil_scaled m e <= N.
Proof.
  intros He Hm. unfold Zceil_scaled.
  assert (H2 : 0 < 2 ^ (- e)) by (apply Z.pow_pos_nonneg; lia).
  destruct (Z.leb_spec 0 e) as [He0|He0].
  - assert (e = 0) as -> by lia. simpl in *. lia.
  - assert (- N <= - m / 2 ^ (- e)) by (apply Z.div_le_lower_bound; lia).
    assert (- m / 2 ^ (- e) < 0) by (apply Z.div_lt_upper_bound; lia).
    lia.
Qed.

(** The rank computed for a probability strictly inside (0,1) over [n >= 1]
    entries is defined and lies in [1, n]: the double product never rounds
    above [n] nor down to zero. *)
Lemma int_of_ceil_rank_bounds n q :
  1 <= n <= INT_MAX ->
  valid_binary prec emax q = true ->
  float8_lt float8_zero q = true -> float8_lt q float8_one = true ->
  exists c, int_of_ceil (float8_mul (float8_of_int n) q) = Some c /\ 1 <= c <= n.
Proof.
  intros Hn Hv H0 H1.
  assert (Hn' : 1 <= n < 2 ^ 31) by (unfold INT_MAX in Hn; lia).
  destruct (float8_of_int_pos n Hn') as (mn & en & -> & Hen & Hmn).
  destruct (float8_open_unit q Hv H0 H1) as (mq & eq & -> & Heq & Hmq).
  unfold float8_mul, SFmul. cbn [xorb].
  assert (H2n : 0 < 2 ^ (- en)) by (apply Z.pow_pos_nonneg; lia).
  assert (H2q : 0 < 2 ^ (- eq)) by (apply Z.pow_pos_nonneg; lia).
  assert (Hsplit : 2 ^ (- (en + eq)) = 2 ^ (- en) * 2 ^ (- eq)).
  { rewrite <- pow2_split by lia. f_equal. lia. }
  destruct (binary_round_aux_below (mn * mq) (en + eq) n) as (m & e & -> & He & Hm);
    [lia|done| | |].
  - rewrite Pos2Z.inj_mul, Hsplit, Hmn. nia.
  - rewrite Pos2Z.inj_mul.
    destruct (Z.le_gt_cases 0 (-1074 - (en + eq))) as [Hnn|Hneg].
    + assert (2 ^ (-1074 - (en + eq)) <= 2 ^ (- en)) by (apply Z.pow_le_mono_r; lia).
      nia.
    + rewrite Z.pow_neg_r by lia. lia.
  - unfold int_of_ceil. cbn [cond_Zopp].
    pose proof (Zceil_scaled_bounds (Zpos m) e n He) as Hc.
    assert (Hc' : 1 <= Zceil_scaled (Z.pos m) e <= n) by (apply Hc; lia).
    exists (Zceil_scaled (Z.pos m) e). split; [|done].
    assert (Hr : (INT_MIN <=? Zceil_scaled (Z.pos m) e) && (Zceil_scaled (Z.pos m) e <=? INT_MAX) = true).
    { apply andb_true_iff. split; apply Z.leb_le; unfold INT_MIN, INT_MAX in *; lia. }
    by rewrite Hr.
Qed.

(** ** The sorting routine returns a sorted permutation *)

Section SortingFacts.
Context {A : Type} (cmp : A -> A -> Z).

Lemma sift_Permutation x rpre : sift cmp x rpre ≡ₚ x :: rpre.
  Proof.
    induction rpre as [|y r IH]; simpl; [done|].
    destruct (0 <? cmp y x); [|done].
    rewrite IH. apply perm_swap.
  Qed.

Lemma foldl_sift_Permutation l rpre :
    foldl (fun r x => sift cmp x r) rpre l ≡ₚ l ++ rpre.
  Proof.
    revert rpre. induction l as [|x l IH]; intros rpre; simpl; [done|].
    rewrite IH, sift_Permutation. by rewrite Permutation_middle.
  Qed.

Lemma pg_qsort_Permutation l : pg_qsort cmp l ≡ₚ l.
  Proof.
    unfold pg_qsort. rewrite reverse_Permutation, foldl_sift_Permutation.
    by rewrite app_nil_r.
  Qed.

Lemma pg_qsort_length l : length (pg_qsort cmp l) = length l.
  Proof. apply Permutation_length, pg_qsort_Permutation. Qed.

  (** [ordersb] read as comparability and transitivity on the entries. *)
Lemma ordersb_total l x y :
    ordersb cmp l = true -> x ∈ l -> y ∈ l -> cmp_le cmp x y \/ cmp_le cmp y x.
  Proof.
    unfold ordersb, cmp_le. intros H Hx%list_elem_of_In Hy%list_elem_of_In.
    rewrite forallb_forall in H. specialize (H x Hx).
    rewrite forallb_forall in H. specialize (H y Hy).
    apply andb_true_iff in H as [H _]. apply orb_true_iff in H. lia.
  Qed.

Lemma ordersb_trans l x y z :
    ordersb cmp l = true -> x ∈ l -> y ∈ l -> z ∈ l ->
    cmp_le cmp x y -> cmp_le cmp y z -> cmp_le cmp x z.
  Proof.
    unfold ordersb, cmp_le.
    intros H Hx%list_elem_of_In Hy%list_elem_of_In Hz%list_elem_of_In Hxy Hyz.
    rewrite forallb_forall in H. specialize (H x Hx).
    rewrite forallb_forall in H. specialize (H y Hy).
    apply andb_true_iff in H as [_ H].
    rewrite forallb_forall in H. specialize (H z Hz).
    apply Z.leb_le in Hxy, Hyz. rewrite Hxy, Hyz in H. simpl in H.
    by apply Z.leb_le.
  Qed.

Lemma separatesb_eq `{EqDecision A} l x y :
    separatesb cmp l = true -> x ∈ l -> y ∈ l ->
    cmp_le cmp x y -> cmp_le cmp y x -> x = y.
  Proof.
    unfold separatesb, cmp_le.
    intros H Hx%list_elem_of_In Hy%list_elem_of_In Hxy Hyx.
    rewrite forallb_forall in H. specialize (H x Hx).
    rewrite forallb_forall in H. specialize (H y Hy).
    apply Z.leb_le in Hxy, Hyx. rewrite Hxy, Hyx in H. simpl in H.
    by apply bool_decide_eq_true in H.
  Qed.

Lemma ordersb_Permutation l k :
    l ≡ₚ k -> ordersb cmp l = true -> ordersb cmp k = true.
  Proof.
    intros Hp H. unfold ordersb.
    apply forallb_forall. intros x Hx%list_elem_of_In.
    apply forallb_forall. intros y Hy%list_elem_of_In.
    rewrite <- Hp in Hx, Hy.
    apply andb_true_iff. split.
    - destruct (ordersb_total l x y H Hx Hy) as [Hle|Hle];
        apply orb_true_iff; [left|right]; by apply Z.leb_le.
    - apply forallb_forall. intros z Hz%list_elem_of_In. rewrite <- Hp in Hz.
      destruct (cmp x y <=? 0) eqn:Hxy; [|done].
      destruct (cmp y z <=? 0) eqn:Hyz; [|done]. simpl.
      apply Z.leb_le in Hxy, Hyz. apply Z.leb_le.
      by apply (ordersb_trans l x y z).
  Qed.

Lemma separatesb_Permutation `{EqDecision A} l k :
    l ≡ₚ k -> separatesb cmp l = true -> separatesb cmp k = true.
  Proof.
    intros Hp H. unfold separatesb.
    apply forallb_forall. intros x Hx%list_elem_of_In.
    apply forallb_forall. intros y Hy%list_elem_of_In.
    rewrite <- Hp in Hx, Hy.
    destruct (cmp x y <=? 0) eqn:Hxy; [|done].
    destruct (cmp y x <=? 0) eqn:Hyx; [|done]. simpl.
    apply Z.leb_le in Hxy, Hyx. apply bool_decide_eq_true.
    by apply (separatesb_eq l x y).
  Qed.

  (** Entering [x] keeps the processed prefix sorted (last entry first). *)
Lemma sift_sorted l x rpre :
    ordersb cmp l = true -> x ∈ l -> (forall y, y ∈ rpre -> y ∈ l) ->
    StronglySorted (flip (cmp_le cmp)) rpre ->
    StronglySorted (flip (cmp_le cmp)) (sift cmp x rpre).
  Proof.
    intros Hord Hx. induction rpre as [|y r IH]; intros Hin Hs; simpl.
    { repeat constructor. }
    apply StronglySorted_cons in Hs as [Hy Hr].
    rewrite Forall_forall in Hy.
    assert (Hyl : y ∈ l) by (apply Hin; left).
    assert (Hrl : forall z, z ∈ r -> z ∈ l) by (intros z Hz; apply Hin; by right).
    destruct (Z.ltb_spec 0 (cmp y x)) as [Hgt|Hle].
    - apply StronglySorted_cons. split; [|by apply IH].
      apply Forall_forall. intros z Hz. rewrite sift_Permutation in Hz.
      apply elem_of_cons in Hz as [->|Hz]; [|by apply Hy].
      destruct (ordersb_total l x y Hord Hx Hyl) as [H|H]; [done|].
      unfold cmp_le in H. lia.
    - apply StronglySorted_cons. split.
      + apply Forall_forall. intros z Hz.
        apply elem_of_cons in Hz as [->|Hz]; [done|].
        apply (ordersb_trans l z y x); auto.
        * by apply Hy.
      + apply StronglySorted_cons. split; [by apply Forall_forall|done].
  Qed.

Lemma StronglySorted_reverse (R : relation A) l :
    StronglySorted (flip R) l -> StronglySorted R (reverse l).
  Proof.
    induction l as [|x l IH]; intros Hs; [constructor|].
    apply StronglySorted_cons in Hs as [Hx Hl]. rewrite Forall_forall in Hx.
    rewrite reverse_cons. apply StronglySorted_app_2.
    - intros x1 x2 H1 H2%list_elem_of_singleton. subst x2.
      rewrite elem_of_reverse in H1. exact (Hx x1 H1).
    - by apply IH.
    - repeat constructor.
  Qed.

Lemma pg_qsort_sorted l :
    ordersb cmp l = true -> StronglySorted (cmp_le cmp) (pg_qsort cmp l).
  Proof.
    intros Hord. unfold pg_qsort. apply StronglySorted_reverse.
    assert (Hgen : forall k rpre,
      (forall y, y ∈ k -> y ∈ l) -> (forall y, y ∈ rpre -> y ∈ l) ->
      StronglySorted (flip (cmp_le cmp)) rpre ->
      StronglySorted (flip (cmp_le cmp)) (foldl (fun r x => sift cmp x r) rpre k)).
    { induction k as [|x k IH]; intros rpre Hk Hr Hs; simpl; [done|].
      apply IH.
      - intros y Hy. apply Hk. by right.
      - intros y Hy. rewrite sift_Permutation in Hy.
        apply elem_of_cons in Hy as [->|Hy]; [apply Hk; left|by apply Hr].
      - apply (sift_sorted l); auto. apply Hk. left. }
    apply Hgen; [done| |constructor]. intros y Hy. inv Hy.
  Qed.

  (** Where the comparator also tells the values apart, the sorted
      arrangement does not depend on the order of arrival. *)
Lemma pg_qsort_arrival `{EqDecision A} l k :
    l ≡ₚ k -> ordersb cmp l = true -> separatesb cmp l = true ->
    pg_qsort cmp l = pg_qsort cmp k.
  Proof.
    intros Hp Hord Hsep.
    apply (StronglySorted_unique_strong (cmp_le cmp)).
    - intros x y Hx Hy Hxy Hyx.
      rewrite pg_qsort_Permutation in Hx, Hy. rewrite <- Hp in Hy.
      by apply (separatesb_eq l x y).
    - by apply pg_qsort_sorted.
    - apply pg_qsort_sorted. by apply (ordersb_Permutation l).
    - by rewrite !pg_qsort_Permutation.
  Qed.
End SortingFacts.

(** ** Running the monad *)

Section MonadFacts.
Context {D : domain}.

Lemma bind_run {A B} (c : M D A) (k : A -> M D B) m :
    (c ≫= k) m =
    match c m with
    | (Done a, m') => k a m'
    | (Raised msg, m') => (Raised msg, m')
    | (Undefined, m') => (Undefined, m')
    end.
  Proof. reflexivity. Qed.

Lemma bind_Done {A B} (c : M D A) (k : A -> M D B) m a m' :
    c m = (Done a, m') -> (c ≫= k) m = k a m'.
  Proof. intros H. by rewrite bind_run, H. Qed.

Lemma bind_Raised {A B} (c : M D A) (k : A -> M D B) m msg m' :
    c m = (Raised msg, m') -> (c ≫= k) m = (Raised msg, m').
  Proof. intros H. by rewrite bind_run, H. Qed.

Lemma bind_Undefined {A B} (c : M D A) (k : A -> M D B) m m' :
    c m = (Undefined, m') -> (c ≫= k) m = (Undefined, m').
  Proof. intros H. by rewrite bind_run, H. Qed.

Lemma ret_run {A} (a : A) (m : gmap ptr (struct_T D)) :
    (mret a : M D A) m = (Done a, m).
  Proof. reflexivity. Qed.

Lemma load_run p (m : gmap ptr (struct_T D)) st :
    m !! p = Some st -> load p m = (Done st, m).
  Proof. intros H. unfold load. by rewrite H. Qed.

Lemma store_run p (st : struct_T D) m :
    store p st m = (Done (), <[p := st]> m).
  Proof. reflexivity. Qed.
End MonadFacts.

Ltac mrun :=
  cbv beta iota delta [mbind M_bind mret M_ret store elog_ERROR undefined].

(** ** Integer and buffer arithmetic *)

Lemma int_wrap_small z : INT_MIN <= z <= INT_MAX -> int_wrap z = z.
Proof.
  unfold INT_MIN, INT_MAX, int_wrap. intros H.
  rewrite Z.mod_small; lia.
Qed.

Lemma size_request D n :
  sized D -> 0 <= n <= INT_MAX ->
  size_mul (elt_size D) (size_t_of_int n) = elt_size D * n.
Proof.
  unfold sized, INT_MAX, size_mul, size_t_of_int. intros Hs Hn.
  rewrite (Z.mod_small n) by lia. apply Z.mod_small. nia.
Qed.

Lemma AllocSizeIsValid_spec size :
  0 <= size -> AllocSizeIsValid size = (size <=? MaxAllocSize).
Proof.
  intros H. unfold AllocSizeIsValid.
  by apply Z.leb_le in H as ->.
Qed.

Section BufferFacts.
Context {A : Type}.
Implicit Types (vals : list A) (cap : Z).

Lemma buffer_of_length cap vals :
    Z.of_nat (length vals) <= cap ->
    length (buffer_of cap vals) = Z.to_nat cap.
  Proof.
    intros H. unfold buffer_of.
    rewrite length_app, length_fmap, length_replicate. lia.
  Qed.

Lemma buffer_of_take cap vals :
    take (length vals) (buffer_of cap vals) = Some <$> vals.
  Proof.
    unfold buffer_of. apply take_app_length'. by rewrite length_fmap.
  Qed.

Lemma buffer_of_drop cap vals :
    drop (length vals) (buffer_of cap vals)
    = replicate (Z.to_nat cap - length vals) None.
  Proof.
    unfold buffer_of. apply drop_app_length'. by rewrite length_fmap.
  Qed.

Lemma buffer_of_lookup cap vals (i : nat) :
    (i < length vals)%nat -> buffer_of cap vals !! i = Some <$> vals !! i.
  Proof.
    intros H. unfold buffer_of.
    rewrite lookup_app_l by (by rewrite length_fmap).
    apply list_lookup_fmap.
  Qed.

Lemma buffer_of_lookup_unwritten cap vals (i : nat) v :
    (length vals <= i)%nat -> buffer_of cap vals !! i <> Some (Some v).
  Proof.
    intros H. unfold buffer_of.
    rewrite lookup_app_r by (rewrite length_fmap; lia).
    intros [Heq _]%lookup_replicate. discriminate.
  Qed.

  (** [repalloc] to a larger capacity keeps what was written. *)
Lemma buffer_of_resize cap cap' vals :
    Z.of_nat (length vals) <= cap -> cap <= cap' ->
    resize (Z.to_nat cap') None (buffer_of cap vals) = buffer_of cap' vals.
  Proof.
    intros H1 H2. rewrite resize_spec, buffer_of_length by done.
    rewrite take_ge by (rewrite buffer_of_length by done; lia).
    unfold buffer_of. rewrite <- app_assoc, <- replicate_add.
    do 2 f_equal. lia.
  Qed.

  (** Writing at position [next] appends to the values held. *)
Lemma buffer_of_insert cap vals e :
    Z.of_nat (length vals) < cap ->
    <[length vals := Some e]> (buffer_of cap vals) = buffer_of cap (vals ++ [e]).
  Proof.
    intros H. unfold buffer_of.
    replace (length vals) with (length (Some <$> vals) + 0)%nat at 1
      by (rewrite length_fmap; lia).
    rewrite insert_app_r, fmap_app, <- app_assoc, length_app. simpl.
    f_equal.
    replace (Z.to_nat cap - length vals)%nat
      with (S (Z.to_nat cap - (length vals + 1)))%nat by lia.
    done.
  Qed.

Lemma mapM_id_Some vals : mapM id (Some <$> vals) = Some vals.
  Proof.
    apply mapM_Some. apply Forall2_fmap_l. by apply Forall_Forall2_diag, Forall_true.
  Qed.
End BufferFacts.

Lemma capacity_after_bounds k :
  SLICE_SIZE <= capacity_after k /\ Z.of_nat k <= capacity_after k.
Proof.
  induction k as [|k [IH1 IH2]]; simpl capacity_after.
  - unfold SLICE_SIZE. lia.
  - unfold SLICE_SIZE in *.
    destruct (Z.gtb_spec (Z.of_nat k) (capacity_after k - 1)); lia.
Qed.

Lemma capacity_after_mono k : capacity_after k <= capacity_after (S k).
Proof.
  simpl. unfold SLICE_SIZE.
  destruct (Z.gtb_spec (Z.of_nat k) (capacity_after k - 1)); lia.
Qed.

Lemma fits_S D k : sized D -> fits D (S k) -> fits D k.
Proof.
  unfold sized, fits. intros Hs H. pose proof (capacity_after_mono k). nia.
Qed.

Lemma fits_le D k k' : sized D -> (k <= k')%nat -> fits D k' -> fits D k.
Proof.
  intros Hs Hle. induction Hle as [|k' Hle IH]; [done|].
  intros H. by apply IH, fits_S.
Qed.

(** ** The transition functions *)

Section AppendFacts.
Context (D : domain) (HD : sized D).
Implicit Types (m : gmap ptr (struct_T D)) (st : struct_T D) (vals : list (elt D)).

Lemma holds_bounds st vals :
  holds st vals -> 0 <= next st <= nelements st /\ nelements st < 2 ^ 30.
Proof.
  intros [Hn _ Hr Ha]. unfold sized, MaxAllocSize in *. split; [lia|nia].
Qed.

(** One observation appended to a struct that holds [vals]. *)
Lemma append_element_run m data st vals e :
  m !! data = Some st -> holds st vals ->
  append_element D data e m =
  if elt_size D * grown st <=? MaxAllocSize then
    (Done (),
     <[data := Struct (nquantiles st) (grown st) (next st + 1) (quantiles st)
                      (buffer_of (grown st) (vals ++ [e]))]> m)
  else (Raised alloc_error, m).
Proof.
  intros Hm Hh. pose proof (holds_bounds st vals Hh) as [Hb1 Hb2].
  destruct Hh as [Hn Hc Hr Ha].
  unfold append_element, grown, int_sub. mrun.
  rewrite (load_run _ _ _ Hm). mrun.
  rewrite int_wrap_small by (unfold INT_MIN, INT_MAX; lia).
  destruct (Z.ltb_spec (next st) (nelements st)) as [Hlt|Hge].
  - (* room left *)
    assert (Hgt : (next st >? nelements st - 1) = false) by lia.
    rewrite Hgt. apply Z.leb_le in Ha as Ha'. rewrite Ha'. mrun.
    rewrite (load_run _ _ _ Hm). mrun.
    rewrite Hc, buffer_of_length by lia.
    assert (Hin : (0 <=? next st) && (next st <? Z.of_nat (Z.to_nat (nelements st))) = true).
    { apply andb_true_iff. split; [apply Z.leb_le|apply Z.ltb_lt]; lia. }
    rewrite Hin. unfold set_entry, int_add.
    rewrite int_wrap_small by (unfold INT_MIN, INT_MAX; lia).
    rewrite Hn, Nat2Z.id, buffer_of_insert by lia. done.
  - (* full: one more slab *)
    assert (Hgt : (next st >? nelements st - 1) = true) by lia.
    rewrite Hgt. unfold int_add, SLICE_SIZE, repalloc.
    rewrite int_wrap_small by (unfold INT_MIN, INT_MAX; lia).
    rewrite (size_request D _ HD) by (unfold INT_MAX; lia).
    rewrite AllocSizeIsValid_spec by (unfold sized in HD; nia).
    destruct (Z.leb_spec (elt_size D * (nelements st + 1024)) MaxAllocSize) as [Hok|Hbad];
      mrun; [|done].
    unfold load. rewrite lookup_insert_eq.
    unfold set_buffer. cbn [next elements nelements nquantiles quantiles].
    rewrite Z.mul_comm, Z.div_mul by (unfold sized in HD; lia).
    rewrite Hc, buffer_of_resize by lia.
    rewrite buffer_of_length by lia.
    assert (Hin : (0 <=? next st) && (next st <? Z.of_nat (Z.to_nat (nelements st + 1024))) = true).
    { apply andb_true_iff. split; [apply Z.leb_le|apply Z.ltb_lt]; lia. }
    rewrite Hin. unfold set_entry.
    cbn [next elements nelements nquantiles quantiles].
    rewrite int_wrap_small by (unfold INT_MIN, INT_MAX; lia).
    rewrite insert_insert_eq, Hn, Nat2Z.id, buffer_of_insert by lia. done.
Qed.

Lemma grown_holds st vals e :
  holds st vals -> elt_size D * grown st <= MaxAllocSize ->
  holds (Struct (nquantiles st) (grown st) (next st + 1) (quantiles st)
                (buffer_of (grown st) (vals ++ [e]))) (vals ++ [e]).
Proof.
  intros [Hn Hc Hr Ha] Hg. split; cbn [next elements nelements]; [|done| |done].
  - rewrite length_app, Hn. simpl. lia.
  - unfold grown, SLICE_SIZE in *. destruct (Z.ltb_spec (next st) (nelements st)); lia.
Qed.
End AppendFacts.

Section TransitionFacts.
Context (D : domain) (HD : sized D).
Implicit Types (m : gmap ptr (struct_T D)) (st : struct_T D) (vals : list (elt D)).

Lemma quantile_append_T_existing fname data element q m :
  quantile_append_T D fname true (Some data) element q m
  = append_tail D data element m.
Proof. reflexivity. Qed.

Lemma quantile_append_T_array_existing fname data element v m :
  quantile_append_T_array D fname true (Some data) element v m
  = append_tail D data element m.
Proof. reflexivity. Qed.

Lemma first_slab_request :
  size_mul SLICE_SIZE (elt_size D) = elt_size D * 1024
  /\ AllocSizeIsValid (elt_size D * 1024) = true
  /\ Z.to_nat (elt_size D * 1024 / elt_size D) = 1024%nat.
Proof.
  unfold sized, size_mul, SLICE_SIZE in *. split; [|split].
  - rewrite Z.mod_small by lia. lia.
  - unfold AllocSizeIsValid, MaxAllocSize. apply andb_true_iff.
    split; [apply Z.leb_le|apply Z.leb_le]; lia.
  - rewrite Z.mul_comm, Z.div_mul by lia. done.
Qed.

(** The creation call enters a struct with one empty slab and the request
    of the call, and goes on as for an existing state. *)
Lemma quantile_append_T_creation fname element q m :
  quantile_append_T D fname true None element q m
  = append_tail D (fresh (dom m)) element
      (<[fresh (dom m) := struct_after 1 (Some [q]) []]> m).
Proof.
  destruct first_slab_request as (Hs & Hv & Hn).
  unfold quantile_append_T, GET_AGG_CONTEXT, palloc_array, palloc, new_struct.
  rewrite Hs, Hv, Hn. reflexivity.
Qed.

Lemma struct_after_holds nq qs vals :
  fits D (length vals) -> holds (struct_after nq qs vals) vals.
Proof.
  intros Hf. pose proof (capacity_after_bounds (length vals)) as [_ Hle].
  by split.
Qed.

Lemma struct_after_grown nq qs vals :
  grown (struct_after nq qs vals) = capacity_after (S (length vals)).
Proof.
  unfold grown, struct_after. cbn [next nelements capacity_after].
  destruct (Z.ltb_spec (Z.of_nat (length vals)) (capacity_after (length vals)));
    destruct (Z.gtb_spec (Z.of_nat (length vals)) (capacity_after (length vals) - 1));
    lia.
Qed.

(** One call of a transition function on the struct reached by [vals]. *)
Lemma append_tail_run nq qs vals data element m :
  m !! data = Some (struct_after nq qs vals) -> fits D (length vals) ->
  append_tail D data element m =
  match element with
  | None => (Done data, m)
  | Some e =>
      if elt_size D * capacity_after (S (length vals)) <=? MaxAllocSize
      then (Done data, <[data := struct_after nq qs (vals ++ [e])]> m)
      else (Raised alloc_error, m)
  end.
Proof.
  intros Hm Hf. unfold append_tail. destruct element as [e|]; [|done].
  mrun. rewrite (append_element_run D HD m data _ vals e Hm)
    by (by apply struct_after_holds).
  rewrite struct_after_grown.
  destruct (_ <=? _); [|done].
  unfold struct_after. cbn [nquantiles next quantiles].
  rewrite length_app, Nat.add_1_r, Nat2Z.inj_succ. done.
Qed.

(** A run of calls from the struct reached by [vals]: the struct reached by
    [vals] and the observations of [rows] if the allocator grants the
    buffer, and the allocator's error otherwise. *)
Lemma run_append_existing append rows : forall vals nq qs data m,
  (forall element m', append (Some data) element m' = append_tail D data element m') ->
  m !! data = Some (struct_after nq qs vals) -> fits D (length vals) ->
  run_append append (Some data) rows m =
  if elt_size D * capacity_after (length (vals ++ omap id rows)) <=? MaxAllocSize
  then (Done (Some data), <[data := struct_after nq qs (vals ++ omap id rows)]> m)
  else (Raised alloc_error, (run_append append (Some data) rows m).2).
Proof.
  induction rows as [|r rows IH]; intros vals nq qs data m Happ Hm Hf.
  - simpl. rewrite app_nil_r. apply Z.leb_le in Hf as ->.
    by rewrite insert_id.
  - cbn [run_append]. mrun. rewrite Happ.
    rewrite (append_tail_run nq qs vals data r m Hm Hf).
    destruct r as [e|].
    + change (omap id (Some e :: rows)) with (e :: omap id rows).
      replace (vals ++ e :: omap id rows) with ((vals ++ [e]) ++ omap id rows)
        by (by rewrite <- app_assoc).
      destruct (Z.leb_spec (elt_size D * capacity_after (S (length vals))) MaxAllocSize)
        as [Hok|Hbad].
      * assert (Hf' : fits D (length (vals ++ [e]))).
        { unfold fits. by rewrite length_app, Nat.add_1_r. }
        rewrite (IH (vals ++ [e]) nq qs data _ Happ) by (by rewrite ?lookup_insert_eq).
        destruct (_ <=? _); [|done].
        by rewrite insert_insert_eq.
      * destruct (Z.leb_spec (elt_size D * capacity_after (length ((vals ++ [e]) ++ omap id rows)))
                    MaxAllocSize) as [Hf'|Hf']; [|done].
        apply (fits_le D (S (length vals))) in Hf'; [|done|].
        -- unfold fits in Hf'. lia.
        -- rewrite !length_app. simpl. lia.
    + change (omap id (None :: rows)) with (omap id rows). cbv beta iota.
      rewrite (IH vals nq qs data m Happ Hm Hf).
      by destruct (_ <=? _).
Qed.
End TransitionFacts.

(** ** The final functions *)

Lemma float8_not_nan_cases q :
  is_nan q = false ->
  (float8_lt float8_zero q = true \/ float8_le q float8_zero = true)
  /\ (float8_lt q float8_one = true \/ float8_le float8_one q = true).
Proof.
  intros Hq. unfold float8_lt, float8_le, float8_zero, float8_one, SFltb, SFleb.
  destruct q as [s|s| |s m e]; try discriminate; cbn [SFcompare].
  - auto.
  - destruct s; auto.
  - destruct s; [auto|].
    split; [auto|].
    rewrite (Z.compare_antisym e (-52)).
    destruct (Z.compare_spec e (-52)); cbn [CompOpp]; auto.
    rewrite !Pos.compare_cont_spec, (Pos.compare_antisym m 4503599627370496).
    destruct (Pos.compare_spec m 4503599627370496); cbn [CompOpp Pos.switch_Eq]; auto.
Qed.

Section FinalFacts.
Context (D : domain) (HD : sized D).
Implicit Types (m : gmap ptr (struct_T D)) (st : struct_T D) (vals : list (elt D)).

Lemma sorted_struct_holds st vals :
  holds st vals -> holds (sorted_struct st vals) (pg_qsort (comparator D) vals).
Proof.
  intros [Hn Hc Hr Ha]. split; cbn [sorted_struct next elements nelements]; try done.
  by rewrite pg_qsort_length.
Qed.

Lemma sorted_struct_requests st vals qs :
  requests st qs -> requests (sorted_struct st vals) qs.
Proof. by intros [H1 H2 H3 H4]. Qed.

Lemma qsort_elements_run m data st vals :
  m !! data = Some st -> holds st vals ->
  qsort_elements D data m = (Done (), <[data := sorted_struct st vals]> m).
Proof.
  intros Hm Hh. pose proof (holds_bounds D HD st vals Hh) as [Hb1 Hb2].
  destruct Hh as [Hn Hc Hr Ha].
  unfold qsort_elements. mrun. rewrite (load_run _ _ _ Hm). mrun.
  rewrite Hc, buffer_of_length by lia.
  assert (Hin : (0 <=? next st) && (next st <=? Z.of_nat (Z.to_nat (nelements st))) = true).
  { apply andb_true_iff. split; apply Z.leb_le; lia. }
  rewrite Hin, Hn, Nat2Z.id, buffer_of_take, buffer_of_drop, mapM_id_Some.
  unfold set_entry, sorted_struct, buffer_of.
  by rewrite pg_qsort_length, Hn.
Qed.

Lemma read_element_run m data st vals idx v :
  m !! data = Some st -> holds st vals ->
  0 <= idx -> vals !! Z.to_nat idx = Some v ->
  read_element D data idx m = (Done v, m).
Proof.
  intros Hm [Hn Hc Hr Ha] Hidx Hv.
  unfold read_element, index. mrun. rewrite (load_run _ _ _ Hm). mrun.
  assert (Hneg : (idx <? 0) = false) by lia. rewrite Hneg, Hc.
  rewrite buffer_of_lookup by (by apply lookup_lt_Some in Hv).
  by rewrite Hv.
Qed.

Lemma read_quantile_run m data st qs (i : nat) q :
  m !! data = Some st -> requests st qs -> qs !! i = Some q ->
  read_quantile D data (Z.of_nat i) m = (Done q, m).
Proof.
  intros Hm [H1 H2 H3 H4] Hq.
  unfold read_quantile, index. mrun. rewrite (load_run _ _ _ Hm). mrun.
  assert (Hneg : (Z.of_nat i <? 0) = false) by (apply Z.ltb_ge; lia).
  by rewrite H1, Hneg, Nat2Z.id, Hq.
Qed.

Lemma requests_valid_at st qs (i : nat) q :
  requests st qs -> qs !! i = Some q -> valid_binary prec emax q = true.
Proof.
  intros [_ _ _ Hv] Hq. rewrite forallb_forall in Hv.
  apply Hv, list_elem_of_In, list_elem_of_lookup. eauto.
Qed.

(** The rank of a probability strictly inside (0,1) over a non-empty
    buffer is computed without overflow and indexes a written cell. *)
Lemma ceil_rank_run m data st vals q :
  m !! data = Some st -> holds st vals -> vals <> [] ->
  valid_binary prec emax q = true ->
  float8_lt float8_zero q = true -> float8_lt q float8_one = true ->
  exists c,
    int_of_ceil (float8_mul (float8_of_int (Z.of_nat (length vals))) q) = Some c
    /\ 1 <= c <= Z.of_nat (length vals)
    /\ ceil_rank D data q m = (Done (c - 1), m).
Proof.
  intros Hm Hh Hne Hv H0 H1.
  pose proof (holds_bounds D HD st vals Hh) as [Hb1 Hb2].
  destruct Hh as [Hn Hc Hr Ha].
  assert (Hlen : 1 <= Z.of_nat (length vals) <= INT_MAX).
  { destruct vals; [done|]. simpl length in *. unfold INT_MAX. lia. }
  destruct (int_of_ceil_rank_bounds _ q Hlen Hv H0 H1) as (c & Hc' & Hcb).
  exists c. split; [done|]. split; [done|].
  unfold ceil_rank. mrun. rewrite (load_run _ _ _ Hm). mrun.
  rewrite Hn, Hc'. unfold int_sub.
  rewrite int_wrap_small by (unfold INT_MIN, INT_MAX in *; lia). done.
Qed.

(** One iteration of the ranking loop: the index the rule gives for [q],
    or the index left by the previous iteration when no case of the rule
    applies. *)
Lemma rank_index_run m data st vals q idx :
  m !! data = Some st -> holds st vals -> vals <> [] ->
  valid_binary prec emax q = true -> 0 <= idx < Z.of_nat (length vals) ->
  exists idx',
    rank_index D data q idx m = (Done idx', m)
    /\ 0 <= idx' < Z.of_nat (length vals)
    /\ idx' = default idx (nearest_rank (Z.of_nat (length vals)) q).
Proof.
  intros Hm Hh Hne Hv Hidx.
  pose proof (holds_bounds D HD st vals Hh) as [Hb1 Hb2].
  unfold rank_index, nearest_rank.
  change (float8_gt q float8_zero) with (float8_lt float8_zero q).
  change (float8_ge q float8_one) with (float8_le float8_one q).
  destruct (float8_lt float8_zero q) eqn:H0; cbn [andb].
  - destruct (float8_lt q float8_one) eqn:H1.
    + destruct (ceil_rank_run m data st vals q Hm Hh Hne Hv H0 H1) as (c & Hc & Hcb & Hrun).
      exists (c - 1). rewrite Hrun, Hc. split; [done|]. split; [lia|done].
    + destruct (float8_le q float8_zero).
      { exists 0. split; [done|]. split; [lia|done]. }
      destruct (float8_le float8_one q).
      * exists (Z.of_nat (length vals) - 1).
        mrun. rewrite (load_run _ _ _ Hm). mrun. unfold int_sub.
        destruct Hh as [Hn _ _ _]. rewrite Hn.
        rewrite int_wrap_small by (unfold INT_MIN, INT_MAX in *; lia).
        split; [done|]. split; [lia|done].
      * exists idx. split; [done|]. split; [lia|done].
  - destruct (float8_le q float8_zero).
    { exists 0. split; [done|]. split; [lia|done]. }
    destruct (float8_le float8_one q).
    + exists (Z.of_nat (length vals) - 1).
      mrun. rewrite (load_run _ _ _ Hm). mrun. unfold int_sub.
      destruct Hh as [Hn _ _ _]. rewrite Hn.
      rewrite int_wrap_small by (unfold INT_MIN, INT_MAX in *; lia).
      split; [done|]. split; [lia|done].
    + exists idx. split; [done|]. split; [lia|done].
Qed.

(** The rule selects an index within the buffer for every probability that
    is not a NaN. *)
Lemma nearest_rank_defined n q :
  1 <= n <= INT_MAX -> valid_binary prec emax q = true -> is_nan q = false ->
  exists idx, nearest_rank n q = Some idx /\ 0 <= idx < n.
Proof.
  intros Hn Hv Hq. destruct (float8_not_nan_cases q Hq) as [Hc0 Hc1].
  unfold nearest_rank.
  destruct (float8_lt float8_zero q) eqn:H0; cbn [andb].
  - destruct (float8_lt q float8_one) eqn:H1.
    + destruct (int_of_ceil_rank_bounds n q Hn Hv H0 H1) as (c & -> & Hcb).
      exists (c - 1). split; [done|lia].
    + destruct (float8_le q float8_zero); [exists 0; split; [done|lia]|].
      destruct Hc1 as [? | ->]; [done|]. exists (n - 1). split; [done|lia].
  - destruct Hc0 as [? | ->]; [done|]. exists 0. split; [done|lia].
Qed.

(** The ranking loop over the probabilities from position [i] on. *)
Lemma rank_loop_run m data st vals qs :
  m !! data = Some st -> holds st vals -> requests st qs -> vals <> [] ->
  forall rest (i : nat) idx,
    drop i qs = rest -> 0 <= idx < Z.of_nat (length vals) ->
    exists res,
      rank_loop D data (length rest) (Z.of_nat i) idx m = (Done res, m)
      /\ length res = length rest
      /\ forall (j : nat) q idx', rest !! j = Some q ->
           nearest_rank (Z.of_nat (length vals)) q = Some idx' ->
           0 <= idx' < Z.of_nat (length vals)
           /\ res !! j = vals !! Z.to_nat idx'.
Proof.
  intros Hm Hh Hr Hne. induction rest as [|q rest IH]; intros i idx Hdrop Hidx.
  { exists []. simpl. split; [done|]. split; [done|]. intros j q idx' Hj. done. }
  assert (Hq : qs !! i = Some q).
  { pose proof (lookup_drop qs i 0) as H. rewrite Hdrop, Nat.add_0_r in H.
    by rewrite <- H. }
  assert (Hv : valid_binary prec emax q = true) by (by eapply requests_valid_at).
  destruct (rank_index_run m data st vals q idx Hm Hh Hne Hv Hidx) as (idx1 & Hrun & Hb & Hdef).
  destruct (lookup_lt_is_Some_2 vals (Z.to_nat idx1)) as [v Hval]; [lia|].
  destruct (IH (S i) idx1) as (res & Hloop & Hlen & Hres).
  { replace (S i) with (i + 1)%nat by lia. by rewrite <- drop_drop, Hdrop. }
  { done. }
  exists (v :: res). split; [|split].
  - cbn [rank_loop length]. mrun.
    rewrite (read_quantile_run m data st qs i q Hm Hr Hq). mrun.
    rewrite Hrun. mrun.
    rewrite (read_element_run m data st vals idx1 v Hm Hh) by (done || lia). mrun.
    replace (Z.of_nat i + 1) with (Z.of_nat (S i)) by lia.
    by rewrite Hloop.
  - simpl. by rewrite Hlen.
  - intros [|j] q' idx' Hj Hnr.
    + simpl in Hj. injection Hj as <-. rewrite Hnr in Hdef. simpl in Hdef. subst idx1.
      split; [done|]. by rewrite Hval.
    + simpl in Hj. simpl. by apply (Hres j q').
Qed.
End FinalFacts.

Section FinalRuns.
Context (D : domain) (HD : sized D).
Implicit Types (m : gmap ptr (struct_T D)) (st : struct_T D) (vals : list (elt D)).

Lemma result_request st qs :
  requests st qs ->
  AllocSizeIsValid (size_mul (size_t_of_int (nquantiles st)) (elt_size D)) = true.
Proof.
  intros [_ H2 H3 _]. unfold sized, MaxAllocSize, size_mul, size_t_of_int in *.
  rewrite H2, (Z.mod_small (Z.of_nat (length qs))) by lia.
  rewrite Z.mod_small by nia.
  unfold AllocSizeIsValid, MaxAllocSize. apply andb_true_iff.
  split; apply Z.leb_le; nia.
Qed.

(** The array final function on a non-empty buffer: one value per
    probability, each read from the sorted buffer at the index kept by the
    loop. *)
Lemma quantile_T_array_run fname m data st vals qs :
  m !! data = Some st -> holds st vals -> requests st qs -> vals <> [] ->
  exists res,
    quantile_T_array D fname true (Some data) m
      = (Done (Some res), <[data := sorted_struct st vals]> m)
    /\ length res = length qs
    /\ forall (j : nat) q idx', qs !! j = Some q ->
         nearest_rank (Z.of_nat (length vals)) q = Some idx' ->
         0 <= idx' < Z.of_nat (length vals)
         /\ res !! j = pg_qsort (comparator D) vals !! Z.to_nat idx'.
Proof.
  intros Hm Hh Hr Hne.
  set (m1 := <[data := sorted_struct st vals]> m).
  assert (Hm1 : m1 !! data = Some (sorted_struct st vals)) by apply lookup_insert_eq.
  assert (Hne1 : pg_qsort (comparator D) vals <> []).
  { intros Heq. apply Hne, nil_length_inv. by rewrite <- (pg_qsort_length (comparator D)), Heq. }
  assert (Hpos : 0 <= 0 < Z.of_nat (length (pg_qsort (comparator D) vals))).
  { rewrite pg_qsort_length. destruct vals; [done|]. simpl. lia. }
  destruct (rank_loop_run D HD m1 data _ _ qs Hm1 (sorted_struct_holds D st vals Hh)
              (sorted_struct_requests D st vals qs Hr) Hne1 qs 0%nat 0 eq_refl Hpos)
    as (res & Hloop & Hlen & Hres).
  exists res. split; [|split; [done|]].
  - unfold quantile_T_array, CHECK_AGG_CONTEXT, palloc. mrun.
    rewrite (load_run _ _ _ Hm). mrun.
    rewrite (result_request st qs Hr).
    rewrite (qsort_elements_run D HD m data st vals Hm Hh).
    destruct Hr as [_ Hq _ _]. rewrite Hq, Nat2Z.id.
    change (Z.of_nat 0) with 0 in Hloop. fold m1. by rewrite Hloop.
  - intros j q idx' Hj Hnr. rewrite pg_qsort_length in Hres. by apply (Hres j q).
Qed.
End FinalRuns.

(** The scalar final function of the double domain, for a probability
    strictly inside (0,1). *)
Lemma quantile_double_inside m data (st : struct_T double_domain) vals qs q :
  m !! data = Some st -> holds st vals -> requests st qs -> vals <> [] ->
  qs !! 0%nat = Some q ->
  float8_lt float8_zero q = true -> float8_lt q float8_one = true ->
  exists c v,
    int_of_ceil (float8_mul (float8_of_int (Z.of_nat (length vals))) q) = Some c
    /\ 1 <= c <= Z.of_nat (length vals)
    /\ pg_qsort double_comparator vals !! Z.to_nat (c - 1) = Some v
    /\ quantile_double true (Some data) m
       = (Done (Some v), <[data := sorted_struct st vals]> m).
Proof.
  intros Hm Hh Hr Hne Hq H0 H1.
  assert (HD : sized double_domain) by (unfold sized; simpl; lia).
  set (m1 := <[data := sorted_struct st vals]> m).
  assert (Hm1 : m1 !! data = Some (sorted_struct st vals)) by apply lookup_insert_eq.
  pose proof (sorted_struct_holds double_domain st vals Hh) as Hh1.
  pose proof (sorted_struct_requests double_domain st vals qs Hr) as Hr1.
  assert (Hne1 : pg_qsort double_comparator vals <> []).
  { intros Heq. apply Hne, nil_length_inv. by rewrite <- (pg_qsort_length double_comparator), Heq. }
  destruct (ceil_rank_run double_domain HD m1 data _ _ q Hm1 Hh1 Hne1
              (requests_valid_at double_domain st qs 0 q Hr Hq) H0 H1) as (c & Hc & Hcb & Hrun).
  simpl comparator in *. change (elt double_domain) with float8 in *.
  rewrite pg_qsort_length in Hc, Hcb.
  destruct (lookup_lt_is_Some_2 (pg_qsort double_comparator vals) (Z.to_nat (c - 1)))
    as [v Hv]; [rewrite pg_qsort_length; lia|].
  exists c, v. split; [done|]. split; [done|]. split; [done|].
  unfold quantile_double, CHECK_AGG_CONTEXT, palloc. mrun.
  rewrite (load_run _ _ _ Hm). mrun.
  pose proof (result_request double_domain HD st qs Hr) as Halloc.
  change (elt_size double_domain) with 8 in Halloc. rewrite Halloc.
  rewrite (qsort_elements_run double_domain HD m data st vals Hm Hh). fold m1.
  pose proof (read_quantile_run double_domain m1 data _ qs 0 q Hm1 Hr1 Hq) as Hrq.
  change (Z.of_nat 0) with 0 in Hrq. rewrite Hrq. mrun.
  change (float8_gt q float8_zero) with (float8_lt float8_zero q).
  rewrite H0, H1. cbn [andb]. rewrite Hrun. mrun.
  by rewrite (read_element_run double_domain m1 data _ _ (c - 1) v Hm1 Hh1) by (done || lia).
Qed.

(** Outside (0,1), NaN included, the same function reads the first sorted
    entry. *)
Lemma quantile_double_outside m data (st : struct_T double_domain) vals qs q :
  m !! data = Some st -> holds st vals -> requests st qs -> vals <> [] ->
  qs !! 0%nat = Some q ->
  float8_lt float8_zero q && float8_lt q float8_one = false ->
  exists v,
    pg_qsort double_comparator vals !! 0%nat = Some v
    /\ quantile_double true (Some data) m
       = (Done (Some v), <[data := sorted_struct st vals]> m).
Proof.
  intros Hm Hh Hr Hne Hq Hout.
  assert (HD : sized double_domain) by (unfold sized; simpl; lia).
  set (m1 := <[data := sorted_struct st vals]> m).
  assert (Hm1 : m1 !! data = Some (sorted_struct st vals)) by apply lookup_insert_eq.
  pose proof (sorted_struct_holds double_domain st vals Hh) as Hh1.
  pose proof (sorted_struct_requests double_domain st vals qs Hr) as Hr1.
  destruct (lookup_lt_is_Some_2 (pg_qsort double_comparator vals) 0) as [v Hv].
  { rewrite pg_qsort_length. destruct vals; [done|]. simpl. lia. }
  exists v. split; [done|].
  unfold quantile_double, CHECK_AGG_CONTEXT, palloc. mrun.
  rewrite (load_run _ _ _ Hm). mrun.
  pose proof (result_request double_domain HD st qs Hr) as Halloc.
  change (elt_size double_domain) with 8 in Halloc. rewrite Halloc.
  rewrite (qsort_elements_run double_domain HD m data st vals Hm Hh). fold m1.
  pose proof (read_quantile_run double_domain m1 data _ qs 0 q Hm1 Hr1 Hq) as Hrq.
  change (Z.of_nat 0) with 0 in Hrq. rewrite Hrq. mrun.
  change (float8_gt q float8_zero) with (float8_lt float8_zero q).
  rewrite Hout. mrun.
  by rewrite (read_element_run double_domain m1 data _ _ 0 v Hm1 Hh1) by (done || lia).
Qed.

(** ** The comparators of the domains

    The integer comparators order any values and tell them apart.  The
    double comparator orders doubles that are not NaN, and tells them apart
    unless both zeros are among them. *)

Lemma ordersb_intro {A} (cmp : A -> A -> Z) l :
  (forall x y, x ∈ l -> y ∈ l -> cmp_le cmp x y \/ cmp_le cmp y x) ->
  (forall x y z, x ∈ l -> y ∈ l -> z ∈ l ->
     cmp_le cmp x y -> cmp_le cmp y z -> cmp_le cmp x z) ->
  ordersb cmp l = true.
Proof.
  intros Htot Htrans. unfold ordersb, cmp_le in *.
  apply forallb_forall. intros x Hx%list_elem_of_In.
  apply forallb_forall. intros y Hy%list_elem_of_In.
  apply andb_true_iff. split.
  - destruct (Htot x y Hx Hy); apply orb_true_iff; [left|right]; by apply Z.leb_le.
  - apply forallb_forall. intros z Hz%list_elem_of_In.
    destruct (cmp x y <=? 0) eqn:Hxy; [|done].
    destruct (cmp y z <=? 0) eqn:Hyz; [|done]. simpl.
    apply Z.leb_le in Hxy, Hyz. apply Z.leb_le. by apply (Htrans x y z).
Qed.

Lemma separatesb_intro {A} `{EqDecision A} (cmp : A -> A -> Z) l :
  (forall x y, x ∈ l -> y ∈ l -> cmp_le cmp x y -> cmp_le cmp y x -> x = y) ->
  separatesb cmp l = true.
Proof.
  intros Hsep. unfold separatesb, cmp_le in *.
  apply forallb_forall. intros x Hx%list_elem_of_In.
  apply forallb_forall. intros y Hy%list_elem_of_In.
  destruct (cmp x y <=? 0) eqn:Hxy; [|done].
  destruct (cmp y x <=? 0) eqn:Hyx; [|done]. simpl.
  apply Z.leb_le in Hxy, Hyx. apply bool_decide_eq_true. by apply Hsep.
Qed.

Lemma int32_comparator_le x y : cmp_le int32_comparator x y <-> x <= y.
Proof.
  unfold cmp_le, int32_comparator.
  destruct (Z.ltb_spec y x), (Z.ltb_spec x y); simpl; lia.
Qed.

Lemma int32_comparator_orders l :
  ordersb int32_comparator l = true /\ separatesb int32_comparator l = true.
Proof.
  split.
  - apply ordersb_intro; intros *; rewrite ?int32_comparator_le; lia.
  - apply separatesb_intro; intros *; rewrite ?int32_comparator_le; lia.
Qed.

Lemma int64_comparator_orders l :
  ordersb int64_comparator l = true /\ separatesb int64_comparator l = true.
Proof. apply int32_comparator_orders. Qed.

Lemma float8_lt_key x y :
  is_nan x = false -> is_nan y = false ->
  float8_lt x y = true <-> lex_lt (float8_key x) (float8_key y).
Proof.
  intros Hx Hy. unfold float8_lt, SFltb, lex_lt.
  destruct x as [sx|sx| |sx mx ex], y as [sy|sy| |sy my ey]; try discriminate;
    try destruct sx; try destruct sy; cbn [SFcompare float8_key fst snd];
    try (split; intros H; (discriminate || lia || done)).
  - rewrite Pos.compare_cont_spec.
    destruct (Z.compare_spec ex ey), (Pos.compare_spec mx my);
      cbn [CompOpp Pos.switch_Eq]; split; intros ?; (discriminate || lia || done).
  - rewrite Pos.compare_cont_spec.
    destruct (Z.compare_spec ex ey), (Pos.compare_spec mx my);
      cbn [CompOpp Pos.switch_Eq]; split; intros ?; (discriminate || lia || done).
Qed.

Lemma double_comparator_le x y :
  is_nan x = false -> is_nan y = false ->
  cmp_le double_comparator x y <-> ~ lex_lt (float8_key y) (float8_key x).
Proof.
  intros Hx Hy. unfold cmp_le, double_comparator.
  change (float8_gt x y) with (float8_lt y x).
  pose proof (float8_lt_key x y Hx Hy) as Hxy.
  pose proof (float8_lt_key y x Hy Hx) as Hyx.
  destruct (float8_lt x y), (float8_lt y x); simpl.
  - assert (H1 : lex_lt (float8_key x) (float8_key y)) by (by apply Hxy).
    assert (H2 : lex_lt (float8_key y) (float8_key x)) by (by apply Hyx).
    unfold lex_lt in *. destruct (float8_key x) as [[??]?], (float8_key y) as [[??]?].
    lia.
  - split; [|lia]. intros _ H. apply Hyx in H. discriminate.
  - split; [lia|]. intros H. exfalso. by apply H, Hyx.
  - split; [|lia]. intros _ H. apply Hyx in H. discriminate.
Qed.

(** Doubles without a NaN are ordered by the comparator. *)
Lemma double_comparator_orders l :
  forallb (fun x => negb (is_nan x)) l = true ->
  ordersb double_comparator l = true.
Proof.
  intros Hnan. rewrite forallb_forall in Hnan.
  assert (Hn : forall x, x ∈ l -> is_nan x = false).
  { intros x Hx%list_elem_of_In. apply Hnan in Hx. by destruct (is_nan x). }
  apply ordersb_intro.
  - intros x y Hx Hy. rewrite !double_comparator_le by auto.
    unfold lex_lt. destruct (float8_key x) as [[??]?], (float8_key y) as [[??]?]. lia.
  - intros x y z Hx Hy Hz. rewrite !double_comparator_le by auto.
    unfold lex_lt.
    destruct (float8_key x) as [[??]?], (float8_key y) as [[??]?],
      (float8_key z) as [[??]?]. lia.
Qed.

Lemma float8_key_inj x y :
  is_nan x = false -> is_nan y = false -> float8_key x = float8_key y ->
  x = y \/ (exists sx sy, x = S754_zero sx /\ y = S754_zero sy).
Proof.
  intros Hx Hy.
  destruct x as [sx|sx| |sx mx ex], y as [sy|sy| |sy my ey]; try discriminate;
    try destruct sx; try destruct sy; cbn [float8_key];
    intros [=]; try (by left); try (right; by eauto);
    left; f_equal; lia.
Qed.

(** They are told apart as well unless both zeros are among them. *)
Lemma double_comparator_separates l :
  forallb (fun x => negb (is_nan x)) l = true ->
  ~ (S754_zero true ∈ l /\ S754_zero false ∈ l) ->
  separatesb double_comparator l = true.
Proof.
  intros Hnan Hzero. rewrite forallb_forall in Hnan.
  assert (Hn : forall x, x ∈ l -> is_nan x = false).
  { intros x Hx%list_elem_of_In. apply Hnan in Hx. by destruct (is_nan x). }
  apply separatesb_intro. intros x y Hx Hy.
  rewrite !double_comparator_le by auto. intros H1 H2.
  assert (Hkey : float8_key x = float8_key y).
  { unfold lex_lt in *.
    destruct (float8_key x) as [[a b] c], (float8_key y) as [[a' b'] c'].
    cbn [fst snd] in H1, H2.
    assert (a = a' /\ b = b' /\ c = c') as (-> & -> & ->) by lia. done. }
  destruct (float8_key_inj x y (Hn x Hx) (Hn y Hy) Hkey)
    as [?|(sx & sy & -> & ->)]; [done|].
  destruct sx, sy; try done; exfalso; apply Hzero; by split.
Qed.

(** ** Ascending arrangements

    What the final functions return is stated against an ascending
    arrangement of the accumulated values.  Where the order is total and
    transitive on the values, two such arrangements hold at every position
    values that are at or below each other, and the same value where such
    values are identical. *)

Section AscendingFacts.
Context {A : Type} (le : A -> A -> Prop) `{!forall x y, Decision (le x y)}.

Lemma StronglySorted_lookup_lt (l : list A) (i j : nat) x y :
  StronglySorted le l -> l !! i = Some x -> l !! j = Some y -> (i < j)%nat -> le x y.
Proof.
  intros Hs. revert i j.
  induction Hs as [|z k Hk IH Hz]; intros i j Hi Hj Hij; [done|].
  destruct i as [|i]; destruct j as [|j]; try lia.
  - simpl in Hi, Hj. injection Hi as ->.
    rewrite Forall_forall in Hz. apply Hz. by eapply list_elem_of_lookup_2.
  - simpl in Hi, Hj. apply (IH i j); auto; lia.
Qed.

Lemma StronglySorted_elem_impl (le' : A -> A -> Prop) (l : list A) :
  (forall x y, x ∈ l -> y ∈ l -> le x y -> le' x y) ->
  StronglySorted le l -> StronglySorted le' l.
Proof.
  intros Himp Hs. induction Hs as [|z k Hk IH Hz]; [constructor|].
  constructor.
  - apply IH. intros x y Hx Hy. apply Himp; by right.
  - rewrite Forall_forall in Hz. apply Forall_forall. intros y Hy.
    apply Himp; [left|by right|by apply Hz].
Qed.

Lemma filter_all (P : A -> Prop) `{forall x, Decision (P x)} (l : list A) :
  Forall P l -> filter P l = l.
Proof.
  induction 1 as [|x l Hx Hl IH]; [done|].
  by rewrite filter_cons_True, IH.
Qed.

Lemma filter_none (P : A -> Prop) `{!forall x, Decision (P x)} (l : list A) :
  Forall (fun x => ~ P x) l -> filter P l = [].
Proof.
  induction 1 as [|x l Hx Hl IH]; [done|].
  by rewrite filter_cons_False.
Qed.

Section Agree.
Context (vals : list A).
Hypothesis Htotal : forall x y, x ∈ vals -> y ∈ vals -> le x y \/ le y x.
Hypothesis Htrans : forall x y z, x ∈ vals -> y ∈ vals -> z ∈ vals ->
  le x y -> le y z -> le x z.

Lemma ascending_lookup_le s1 s2 (i : nat) a b :
  ascending le vals s1 -> ascending le vals s2 ->
  s1 !! i = Some a -> s2 !! i = Some b -> le a b.
Proof.
  intros [Hp1 Hs1] [Hp2 Hs2] Ha Hb.
  assert (Hav : a ∈ vals) by (rewrite <- Hp1; by eapply list_elem_of_lookup_2).
  assert (Hbv : b ∈ vals) by (rewrite <- Hp2; by eapply list_elem_of_lookup_2).
  destruct (decide (le a b)) as [|Hnot]; [done|exfalso].
  assert (Hba : le b a) by (destruct (Htotal a b Hav Hbv); done).
  assert (H1 : (length (filter (fun x => le x b) s1) <= i)%nat).
  { rewrite <- (take_drop i s1), filter_app, length_app.
    assert (Hnone : filter (fun x => le x b) (drop i s1) = []).
    { apply filter_none. apply Forall_forall. intros x Hx Hxb.
      assert (Hxv : x ∈ vals).
      { rewrite <- Hp1. apply list_elem_of_lookup in Hx as [j Hj].
        rewrite lookup_drop in Hj. by eapply list_elem_of_lookup_2. }
      apply Hnot. apply (Htrans a x b); auto.
      apply list_elem_of_lookup in Hx as [j Hj]. rewrite lookup_drop in Hj.
      destruct j as [|j].
      - rewrite Nat.add_0_r in Hj. assert (x = a) as -> by congruence.
        by destruct (Htotal a a Hav Hav).
      - apply (StronglySorted_lookup_lt s1 i (i + S j)); auto. lia. }
    rewrite Hnone. simpl.
    pose proof (length_filter (fun x => le x b) (take i s1)) as Hle.
    rewrite length_take in Hle. lia. }
  assert (H2 : (i + 1 <= length (filter (fun x => le x b) s2))%nat).
  { pose proof (lookup_lt_Some _ _ _ Hb) as Hlt.
    rewrite <- (take_drop (i + 1) s2), filter_app, length_app.
    assert (Hall : filter (fun x => le x b) (take (i + 1) s2) = take (i + 1) s2).
    { apply filter_all, Forall_forall. intros x Hx.
      apply list_elem_of_lookup in Hx as [j Hj].
      apply lookup_take_Some in Hj as [Hj Hji].
      destruct (decide (j = i)) as [->|Hne].
      - assert (x = b) as -> by congruence.
        by destruct (Htotal b b Hbv Hbv).
      - apply (StronglySorted_lookup_lt s2 j i); auto. lia. }
    rewrite Hall, length_take. lia. }
  assert (Heq : length (filter (fun x => le x b) s1)
                = length (filter (fun x => le x b) s2)).
  { apply Permutation_length. apply filter_Permutation. by rewrite Hp1, Hp2. }
  lia.
Qed.

(** Two ascending arrangements of the same values hold, at every position,
    values that compare as equal. *)
Lemma ascending_agree s1 s2 (i : nat) a :
  ascending le vals s1 -> ascending le vals s2 -> s1 !! i = Some a ->
  exists b, s2 !! i = Some b /\ le a b /\ le b a.
Proof.
  intros H1 H2 Ha.
  destruct (lookup_lt_is_Some_2 s2 i) as [b Hb].
  { destruct H1 as [Hp1 _], H2 as [Hp2 _].
    rewrite (Permutation_length Hp2), <- (Permutation_length Hp1).
    by eapply lookup_lt_Some. }
  exists b. split; [done|]. split.
  - by apply (ascending_lookup_le s1 s2 i).
  - by apply (ascending_lookup_le s2 s1 i).
Qed.

(** Where values that compare as equal are identical, the ascending
    arrangement is unique. *)
Lemma ascending_exact s1 s2 (i : nat) a :
  (forall x y, x ∈ vals -> y ∈ vals -> le x y -> le y x -> x = y) ->
  ascending le vals s1 -> ascending le vals s2 -> s1 !! i = Some a ->
  s2 !! i = Some a.
Proof.
  intros Hanti H1 H2 Ha.
  destruct (ascending_agree s1 s2 i a H1 H2 Ha) as (b & Hb & Hab & Hba).
  rewrite Hb. f_equal. apply Hanti; auto.
  - destruct H2 as [Hp2 _]. rewrite <- Hp2. by eapply list_elem_of_lookup_2.
  - destruct H1 as [Hp1 _]. rewrite <- Hp1. by eapply list_elem_of_lookup_2.
Qed.

Lemma ascending_greatest sorted hi x :
  ascending le vals sorted -> sorted !! (length vals - 1)%nat = Some hi ->
  x ∈ vals -> le x hi.
Proof.
  intros [Hp Hs] Hhi Hx. rewrite <- Hp in Hx.
  apply list_elem_of_lookup in Hx as [j Hj].
  pose proof (lookup_lt_Some _ _ _ Hj) as Hlt.
  rewrite (Permutation_length Hp) in Hlt.
  destruct (decide (j = (length vals - 1)%nat)) as [->|Hne].
  - assert (x = hi) as -> by congruence.
    assert (Hv : hi ∈ vals) by (rewrite <- Hp; by eapply list_elem_of_lookup_2).
    by destruct (Htotal hi hi Hv Hv).
  - apply (StronglySorted_lookup_lt sorted j (length vals - 1)); auto. lia.
Qed.

Lemma ascending_least sorted lo x :
  ascending le vals sorted -> sorted !! 0%nat = Some lo -> x ∈ vals -> le lo x.
Proof.
  intros [Hp Hs] Hlo Hx. rewrite <- Hp in Hx.
  apply list_elem_of_lookup in Hx as [j Hj]. destruct j as [|j].
  - assert (x = lo) as -> by congruence.
    assert (Hv : lo ∈ vals) by (rewrite <- Hp; by eapply list_elem_of_lookup_2).
    by destruct (Htotal lo lo Hv Hv).
  - apply (StronglySorted_lookup_lt sorted 0 (S j)); auto. lia.
Qed.
End Agree.
End AscendingFacts.

(** The sorting routine returns an ascending arrangement, in the order of
    the comparator, of values that the comparator orders. *)
Lemma pg_qsort_ascending {A} (cmp : A -> A -> Z) vals :
  ordersb cmp vals = true -> ascending (cmp_le cmp) vals (pg_qsort cmp vals).
Proof. intros H. split; [apply pg_qsort_Permutation|by apply pg_qsort_sorted]. Qed.

Lemma float8_le_key x y :
  is_nan x = false -> is_nan y = false ->
  float8_le x y = true <-> ~ lex_lt (float8_key y) (float8_key x).
Proof.
  intros Hx Hy. unfold float8_le, SFleb, lex_lt.
  destruct x as [sx|sx| |sx mx ex], y as [sy|sy| |sy my ey]; try discriminate;
    try destruct sx; try destruct sy; cbn [SFcompare float8_key fst snd];
    try (split; intros H; (discriminate || lia || done)).
  - rewrite Pos.compare_cont_spec.
    destruct (Z.compare_spec ex ey), (Pos.compare_spec mx my);
      cbn [CompOpp Pos.switch_Eq]; split; intros ?; (discriminate || lia || done).
  - rewrite Pos.compare_cont_spec.
    destruct (Z.compare_spec ex ey), (Pos.compare_spec mx my);
      cbn [CompOpp Pos.switch_Eq]; split; intros ?; (discriminate || lia || done).
Qed.

(** On doubles that are not NaN the comparator is the numeric order. *)
Lemma double_comparator_float8_le x y :
  is_nan x = false -> is_nan y = false ->
  cmp_le double_comparator x y <-> float8_order x y.
Proof.
  intros Hx Hy. unfold float8_order.
  by rewrite double_comparator_le, float8_le_key.
Qed.

Lemma forallb_not_nan vals x :
  forallb (fun x => negb (is_nan x)) vals = true -> x ∈ vals -> is_nan x = false.
Proof.
  intros H Hx. rewrite forallb_forall in H.
  apply list_elem_of_In in Hx. apply H in Hx. by apply negb_true_iff.
Qed.

Lemma float8_order_total vals x y :
  forallb (fun x => negb (is_nan x)) vals = true ->
  x ∈ vals -> y ∈ vals -> float8_order x y \/ float8_order y x.
Proof.
  intros Hnan Hx Hy.
  pose proof (forallb_not_nan vals x Hnan Hx) as Hnx.
  pose proof (forallb_not_nan vals y Hnan Hy) as Hny.
  destruct (ordersb_total double_comparator vals x y
              (double_comparator_orders vals Hnan) Hx Hy) as [H|H];
    [left|right]; by apply double_comparator_float8_le.
Qed.

Lemma float8_order_trans vals x y z :
  forallb (fun x => negb (is_nan x)) vals = true ->
  x ∈ vals -> y ∈ vals -> z ∈ vals ->
  float8_order x y -> float8_order y z -> float8_order x z.
Proof.
  intros Hnan Hx Hy Hz Hxy Hyz.
  pose proof (forallb_not_nan vals x Hnan Hx) as Hnx.
  pose proof (forallb_not_nan vals y Hnan Hy) as Hny.
  pose proof (forallb_not_nan vals z Hnan Hz) as Hnz.
  apply double_comparator_float8_le; [done|done|].
  apply (ordersb_trans double_comparator vals x y z
           (double_comparator_orders vals Hnan) Hx Hy Hz);
    by apply double_comparator_float8_le.
Qed.

Lemma float8_order_antisym vals x y :
  forallb (fun x => negb (is_nan x)) vals = true ->
  ~ (S754_zero true ∈ vals /\ S754_zero false ∈ vals) ->
  x ∈ vals -> y ∈ vals -> float8_order x y -> float8_order y x -> x = y.
Proof.
  intros Hnan Hz Hx Hy Hxy Hyx.
  pose proof (forallb_not_nan vals x Hnan Hx) as Hnx.
  pose proof (forallb_not_nan vals y Hnan Hy) as Hny.
  apply (separatesb_eq double_comparator vals x y
           (double_comparator_separates vals Hnan Hz) Hx Hy);
    by apply double_comparator_float8_le.
Qed.

(** The sorted buffer of doubles without a NaN is ascending in the numeric
    order. *)
Lemma pg_qsort_ascending_doubles vals :
  forallb (fun x => negb (is_nan x)) vals = true ->
  ascending float8_order vals (pg_qsort double_comparator vals).
Proof.
  intros Hnan. split; [apply pg_qsort_Permutation|].
  apply (StronglySorted_elem_impl (cmp_le double_comparator)).
  - intros x y Hx Hy. rewrite pg_qsort_Permutation in Hx, Hy.
    apply double_comparator_float8_le; by eapply forallb_not_nan.
  - by apply pg_qsort_sorted, double_comparator_orders.
Qed.

(** * The claims *)

(** C1 as stated fails when a NaN was accumulated.  [double_comparator]
    answers 0 for every comparison with a NaN, so the sort leaves the values
    2, NaN, 1 as they arrived.  For the probability 0.25 the rank is
    [ceil(3 * 0.25) = 1], and both final functions return 2, the entry at
    index 0 of the buffer, although 1 is smaller: in no arrangement of the
    three values in which no value comes before a smaller one does 2 stand
    at index 0. *)
Lemma nan_value_displaces_smaller_value :
  int_of_ceil (float8_mul (float8_of_int 3) float8_quarter) = Some 1
  /\ (aggregate (fun state element =>
                   quantile_append_double true state element float8_quarter)
                (quantile_double true)
                (Some <$> doubles_with_nan) ∅).1
     = Done (Some (float8_of_int 2))
  /\ (aggregate (fun state element =>
                   quantile_append_double_array true state element
                     (Array 1 [1] [float8_quarter]))
                (quantile_double_array true)
                (Some <$> doubles_with_nan) ∅).1
     = Done (Some [float8_of_int 2])
  /\ float8_lt (float8_of_int 1) (float8_of_int 2) = true
  /\ ~ (exists sorted,
          ascending (fun x y => float8_lt y x = false) doubles_with_nan sorted
          /\ sorted !! 0%nat = Some (float8_of_int 2)).
Proof.
  split; [vm_compute; reflexivity|].
  split; [vm_compute; reflexivity|].
  split; [vm_compute; reflexivity|].
  split; [reflexivity|].
  intros (sorted & [Hp Hs] & H0).
  destruct sorted as [|x sorted]; [done|].
  simpl in H0. injection H0 as ->.
  apply StronglySorted_cons in Hs as [Hall _].
  rewrite Forall_forall in Hall.
  assert (Hin : float8_of_int 1 ∈ sorted).
  { assert (H1 : float8_of_int 1 ∈ float8_of_int 2 :: sorted).
    { rewrite Hp. unfold doubles_with_nan. set_solver. }
    apply elem_of_cons in H1 as [H1|H1]; [|done].
    vm_compute in H1. discriminate. }
  specialize (Hall _ Hin). vm_compute in Hall. discriminate.
Qed.

(** C1, amended.  On a non-empty buffer of [n] doubles none of which is a
    NaN, and for a probability [q] strictly between 0 and 1 requested at
    position [i], the array final function returns at position [i], and
    the scalar final function returns when [i] is 0, the entry at
    zero-based index [ceil(n*q) - 1] of the accumulated values in
    ascending numeric order.  The product is the double product of the
    source and the index lies within the buffer.  Every ascending
    arrangement of the values has at this index a value numerically equal
    to the one returned, and the very same value unless zeros of both signs
    were accumulated. *)
Theorem rank_inside_unit_interval
    m data (st : struct_T double_domain) vals qs (i : nat) q :
  m !! data = Some st -> holds st vals -> requests st qs -> vals <> [] ->
  forallb (fun x => negb (is_nan x)) vals = true ->
  qs !! i = Some q ->
  float8_lt float8_zero q = true -> float8_lt q float8_one = true ->
  exists c v res sorted,
    int_of_ceil (float8_mul (float8_of_int (Z.of_nat (length vals))) q) = Some c
    /\ 1 <= c <= Z.of_nat (length vals)
    /\ ascending float8_order vals sorted
    /\ sorted !! Z.to_nat (c - 1) = Some v
    /\ (forall sorted', ascending float8_order vals sorted' ->
          exists v', sorted' !! Z.to_nat (c - 1) = Some v'
            /\ float8_le v v' = true /\ float8_le v' v = true
            /\ (~ (S754_zero true ∈ vals /\ S754_zero false ∈ vals) -> v' = v))
    /\ (quantile_double_array true (Some data) m).1 = Done (Some res)
    /\ res !! i = Some v
    /\ (i = 0%nat -> (quantile_double true (Some data) m).1 = Done (Some v)).
Proof.
  intros Hm Hh Hr Hne Hnan Hq H0 H1.
  assert (HD : sized double_domain) by (unfold sized; simpl; lia).
  pose proof (holds_bounds double_domain HD st vals Hh) as [Hb1 Hb2].
  assert (Hlen : 1 <= Z.of_nat (length vals) <= INT_MAX).
  { destruct Hh as [Hn _ _ _]. destruct vals; [done|].
    simpl length in *. unfold INT_MAX. lia. }
  destruct (int_of_ceil_rank_bounds _ q Hlen
              (requests_valid_at double_domain st qs i q Hr Hq) H0 H1) as (c & Hc & Hcb).
  destruct (quantile_T_array_run double_domain HD "quantile_double_array"
              m data st vals qs Hm Hh Hr Hne) as (res & Hrun & Hlenres & Hres).
  assert (Hnr : nearest_rank (Z.of_nat (length vals)) q = Some (c - 1)).
  { unfold nearest_rank. by rewrite H0, H1, Hc. }
  destruct (Hres i q (c - 1) Hq Hnr) as [_ Hi].
  change (elt double_domain) with float8 in *.
  change (comparator double_domain) with double_comparator in *.
  destruct (lookup_lt_is_Some_2 (pg_qsort double_comparator vals) (Z.to_nat (c - 1)))
    as [v Hv]; [rewrite pg_qsort_length; lia|].
  pose proof (pg_qsort_ascending_doubles vals Hnan) as Hasc.
  exists c, v, res, (pg_qsort double_comparator vals).
  do 4 (split; [done|]). split; [|split; [|split]].
  - intros sorted' Hasc'.
    destruct (ascending_agree float8_order vals
                (fun x y => float8_order_total vals x y Hnan)
                (fun x y z => float8_order_trans vals x y z Hnan)
                _ sorted' _ v Hasc Hasc' Hv) as (v' & Hv' & Hle & Hge).
    exists v'. do 3 (split; [done|]). intros Hz.
    apply (float8_order_antisym vals); auto.
    + destruct Hasc' as [Hp _]. rewrite <- Hp. by eapply list_elem_of_lookup_2.
    + destruct Hasc as [Hp _]. rewrite <- Hp. by eapply list_elem_of_lookup_2.
  - unfold quantile_double_array. by rewrite Hrun.
  - by rewrite Hi.
  - intros ->.
    destruct (quantile_double_inside m data st vals qs q Hm Hh Hr Hne Hq H0 H1)
      as (c' & v' & Hc' & _ & Hv' & Hrun').
    rewrite Hrun'. change (elt double_domain) with float8 in *.
    assert (c' = c) as -> by congruence.
    simpl. congruence.
Qed.

Lemma rank_inside_unit_interval_witness :
  exists c v res sorted,
    int_of_ceil (float8_mul (float8_of_int (Z.of_nat (length sample_doubles)))
                   float8_half) = Some c
    /\ 1 <= c <= Z.of_nat (length sample_doubles)
    /\ ascending float8_order sample_doubles sorted
    /\ sorted !! Z.to_nat (c - 1) = Some v
    /\ (forall sorted', ascending float8_order sample_doubles sorted' ->
          exists v', sorted' !! Z.to_nat (c - 1) = Some v'
            /\ float8_le v v' = true /\ float8_le v' v = true
            /\ (~ (S754_zero true ∈ sample_doubles
                   /\ S754_zero false ∈ sample_doubles) -> v' = v))
    /\ (quantile_double_array true (Some 1%positive)
          (sample_memory [float8_half])).1 = Done (Some res)
    /\ res !! 0%nat = Some v
    /\ (0%nat = 0%nat ->
        (quantile_double true (Some 1%positive) (sample_memory [float8_half])).1
        = Done (Some v)).
Proof.
  apply (rank_inside_unit_interval (sample_memory [float8_half]) 1%positive
           (sample_struct [float8_half]) sample_doubles [float8_half] 0 float8_half).
  - apply lookup_singleton_eq.
  - apply struct_after_holds. vm_compute. discriminate.
  - split; [reflexivity|reflexivity|vm_compute; discriminate|reflexivity].
  - discriminate.
  - reflexivity.
  - reflexivity.
  - reflexivity.
  - reflexivity.
Defined.

(** C2.  The specification asks every final function to return the largest value
    for a probability of 1 or more.  The array functions do; the scalar
    ones do not.  Over the values
    10, 20, 30, 40: [quantile_double] with probability 1 returns 10, the
    smallest value; [quantile_int32] with probability 2 reads cell 7, which
    was never written; the array function returns 40 for probability 1 and
    10 for probability 0. *)
Theorem scalar_final_misses_upper_clamp :
  (quantile_double true (Some 1%positive) (sample_memory [float8_one])).1
    = Done (Some (float8_of_int 10))
  /\ (quantile_int32 true (Some 1%positive) (sample_memory_int32 [float8_two])).1
    = Undefined
  /\ (ceil_rank int32_domain 1%positive float8_two
        (sample_memory_int32 [float8_two])).1 = Done 7
  /\ (quantile_double_array true (Some 1%positive)
        (sample_memory [float8_one; float8_zero])).1
    = Done (Some [float8_of_int 40; float8_of_int 10]).
Proof. repeat split; vm_compute; reflexivity. Qed.

(** C3.  A state that was never created gives no result.  A group whose
    rows carried only NULL observations does have a state, created by its
    first call, with zero entries; on it the final functions compute index
    -1 for a probability inside (0,1) (scalar) or of 1 (array) and read
    outside the buffer, and read the unwritten cell 0 for probability 0. *)
Theorem empty_group_reads_outside_buffer :
  (forall m, (quantile_double true None m).1 = Done None)
  /\ (forall m, (quantile_double_array true None m).1 = Done None)
  /\ (exists data, (null_group_state float8_half ∅).1 = Done (Some data))
  /\ (aggregate (fun state element => quantile_append_double true state element float8_half)
                (quantile_double true) [None] ∅).1 = Undefined
  /\ (null_group_state float8_half ≫= fun state =>
        match state with
        | Some data => ceil_rank double_domain data float8_half
        | None => mret 0
        end) ∅ = (Done (-1), (null_group_state float8_half ∅).2)
  /\ (aggregate (fun state element =>
                   quantile_append_double_array true state element
                     (Array 1 [1] [float8_one]))
                (quantile_double_array true) [None] ∅).1 = Undefined
  /\ (aggregate (fun state element => quantile_append_double true state element float8_zero)
                (quantile_double true) [None] ∅).1 = Undefined.
Proof.
  split; [done|]. split; [done|].
  split; [eexists; vm_compute; reflexivity|].
  repeat split; vm_compute; reflexivity.
Qed.

(** ** Runs of the transition functions from creation *)

Section RunFacts.
Context (D : domain) (HD : sized D).
Implicit Types (m : gmap ptr (struct_T D)) (st : struct_T D) (vals : list (elt D)).

Lemma fits_first_slab vals : length vals = 0%nat -> fits D (length vals).
Proof.
  intros ->. unfold fits, sized, MaxAllocSize in *. simpl. unfold SLICE_SIZE. lia.
Qed.

(** A run that starts with the creation call, for any transition function
    that creates the struct [struct_after nq qs []] and then goes on as
    [append_tail]. *)
Lemma run_append_created append nq qs r rows m :
  (forall data element m', append (Some data) element m' = append_tail D data element m') ->
  (forall element,
     append None element m
     = append_tail D (fresh (dom m)) element
         (<[fresh (dom m) := struct_after nq qs []]> m)) ->
  run_append append None (r :: rows) m =
  if elt_size D * capacity_after (length (omap id (r :: rows))) <=? MaxAllocSize
  then (Done (Some (fresh (dom m))),
        <[fresh (dom m) := struct_after nq qs (omap id (r :: rows))]> m)
  else (Raised alloc_error, (run_append append None (r :: rows) m).2).
Proof.
  intros Hex Hnew. set (p := fresh (dom m)).
  set (m0 := <[p := struct_after nq qs []]> m).
  assert (Hm0 : m0 !! p = Some (struct_after nq qs [])) by apply lookup_insert_eq.
  assert (Hrun := run_append_existing D HD append (r :: rows) [] nq qs p m0
                    (Hex p) Hm0 (fits_first_slab [] eq_refl)).
  rewrite app_nil_l in Hrun. cbn [run_append] in Hrun |- *.
  revert Hrun. mrun. rewrite (Hex p), (Hnew r). fold p m0.
  intros ->. destruct (_ <=? _); [|done].
  unfold m0. by rewrite insert_insert_eq.
Qed.

Lemma read_items_run (p : list float8) m :
  read_items D p (length p) m = (Done p, m).
Proof.
  induction p as [|x p IH]; [done|]. cbn [read_items length]. mrun. by rewrite IH.
Qed.

Lemma array_to_double_mem v m : (array_to_double D v m).2 = m.
Proof.
  unfold array_to_double, palloc.
  destruct (negb _); [done|]. destruct (_ =? 0); [done|].
  mrun. destruct (AllocSizeIsValid _); [|done].
  generalize (Z.to_nat (ArrayGetNItems (ARR_NDIM v) (ARR_DIMS v))).
  generalize (ARR_DATA v). intros p n.
  assert (H : (read_items D p n m).2 = m).
  { revert p. induction n as [|n IH]; intros p; [done|].
    destruct p as [|x p]; cbn [read_items]; mrun; [done|].
    specialize (IH p). by destruct (read_items D p n m) as [[?| |] ?]. }
  by destruct (read_items D p n m) as [[?| |] ?].
Qed.

(** The creation call of the array transition functions. *)
Lemma quantile_append_T_array_creation fname element v m :
  quantile_append_T_array D fname true None element v m =
  match array_to_double D v m with
  | (Done (qs, len), _) =>
      append_tail D (fresh (dom m)) element
        (<[fresh (dom m) := struct_after len qs []]> m)
  | (Raised msg, _) => (Raised msg, m)
  | (Undefined, _) => (Undefined, m)
  end.
Proof.
  destruct (first_slab_request D HD) as (Hs & Hv & Hn).
  pose proof (array_to_double_mem v m) as Hmem.
  unfold quantile_append_T_array, GET_AGG_CONTEXT, palloc_array, new_struct.
  rewrite Hs, Hv, Hn. mrun.
  destruct (array_to_double D v m) as [[[qs len]| |] m']; simpl in Hmem; by subst m'.
Qed.
End RunFacts.

(** A granted run of the scalar transition function from creation. *)
Lemma run_append_T_granted D fname q rows (m : gmap ptr (struct_T D)) :
  sized D -> rows <> [] -> fits D (length (omap id rows)) ->
  run_append (fun state element => quantile_append_T D fname true state element q)
             None rows m
  = (Done (Some (fresh (dom m))),
     <[fresh (dom m) := struct_after 1 (Some [q]) (omap id rows)]> m).
Proof.
  intros HD Hne Hf. destruct rows as [|r rows]; [done|].
  rewrite (run_append_created D HD _ 1 (Some [q]) r rows m).
  - by apply Z.leb_le in Hf as ->.
  - intros. apply quantile_append_T_existing.
  - intros. by apply quantile_append_T_creation.
Qed.



Lemma omap_id_Some {A} (l : list A) : omap id (Some <$> l) = l.
Proof. induction l as [|x l IH]; [done|]. csimpl. by rewrite IH. Qed.

(** More than one slab: 2000 observations end in a buffer of two slabs that
    holds all of them. *)
Example growth_keeps_values :
  let rows := Some <$> seqZ 0 2000 in
  exists st : struct_T int64_domain,
    run_append (fun state element =>
                  quantile_append_int64 true state element float8_half)
               None rows ∅
      = (Done (Some 1%positive), <[1%positive := st]> ∅)
    /\ next st = 2000 /\ nelements st = 2048
    /\ take 2000 (elements st) = Some <$> seqZ 0 2000.
Proof.
  intros rows.
  assert (Hrows : omap id rows = seqZ 0 2000) by apply omap_id_Some.
  assert (Hlen : length (seqZ 0 2000) = 2000%nat) by (by rewrite length_seqZ).
  exists (struct_after (D := int64_domain) 1 (Some [float8_half]) (seqZ 0 2000)).
  split; [|split; [|split]].
  - rewrite <- Hrows.
    apply (run_append_T_granted int64_domain "quantile_append_int64").
    + unfold sized. simpl. lia.
    + discriminate.
    + rewrite Hrows. vm_compute. discriminate.
  - cbn [struct_after next]. change (elt int64_domain) with Z. by rewrite Hlen.
  - cbn [struct_after nelements]. change (elt int64_domain) with Z.
    rewrite Hlen. by vm_compute.
  - cbn [struct_after elements]. rewrite <- Hlen at 1. apply buffer_of_take.
Qed.

(** C7.  A transition call on a struct that satisfies the invariant.  With
    a NULL observation nothing changes.  Otherwise the call either is
    refused by the allocator (only when the buffer is full and one more
    slab exceeds the limit), leaving the memory as it was, or returns the
    same pointer to a struct that satisfies the invariant with the new value
    appended: [next] grew by one and stays within the capacity, the capacity
    did not shrink, it grew by exactly [SLICE_SIZE] if the buffer was full and
    not at all otherwise, and the value sits in the cell [next] pointed to.
    The array variants run the same code. *)
Theorem append_keeps_invariant D fname fname' m data st vals element q v :
  sized D -> m !! data = Some st -> holds st vals ->
  quantile_append_T_array D fname' true (Some data) element v m
    = quantile_append_T D fname true (Some data) element q m
  /\ match element with
     | None => quantile_append_T D fname true (Some data) None q m = (Done data, m)
     | Some e =>
         (next st = nelements st
          /\ MaxAllocSize < elt_size D * (nelements st + SLICE_SIZE)
          /\ quantile_append_T D fname true (Some data) (Some e) q m
             = (Raised alloc_error, m))
         \/ exists st',
             quantile_append_T D fname true (Some data) (Some e) q m
               = (Done data, <[data := st']> m)
             /\ holds st' (vals ++ [e])
             /\ next st' = next st + 1
             /\ next st' <= nelements st'
             /\ nelements st <= nelements st'
             /\ (next st = nelements st -> nelements st' = nelements st + SLICE_SIZE)
             /\ (next st < nelements st -> nelements st' = nelements st)
             /\ elements st' !! Z.to_nat (next st) = Some (Some e)
     end.
Proof.
  intros HD Hm Hh. split; [done|].
  destruct element as [e|]; [|done].
  rewrite quantile_append_T_existing. unfold append_tail. mrun.
  rewrite (append_element_run D HD m data st vals e Hm Hh).
  pose proof (holds_bounds D HD st vals Hh) as [Hb1 Hb2].
  destruct (Z.leb_spec (elt_size D * grown st) MaxAllocSize) as [Hok|Hbad].
  - right. eexists. split; [reflexivity|].
    pose proof (grown_holds D st vals e Hh Hok) as Hh'.
    split; [done|]. destruct Hh as [Hn Hc Hr Ha].
    cbn [next nelements elements]. unfold grown, SLICE_SIZE in *.
    destruct (Z.ltb_spec (next st) (nelements st)) as [Hlt|Hge].
    + repeat split; try lia.
      rewrite Hn, Nat2Z.id, buffer_of_lookup by (rewrite length_app; simpl; lia).
      by rewrite list_lookup_middle.
    + repeat split; try lia.
      rewrite Hn, Nat2Z.id, buffer_of_lookup by (rewrite length_app; simpl; lia).
      by rewrite list_lookup_middle.
  - left. unfold grown, SLICE_SIZE in *. destruct Hh as [Hn Hc Hr Ha].
    destruct (Z.ltb_spec (next st) (nelements st)) as [Hlt|Hge]; [lia|].
    repeat split; try done; lia.
Qed.

Lemma append_keeps_invariant_witness :
  quantile_append_double_array true (Some 1%positive) (Some (float8_of_int 50))
      (Array 1 [1] [float8_half]) (sample_memory [float8_half])
    = quantile_append_double true (Some 1%positive) (Some (float8_of_int 50))
        float8_half (sample_memory [float8_half])
  /\ ((next (sample_struct [float8_half]) = nelements (sample_struct [float8_half])
       /\ MaxAllocSize < elt_size double_domain
                          * (nelements (sample_struct [float8_half]) + SLICE_SIZE)
       /\ quantile_append_double true (Some 1%positive) (Some (float8_of_int 50))
            float8_half (sample_memory [float8_half])
          = (Raised alloc_error, sample_memory [float8_half]))
      \/ exists st',
          quantile_append_double true (Some 1%positive) (Some (float8_of_int 50))
            float8_half (sample_memory [float8_half])
            = (Done 1%positive, <[1%positive := st']> (sample_memory [float8_half]))
          /\ holds st' (sample_doubles ++ [float8_of_int 50])
          /\ next st' = next (sample_struct [float8_half]) + 1
          /\ next st' <= nelements st'
          /\ nelements (sample_struct [float8_half]) <= nelements st'
          /\ (next (sample_struct [float8_half]) = nelements (sample_struct [float8_half]) ->
              nelements st' = nelements (sample_struct [float8_half]) + SLICE_SIZE)
          /\ (next (sample_struct [float8_half]) < nelements (sample_struct [float8_half]) ->
              nelements st' = nelements (sample_struct [float8_half]))
          /\ elements st' !! Z.to_nat (next (sample_struct [float8_half]))
             = Some (Some (float8_of_int 50))).
Proof.
  apply (append_keeps_invariant double_domain "quantile_append_double"
           "quantile_append_double_array" (sample_memory [float8_half]) 1%positive
           (sample_struct [float8_half]) sample_doubles (Some (float8_of_int 50))
           float8_half (Array 1 [1] [float8_half])).
  - unfold sized. simpl. lia.
  - apply lookup_singleton_eq.
  - apply struct_after_holds. vm_compute. discriminate.
Defined.

(** ** The request is read at creation only *)

Lemma append_element_frame D (m : gmap ptr (struct_T D)) data st e :
  m !! data = Some st ->
  exists st',
    (append_element D data e m).2 !! data = Some st'
    /\ quantiles st' = quantiles st /\ nquantiles st' = nquantiles st.
Proof.
  intros Hm. unfold append_element, repalloc. mrun.
  rewrite (load_run _ _ _ Hm). mrun.
  destruct (next st >? int_sub (nelements st) 1).
  - destruct (AllocSizeIsValid _); mrun; [|by exists st].
    unfold load. rewrite lookup_insert_eq.
    cbn [set_buffer next elements].
    destruct (_ && _); cbn [snd]; rewrite lookup_insert_eq; by eexists.
  - mrun. rewrite (load_run _ _ _ Hm). mrun.
    destruct (_ && _); cbn [snd]; [rewrite lookup_insert_eq|]; by eexists.
Qed.

Lemma append_tail_frame D (m : gmap ptr (struct_T D)) data st element :
  m !! data = Some st ->
  (exists st',
     (append_tail D data element m).2 !! data = Some st'
     /\ quantiles st' = quantiles st /\ nquantiles st' = nquantiles st)
  /\ (forall p, (append_tail D data element m).1 = Done p -> p = data).
Proof.
  intros Hm. unfold append_tail. destruct element as [e|]; mrun.
  - destruct (append_element_frame D m data st e Hm) as (st' & Hst' & Hq & Hn).
    destruct (append_element D data e m) as [[[]| |] m']; simpl in *;
      (split; [by exists st'|]); intros p Hp; congruence.
  - split; [by exists st|]. intros p Hp. simpl in Hp. congruence.
Qed.

(** C8.  A transition call that receives an existing state does not depend
    on the request passed with it, keeps the stored probabilities and their
    count as they were, whatever the outcome, and returns the pointer it was
    given. *)
Theorem request_read_at_creation_only
    D fname in_agg (m : gmap ptr (struct_T D)) data st element q q' v v' :
  m !! data = Some st ->
  quantile_append_T D fname in_agg (Some data) element q m
    = quantile_append_T D fname in_agg (Some data) element q' m
  /\ quantile_append_T_array D fname in_agg (Some data) element v m
    = quantile_append_T_array D fname in_agg (Some data) element v' m
  /\ (exists st',
        (quantile_append_T D fname in_agg (Some data) element q m).2 !! data = Some st'
        /\ quantiles st' = quantiles st /\ nquantiles st' = nquantiles st)
  /\ (exists st',
        (quantile_append_T_array D fname in_agg (Some data) element v m).2 !! data
          = Some st'
        /\ quantiles st' = quantiles st /\ nquantiles st' = nquantiles st)
  /\ (forall p, (quantile_append_T D fname in_agg (Some data) element q m).1 = Done p ->
        p = data)
  /\ (forall p,
        (quantile_append_T_array D fname in_agg (Some data) element v m).1 = Done p ->
        p = data).
Proof.
  intros Hm. destruct in_agg.
  - rewrite !quantile_append_T_existing, !quantile_append_T_array_existing.
    destruct (append_tail_frame D m data st element Hm) as [Hframe Hptr].
    by repeat split.
  - repeat split; try done; try (by exists st); intros p Hp; discriminate.
Qed.

Lemma request_read_at_creation_only_witness :
  quantile_append_double true (Some 1%positive) (Some (float8_of_int 50))
      float8_one (sample_memory [float8_half])
    = quantile_append_double true (Some 1%positive) (Some (float8_of_int 50))
        float8_zero (sample_memory [float8_half])
  /\ (exists st',
        (quantile_append_double_array true (Some 1%positive) (Some (float8_of_int 50))
           (Array 2 [1; 2] [float8_zero; float8_one])
           (sample_memory [float8_half])).2 !! 1%positive = Some st'
        /\ quantiles st' = Some [float8_half] /\ nquantiles st' = 1).
Proof.
  destruct (request_read_at_creation_only double_domain "quantile_append_double"
              true (sample_memory [float8_half]) 1%positive
              (sample_struct [float8_half]) (Some (float8_of_int 50))
              float8_one float8_zero
              (Array 2 [1; 2] [float8_zero; float8_one])
              (Array 1 [1] [float8_half]))
    as (H1 & _ & _ & H4 & _).
  - apply lookup_singleton_eq.
  - split; [exact H1|exact H4].
Defined.






(** C5.  The specification asks the array final function to select every
    value by its own probability.  The loop of the source tests [q > 0 && q < 1],
    [q <= 0] and [q >= 1] and has no final [else], and [idx] is declared
    once before the loop: a NaN probability passes none of the tests, where
    the scalar function sends it to index 0, and the entry repeats the
    index of the previous iteration.  Over the values 10, 20, 30, 40 the
    request (1, NaN) returns (40, 40) and the request (0, NaN) returns
    (10, 10), so no rule applied to each probability on its own gives the
    values returned. *)
Lemma nan_probability_keeps_previous_index :
  nearest_rank 4 S754_nan = None
  /\ (quantile_double_array true (Some 1%positive)
        (sample_memory [float8_one; S754_nan])).1
     = Done (Some [float8_of_int 40; float8_of_int 40])
  /\ (quantile_double_array true (Some 1%positive)
        (sample_memory [float8_zero; S754_nan])).1
     = Done (Some [float8_of_int 10; float8_of_int 10])
  /\ ~ (exists select : float8 -> option float8,
          forall qs res (i : nat) q,
            (quantile_double_array true (Some 1%positive) (sample_memory qs)).1
              = Done (Some res) ->
            qs !! i = Some q -> res !! i = select q).
Proof.
  assert (H1 : (quantile_double_array true (Some 1%positive)
                  (sample_memory [float8_one; S754_nan])).1
               = Done (Some [float8_of_int 40; float8_of_int 40]))
    by (vm_compute; reflexivity).
  assert (H0 : (quantile_double_array true (Some 1%positive)
                  (sample_memory [float8_zero; S754_nan])).1
               = Done (Some [float8_of_int 10; float8_of_int 10]))
    by (vm_compute; reflexivity).
  split; [reflexivity|]. split; [exact H1|]. split; [exact H0|].
  intros [select Hsel].
  pose proof (Hsel _ _ 1%nat S754_nan H1 eq_refl) as Ha.
  pose proof (Hsel _ _ 1%nat S754_nan H0 eq_refl) as Hb.
  simpl in Ha, Hb. rewrite <- Ha in Hb. vm_compute in Hb. discriminate.
Qed.

(** On a non-empty buffer whose values the comparator orders, the array
    final function returns exactly one value per requested probability, in
    the order of the request, all read from one ascending arrangement of
    the accumulated values: for every probability that is not a NaN the
    value at its position is the entry at the index the nearest-rank rule
    gives for that probability alone, [ceil(n*q) - 1] inside (0,1), 0 at or
    below 0, [n - 1] at or above 1. *)
Theorem array_ranks_by_rule D fname m data (st : struct_T D) vals qs :
  sized D -> m !! data = Some st -> holds st vals -> requests st qs -> vals <> [] ->
  ordersb (comparator D) vals = true ->
  exists res sorted,
    (quantile_T_array D fname true (Some data) m).1 = Done (Some res)
    /\ length res = length qs
    /\ ascending (cmp_le (comparator D)) vals sorted
    /\ forall (i : nat) q, qs !! i = Some q -> is_nan q = false ->
         exists idx,
           nearest_rank (Z.of_nat (length vals)) q = Some idx
           /\ 0 <= idx < Z.of_nat (length vals)
           /\ res !! i = sorted !! Z.to_nat idx.
Proof.
  intros HD Hm Hh Hr Hne Hord.
  destruct (quantile_T_array_run D HD fname m data st vals qs Hm Hh Hr Hne)
    as (res & Hrun & Hlen & Hres).
  exists res, (pg_qsort (comparator D) vals).
  split; [by rewrite Hrun|]. split; [done|].
  split; [by apply pg_qsort_ascending|].
  intros i q Hq Hnan.
  pose proof (holds_bounds D HD st vals Hh) as [Hb1 Hb2].
  assert (Hn : 1 <= Z.of_nat (length vals) <= INT_MAX).
  { destruct Hh as [Hn _ _ _]. destruct vals; [done|].
    simpl length in *. unfold INT_MAX. lia. }
  destruct (nearest_rank_defined _ q Hn (requests_valid_at D st qs i q Hr Hq) Hnan)
    as (idx & Hidx & Hrange).
  destruct (Hres i q idx Hq Hidx) as [_ Hi].
  exists idx. by rewrite Hi.
Qed.

Lemma array_ranks_by_rule_witness :
  exists res sorted,
    (quantile_double_array true (Some 1%positive)
        (sample_memory [float8_quarter; float8_half; float8_one])).1
      = Done (Some res)
    /\ length res = length [float8_quarter; float8_half; float8_one]
    /\ ascending (cmp_le double_comparator) sample_doubles sorted
    /\ forall (i : nat) q,
         [float8_quarter; float8_half; float8_one] !! i = Some q ->
         is_nan q = false ->
         exists idx,
           nearest_rank (Z.of_nat (length sample_doubles)) q = Some idx
           /\ 0 <= idx < Z.of_nat (length sample_doubles)
           /\ res !! i = sorted !! Z.to_nat idx.
Proof.
  apply (array_ranks_by_rule double_domain "quantile_double_array"
           (sample_memory [float8_quarter; float8_half; float8_one]) 1%positive
           (sample_struct [float8_quarter; float8_half; float8_one])
           sample_doubles [float8_quarter; float8_half; float8_one]).
  - unfold sized. simpl. lia.
  - apply lookup_singleton_eq.
  - apply struct_after_holds. vm_compute. discriminate.
  - split; [reflexivity|reflexivity|vm_compute; discriminate|reflexivity].
  - discriminate.
  - reflexivity.
Defined.

(** The request (0.25, 0.5, 0.75) over four values, as in the
    specification's example. *)
Example three_quantiles_of_four :
  (quantile_double_array true (Some 1%positive)
     (sample_memory [float8_quarter; float8_half;
                     S754_finite false 6755399441055744 (-53)])).1
  = Done (Some [float8_of_int 10; float8_of_int 20; float8_of_int 30]).
Proof. vm_compute. reflexivity. Qed.

(** ** Arrival order *)

Section ArrivalFacts.
Context (D : domain) (HD : sized D).
Implicit Types (m : gmap ptr (struct_T D)) (st : struct_T D) (vals : list (elt D)).

(** The final functions sort first: what they return is decided by the
    memory [qsort] leaves. *)
Lemma quantile_T_sorted_memory fname data m1 m2 st1 st2 vals1 vals2 :
  m1 !! data = Some st1 -> m2 !! data = Some st2 ->
  holds st1 vals1 -> holds st2 vals2 ->
  <[data := sorted_struct st1 vals1]> m1 = <[data := sorted_struct st2 vals2]> m2 ->
  quantile_T D fname true (Some data) m1 = quantile_T D fname true (Some data) m2.
Proof.
  intros Hm1 Hm2 Hh1 Hh2 Heq. unfold quantile_T, CHECK_AGG_CONTEXT. mrun.
  rewrite (qsort_elements_run D HD m1 data st1 vals1 Hm1 Hh1).
  rewrite (qsort_elements_run D HD m2 data st2 vals2 Hm2 Hh2).
  by rewrite Heq.
Qed.

Lemma quantile_T_array_sorted_memory fname data m1 m2 st1 st2 vals1 vals2 :
  m1 !! data = Some st1 -> m2 !! data = Some st2 ->
  holds st1 vals1 -> holds st2 vals2 -> nquantiles st1 = nquantiles st2 ->
  <[data := sorted_struct st1 vals1]> m1 = <[data := sorted_struct st2 vals2]> m2 ->
  (quantile_T_array D fname true (Some data) m1).1
  = (quantile_T_array D fname true (Some data) m2).1.
Proof.
  intros Hm1 Hm2 Hh1 Hh2 Hnq Heq.
  unfold quantile_T_array, CHECK_AGG_CONTEXT, palloc. mrun.
  rewrite (load_run _ _ _ Hm1), (load_run _ _ _ Hm2). mrun. rewrite Hnq.
  destruct (AllocSizeIsValid _); mrun; [|done].
  rewrite (qsort_elements_run D HD m1 data st1 vals1 Hm1 Hh1).
  rewrite (qsort_elements_run D HD m2 data st2 vals2 Hm2 Hh2).
  by rewrite Heq.
Qed.


End ArrivalFacts.




(** * Further properties *)

(** The scalar final function of the double domain sends every probability
    outside (0,1), those of 1 and more and NaN included, to index 0 of the
    sorted buffer: it returns one of the accumulated values, and where none
    of them is a NaN the value returned is the minimum, no value being
    numerically below it. *)
Theorem scalar_double_outside_unit_interval
    m data (st : struct_T double_domain) vals qs q :
  m !! data = Some st -> holds st vals -> requests st qs -> vals <> [] ->
  qs !! 0%nat = Some q ->
  float8_lt float8_zero q && float8_lt q float8_one = false ->
  exists v,
    (quantile_double true (Some data) m).1 = Done (Some v)
    /\ v ∈ vals
    /\ (forallb (fun x => negb (is_nan x)) vals = true ->
        forall x, x ∈ vals -> float8_le v x = true).
Proof.
  intros Hm Hh Hr Hne Hq Hout.
  destruct (quantile_double_outside m data st vals qs q Hm Hh Hr Hne Hq Hout)
    as (v & Hv & Hrun).
  exists v. split; [by rewrite Hrun|].
  split.
  { rewrite <- (pg_qsort_Permutation double_comparator vals).
    by eapply list_elem_of_lookup_2. }
  intros Hnan x Hx.
  apply (ascending_least float8_order vals
           (fun x y => float8_order_total vals x y Hnan)
           (pg_qsort double_comparator vals) v x); auto.
  by apply pg_qsort_ascending_doubles.
Qed.

Lemma scalar_double_outside_unit_interval_witness :
  exists v,
    (quantile_double true (Some 1%positive) (sample_memory [float8_two])).1
       = Done (Some v)
    /\ v ∈ sample_doubles
    /\ (forallb (fun x => negb (is_nan x)) sample_doubles = true ->
        forall x, x ∈ sample_doubles -> float8_le v x = true).
Proof.
  apply (scalar_double_outside_unit_interval (sample_memory [float8_two]) 1%positive
           (sample_struct [float8_two]) sample_doubles [float8_two] float8_two).
  - apply lookup_singleton_eq.
  - apply struct_after_holds. vm_compute. discriminate.
  - split; [reflexivity|reflexivity|vm_compute; discriminate|reflexivity].
  - discriminate.
  - reflexivity.
  - reflexivity.
Defined.

(** The rank of a probability strictly inside (0,1) over [n >= 1] entries,
    computed in doubles as the source does, lies in [1, n]. *)
Theorem rank_product_in_range n q :
  1 <= n <= INT_MAX -> valid_binary prec emax q = true ->
  float8_lt float8_zero q = true -> float8_lt q float8_one = true ->
  exists c, int_of_ceil (float8_mul (float8_of_int n) q) = Some c /\ 1 <= c <= n.
Proof. apply int_of_ceil_rank_bounds. Qed.

Lemma rank_product_in_range_witness :
  exists c,
    int_of_ceil (float8_mul (float8_of_int 10) float8_tenth) = Some c
    /\ 1 <= c <= 10.
Proof.
  apply (rank_product_in_range 10 float8_tenth).
  - unfold INT_MAX. lia.
  - reflexivity.
  - reflexivity.
  - reflexivity.
Defined.

(** The product is rounded before [ceil] is taken.  Ten times the double
    nearest 0.1 rounds to exactly 1, so the rank is 1 although the exact
    product lies above 1; a hundred times the double nearest 0.07 rounds to
    the double after 7, so the rank is 8. *)
Example double_product_is_rounded :
  int_of_ceil (float8_mul (float8_of_int 10) float8_tenth) = Some 1
  /\ exact_ceil_product 10 float8_tenth = Some 2
  /\ int_of_ceil (float8_mul (float8_of_int 100) float8_seven_hundredths) = Some 8
  /\ exact_ceil_product 100 float8_seven_hundredths = Some 8.
Proof. repeat split; vm_compute; reflexivity. Qed.

(** Doubles without a NaN: the comparator is the numeric order of the
    doubles, [x <= y] in C, and the sort returns the values in ascending
    numeric order. *)
Theorem doubles_without_nan_are_sorted (vals : list float8) :
  forallb (fun x => negb (is_nan x)) vals = true ->
  ordersb double_comparator vals = true
  /\ (forall x y, x ∈ vals -> y ∈ vals ->
        (double_comparator x y <= 0 <-> float8_le x y = true)
        /\ (double_comparator x y < 0 <-> float8_lt x y = true))
  /\ pg_qsort double_comparator vals ≡ₚ vals
  /\ StronglySorted (fun x y => float8_le x y = true) (pg_qsort double_comparator vals).
Proof.
  intros Hnan. pose proof (double_comparator_orders vals Hnan) as Hord.
  split; [done|]. split.
  { intros x y Hx Hy.
    pose proof (forallb_not_nan vals x Hnan Hx) as Hnx.
    pose proof (forallb_not_nan vals y Hnan Hy) as Hny.
    split; [by apply double_comparator_float8_le|].
    pose proof (double_comparator_float8_le y x Hny Hnx) as Hyx.
    unfold cmp_le, float8_order in Hyx.
    pose proof (float8_le_key y x Hny Hnx) as Hk.
    pose proof (float8_lt_key x y Hnx Hny) as Hl.
    pose proof (double_comparator_float8_le x y Hnx Hny) as Hxy.
    unfold cmp_le, float8_order in Hxy.
    unfold double_comparator in *.
    change (float8_gt x y) with (float8_lt y x) in *.
    change (float8_gt y x) with (float8_lt x y) in *.
    destruct (float8_lt x y) eqn:E1; destruct (float8_lt y x) eqn:E2;
      split; intros H; try done; try lia.
    exfalso. pose proof (float8_lt_key y x Hny Hnx) as Hl2.
    rewrite E2 in Hl2. destruct Hl as [Hl _]. destruct Hl2 as [Hl2 _].
    specialize (Hl eq_refl). specialize (Hl2 eq_refl).
    unfold lex_lt in Hl, Hl2. lia. }
  destruct (pg_qsort_ascending_doubles vals Hnan) as [Hp Hs]. done.
Qed.

Lemma doubles_without_nan_are_sorted_witness :
  ordersb double_comparator sample_doubles = true
  /\ (forall x y, x ∈ sample_doubles -> y ∈ sample_doubles ->
        (double_comparator x y <= 0 <-> float8_le x y = true)
        /\ (double_comparator x y < 0 <-> float8_lt x y = true))
  /\ pg_qsort double_comparator sample_doubles ≡ₚ sample_doubles
  /\ StronglySorted (fun x y => float8_le x y = true)
       (pg_qsort double_comparator sample_doubles).
Proof. apply (doubles_without_nan_are_sorted sample_doubles). reflexivity. Defined.

(** Integers: the sort returns any values in ascending order, and the
    comparator compares as equal only identical values. *)
Theorem integers_are_sorted (vals : list Z) :
  ordersb int32_comparator vals = true
  /\ separatesb int32_comparator vals = true
  /\ StronglySorted Z.le (pg_qsort int32_comparator vals)
  /\ pg_qsort int32_comparator vals ≡ₚ vals
  /\ pg_qsort int64_comparator vals = pg_qsort int32_comparator vals.
Proof.
  destruct (int32_comparator_orders vals) as [Hord Hsep].
  split; [done|]. split; [done|]. split; [|split; [apply pg_qsort_Permutation|done]].
  pose proof (pg_qsort_sorted int32_comparator vals Hord) as Hs.
  induction Hs as [|x l Hl IH Hx]; constructor; [done|].
  eapply Forall_impl; [exact Hx|]. intros y. by apply int32_comparator_le.
Qed.

(** * The sorting routine on sorted input *)

Section SortedInput.
Context {A : Type} (cmp : A -> A -> Z).

(** On a sorted array the routine changes nothing. *)
Lemma foldl_sift_sorted l : forall pre,
  StronglySorted (cmp_le cmp) (pre ++ l) ->
  foldl (fun r x => sift cmp x r) (reverse pre) l = reverse (pre ++ l).
Proof.
  induction l as [|x l IH]; intros pre Hs; simpl.
  { by rewrite app_nil_r. }
  assert (Hsift : sift cmp x (reverse pre) = reverse (pre ++ [x])).
  { rewrite reverse_app. simpl.
    destruct (reverse pre) as [|y r] eqn:Hrev; [done|]. simpl.
    assert (Hy : y ∈ pre).
    { apply elem_of_reverse. rewrite Hrev. left. }
    assert (Hle : cmp_le cmp y x).
    { apply (StronglySorted_app_1_elem_of _ pre (x :: l) y x Hs); [done|left]. }
    unfold cmp_le in Hle.
    destruct (Z.ltb_spec 0 (cmp y x)); [lia|done]. }
  rewrite Hsift, IH by (by rewrite <- app_assoc).
  by rewrite <- app_assoc.
Qed.

Lemma pg_qsort_sorted_id l :
  StronglySorted (cmp_le cmp) l -> pg_qsort cmp l = l.
Proof.
  intros Hs. unfold pg_qsort.
  change (@nil A) with (reverse (@nil A)).
  rewrite foldl_sift_sorted by done. simpl. apply reverse_involutive.
Qed.

Lemma pg_qsort_idemp l :
  ordersb cmp l = true -> pg_qsort cmp (pg_qsort cmp l) = pg_qsort cmp l.
Proof. intros H. by apply pg_qsort_sorted_id, pg_qsort_sorted. Qed.

Lemma ordersb_refl l x : ordersb cmp l = true -> x ∈ l -> cmp_le cmp x x.
Proof. intros H Hx. by destruct (ordersb_total cmp l x x H Hx Hx). Qed.

(** In a sorted arrangement an entry does not compare greater than any
    entry at a later position. *)
Lemma sorted_lookup_le l (i j : nat) x y :
  ordersb cmp l = true ->
  pg_qsort cmp l !! i = Some x -> pg_qsort cmp l !! j = Some y -> (i <= j)%nat ->
  cmp_le cmp x y.
Proof.
  intros Hord Hi Hj Hij.
  pose proof (pg_qsort_sorted cmp l Hord) as Hs.
  destruct (decide (i = j)) as [->|Hne].
  - assert (x = y) as -> by congruence.
    apply (ordersb_refl l); [done|].
    rewrite <- (pg_qsort_Permutation cmp l). by eapply list_elem_of_lookup_2.
  - revert Hs Hi Hj. generalize (pg_qsort cmp l). intros k Hs.
    revert i j Hij Hne. induction Hs as [|z k Hk IH Hz]; intros i j Hij Hne Hi Hj; [done|].
    destruct i as [|i]; destruct j as [|j]; try lia.
    + simpl in Hi, Hj. injection Hi as ->.
      rewrite Forall_forall in Hz. apply Hz. by eapply list_elem_of_lookup_2.
    + simpl in Hi, Hj. apply (IH i j); auto; lia.
Qed.
End SortedInput.

(** * What the final functions read and leave *)

(** ** What the final functions leave in memory *)

Section ReadOnly.
Context (D : domain).
Implicit Types (m : gmap ptr (struct_T D)).

Lemma bind_readonly {A B} (c : M D A) (k : A -> M D B) m :
  (c m).2 = m -> (forall a, (k a m).2 = m) -> ((c ≫= k) m).2 = m.
Proof.
  intros Hc Hk. rewrite bind_run.
  destruct (c m) as [[a| |] m']; simpl in Hc; subst m'; [apply Hk|done|done].
Qed.

Lemma load_mem p m : (load p m : outcome (struct_T D) * _).2 = m.
Proof. unfold load. by destruct (m !! p). Qed.

Lemma read_quantile_mem data i m : (read_quantile D data i m).2 = m.
Proof.
  unfold read_quantile. apply bind_readonly; [apply load_mem|]. intros st.
  destruct (quantiles st) as [qs|]; [|done]. by destruct (index qs i).
Qed.

Lemma read_element_mem data idx m : (read_element D data idx m).2 = m.
Proof.
  unfold read_element. apply bind_readonly; [apply load_mem|]. intros st.
  by destruct (index (elements st) idx) as [[?|]|].
Qed.

Lemma ceil_rank_mem data q m : (ceil_rank D data q m).2 = m.
Proof.
  unfold ceil_rank. apply bind_readonly; [apply load_mem|]. intros st.
  by destruct (int_of_ceil _).
Qed.

Lemma rank_index_mem data q idx m : (rank_index D data q idx m).2 = m.
Proof.
  unfold rank_index.
  destruct (_ && _); [apply ceil_rank_mem|].
  destruct (float8_le q float8_zero); [done|].
  destruct (float8_ge q float8_one); [|done].
  apply bind_readonly; [apply load_mem|done].
Qed.

Lemma rank_loop_mem data count : forall i idx m,
  (rank_loop D data count i idx m).2 = m.
Proof.
  induction count as [|count IH]; intros i idx m; [done|].
  cbn [rank_loop].
  apply bind_readonly; [apply read_quantile_mem|]. intros q.
  apply bind_readonly; [apply rank_index_mem|]. intros idx'.
  apply bind_readonly; [apply read_element_mem|]. intros v.
  apply bind_readonly; [apply IH|done].
Qed.
End ReadOnly.

Section FinalMemory.
Context (D : domain) (HD : sized D).
Implicit Types (m : gmap ptr (struct_T D)) (st : struct_T D) (vals : list (elt D)).

(** After sorting, the final functions only read. *)
Lemma quantile_T_memory fname m data st vals :
  m !! data = Some st -> holds st vals ->
  (quantile_T D fname true (Some data) m).2 = <[data := sorted_struct st vals]> m.
Proof.
  intros Hm Hh. unfold quantile_T, CHECK_AGG_CONTEXT.
  rewrite bind_run, ret_run, bind_run.
  rewrite (qsort_elements_run D HD m data st vals Hm Hh).
  apply bind_readonly; [apply read_quantile_mem|]. intros q.
  apply bind_readonly.
  { destruct (float8_gt q float8_zero); [apply ceil_rank_mem|done]. }
  intros idx. apply bind_readonly; [apply read_element_mem|done].
Qed.

Lemma quantile_T_array_memory fname m data st vals qs :
  m !! data = Some st -> holds st vals -> requests st qs ->
  (quantile_T_array D fname true (Some data) m).2 = <[data := sorted_struct st vals]> m.
Proof.
  intros Hm Hh Hr. unfold quantile_T_array, CHECK_AGG_CONTEXT, palloc.
  rewrite bind_run, ret_run, bind_run, (load_run _ _ _ Hm).
  rewrite (result_request D HD st qs Hr).
  rewrite bind_run, ret_run, bind_run.
  rewrite (qsort_elements_run D HD m data st vals Hm Hh).
  apply bind_readonly; [apply rank_loop_mem|done].
Qed.
End FinalMemory.

Lemma quantile_double_memory m data (st : struct_T double_domain) vals qs :
  m !! data = Some st -> holds st vals -> requests st qs ->
  (quantile_double true (Some data) m).2 = <[data := sorted_struct st vals]> m.
Proof.
  intros Hm Hh Hr.
  assert (HD : sized double_domain) by (unfold sized; simpl; lia).
  unfold quantile_double, CHECK_AGG_CONTEXT, palloc.
  rewrite bind_run, ret_run, bind_run, (load_run _ _ _ Hm).
  pose proof (result_request double_domain HD st qs Hr) as Halloc.
  change (elt_size double_domain) with 8 in Halloc. rewrite Halloc.
  rewrite bind_run, ret_run, bind_run.
  rewrite (qsort_elements_run double_domain HD m data st vals Hm Hh).
  apply bind_readonly; [apply read_quantile_mem|]. intros q.
  apply bind_readonly.
  { destruct (_ && _); [apply ceil_rank_mem|done]. }
  intros idx. apply bind_readonly; [apply read_element_mem|done].
Qed.

(** The struct [qsort] leaves, sorted once more, is itself. *)
Lemma sorted_struct_idemp {D} (st : struct_T D) vals :
  ordersb (comparator D) vals = true ->
  sorted_struct (sorted_struct st vals) (pg_qsort (comparator D) vals)
  = sorted_struct st vals.
Proof.
  intros Hord. unfold sorted_struct. cbn [nquantiles nelements next quantiles].
  by rewrite pg_qsort_idemp.
Qed.

(** ** Probabilities at and beyond the ends of the unit interval *)

Lemma float8_le_zero_cases q :
  float8_le q float8_zero = true -> float8_lt float8_zero q = false.
Proof.
  unfold float8_lt, float8_le, float8_zero, SFltb, SFleb.
  destruct q as [s|s| |s m e]; cbn [SFcompare]; try done; by destruct s.
Qed.

Lemma float8_ge_one_cases q :
  float8_le float8_one q = true ->
  float8_lt float8_zero q = true /\ float8_lt q float8_one = false
  /\ float8_le q float8_zero = false.
Proof.
  unfold float8_lt, float8_le, float8_zero, float8_one, SFltb, SFleb.
  destruct q as [s|s| |s m e]; cbn [SFcompare]; try done; destruct s; try done.
  rewrite (Z.compare_antisym e (-52)).
  destruct (Z.compare_spec e (-52)); cbn [CompOpp]; try done.
  rewrite !Pos.compare_cont_spec, (Pos.compare_antisym m 4503599627370496).
  destruct (Pos.compare_spec m 4503599627370496); cbn [CompOpp Pos.switch_Eq]; done.
Qed.

Lemma nearest_rank_low n q :
  float8_le q float8_zero = true -> nearest_rank n q = Some 0.
Proof.
  intros H. unfold nearest_rank. by rewrite (float8_le_zero_cases q H), H.
Qed.

Lemma nearest_rank_high n q :
  float8_le float8_one q = true -> nearest_rank n q = Some (n - 1).
Proof.
  intros H. destruct (float8_ge_one_cases q H) as (H0 & H1 & H2).
  unfold nearest_rank. by rewrite H0, H1, H2, H.
Qed.

Lemma nearest_rank_nan n : nearest_rank n S754_nan = None.
Proof. reflexivity. Qed.

(** ** The ends and the ranks of the sorted buffer *)

Section SortedEnds.
Context {A : Type} (cmp : A -> A -> Z).

Lemma pg_qsort_elem_of l x : x ∈ pg_qsort cmp l <-> x ∈ l.
Proof. by rewrite pg_qsort_Permutation. Qed.

Lemma pg_qsort_lookup_elem_of l (i : nat) x :
  pg_qsort cmp l !! i = Some x -> x ∈ l.
Proof. intros H. apply pg_qsort_elem_of. by eapply list_elem_of_lookup_2. Qed.

(** The first entry does not compare greater than any value, and no value
    compares greater than the last. *)
Lemma sorted_ends l lo hi x :
  ordersb cmp l = true ->
  pg_qsort cmp l !! 0%nat = Some lo ->
  pg_qsort cmp l !! (length l - 1)%nat = Some hi ->
  x ∈ l -> cmp_le cmp lo x /\ cmp_le cmp x hi.
Proof.
  intros Hord Hlo Hhi Hx.
  apply (pg_qsort_elem_of l) in Hx. apply list_elem_of_lookup in Hx as [i Hi].
  pose proof (lookup_lt_Some _ _ _ Hi) as Hlt. rewrite pg_qsort_length in Hlt.
  split.
  - apply (sorted_lookup_le cmp l 0 i); auto. lia.
  - apply (sorted_lookup_le cmp l i (length l - 1)); auto. lia.
Qed.

(** The entry at position [i] of the sorted buffer has at least [i + 1]
    values at or below it and at least [n - i] values at or above it. *)
Lemma sorted_rank_counts l (i : nat) v :
  ordersb cmp l = true -> pg_qsort cmp l !! i = Some v ->
  (i + 1 <= length (filter (fun x => (cmp x v <= 0)%Z) l))%nat
  /\ (length l - i <= length (filter (fun x => (cmp v x <= 0)%Z) l))%nat.
Proof.
  intros Hord Hi.
  pose proof (lookup_lt_Some _ _ _ Hi) as Hlt.
  pose proof (pg_qsort_length cmp l) as Hlen.
  split.
  - rewrite <- (pg_qsort_Permutation cmp l) at 1.
    rewrite <- (take_drop (i + 1) (pg_qsort cmp l)), filter_app, length_app.
    assert (Hall : filter (fun x => cmp x v <= 0) (take (i + 1) (pg_qsort cmp l))
                   = take (i + 1) (pg_qsort cmp l)).
    { apply filter_all, Forall_forall. intros x Hx.
      apply list_elem_of_lookup in Hx as [j Hj].
      apply lookup_take_Some in Hj as [Hj Hji].
      apply (sorted_lookup_le cmp l j i); auto. lia. }
    rewrite Hall, length_take. lia.
  - rewrite <- (pg_qsort_Permutation cmp l) at 2.
    rewrite <- (take_drop i (pg_qsort cmp l)), filter_app, length_app.
    assert (Hall : filter (fun x => cmp v x <= 0) (drop i (pg_qsort cmp l))
                   = drop i (pg_qsort cmp l)).
    { apply filter_all, Forall_forall. intros x Hx.
      apply list_elem_of_lookup in Hx as [j Hj].
      rewrite lookup_drop in Hj.
      apply (sorted_lookup_le cmp l i (i + j)); auto. lia. }
    rewrite Hall, length_drop. lia.
Qed.
End SortedEnds.

Section FinalIndices.
Context (D : domain) (HD : sized D).
Implicit Types (m : gmap ptr (struct_T D)) (st : struct_T D) (vals : list (elt D)).

(** The ranking loop reads the buffer at the indices [kept_indices] lists,
    all of them within the values held. *)
Lemma rank_loop_indices m data st vals qs :
  m !! data = Some st -> holds st vals -> requests st qs -> vals <> [] ->
  forall rest (i : nat) idx,
    drop i qs = rest -> 0 <= idx < Z.of_nat (length vals) ->
    exists res,
      rank_loop D data (length rest) (Z.of_nat i) idx m = (Done res, m)
      /\ Forall2 (fun v ix => 0 <= ix < Z.of_nat (length vals)
                              /\ vals !! Z.to_nat ix = Some v)
           res (kept_indices (Z.of_nat (length vals)) idx rest).
Proof.
  intros Hm Hh Hr Hne. induction rest as [|q rest IH]; intros i idx Hdrop Hidx.
  { exists []. by split; [|constructor]. }
  assert (Hq : qs !! i = Some q).
  { pose proof (lookup_drop qs i 0) as H. rewrite Hdrop, Nat.add_0_r in H.
    by rewrite <- H. }
  assert (Hv : valid_binary prec emax q = true) by (by eapply requests_valid_at).
  destruct (rank_index_run D HD m data st vals q idx Hm Hh Hne Hv Hidx)
    as (idx1 & Hrun & Hb & Hdef).
  destruct (lookup_lt_is_Some_2 vals (Z.to_nat idx1)) as [v Hval]; [lia|].
  destruct (IH (S i) idx1) as (res & Hloop & Hres).
  { replace (S i) with (i + 1)%nat by lia. by rewrite <- drop_drop, Hdrop. }
  { done. }
  exists (v :: res). split.
  - cbn [rank_loop length]. mrun.
    rewrite (read_quantile_run D m data st qs i q Hm Hr Hq). mrun.
    rewrite Hrun. mrun.
    rewrite (read_element_run D m data st vals idx1 v Hm Hh) by (done || lia). mrun.
    replace (Z.of_nat i + 1) with (Z.of_nat (S i)) by lia.
    by rewrite Hloop.
  - cbn [kept_indices]. rewrite <- Hdef. by constructor.
Qed.

(** The array final function on a non-empty buffer, for any request. *)
Lemma quantile_T_array_indices fname m data st vals qs :
  m !! data = Some st -> holds st vals -> requests st qs -> vals <> [] ->
  exists res,
    quantile_T_array D fname true (Some data) m
      = (Done (Some res), <[data := sorted_struct st vals]> m)
    /\ Forall2 (fun v ix => 0 <= ix < Z.of_nat (length vals)
                            /\ pg_qsort (comparator D) vals !! Z.to_nat ix = Some v)
         res (kept_indices (Z.of_nat (length vals)) 0 qs).
Proof.
  intros Hm Hh Hr Hne.
  set (m1 := <[data := sorted_struct st vals]> m).
  assert (Hm1 : m1 !! data = Some (sorted_struct st vals)) by apply lookup_insert_eq.
  assert (Hne1 : pg_qsort (comparator D) vals <> []).
  { intros Heq. apply Hne, nil_length_inv.
    by rewrite <- (pg_qsort_length (comparator D)), Heq. }
  assert (Hpos : 0 <= 0 < Z.of_nat (length (pg_qsort (comparator D) vals))).
  { rewrite pg_qsort_length. destruct vals; [done|]. simpl. lia. }
  destruct (rank_loop_indices m1 data _ _ qs Hm1 (sorted_struct_holds D st vals Hh)
              (sorted_struct_requests D st vals qs Hr) Hne1 qs 0%nat 0 eq_refl Hpos)
    as (res & Hloop & Hres).
  rewrite pg_qsort_length in Hres.
  exists res. split; [|done].
  unfold quantile_T_array, CHECK_AGG_CONTEXT, palloc. mrun.
  rewrite (load_run _ _ _ Hm). mrun.
  rewrite (result_request D HD st qs Hr).
  rewrite (qsort_elements_run D HD m data st vals Hm Hh).
  destruct Hr as [_ Hq _ _]. rewrite Hq, Nat2Z.id.
  change (Z.of_nat 0) with 0 in Hloop. fold m1. by rewrite Hloop.
Qed.

(** The scalar final functions of the integer and numeric domains, for a
    probability above 0 whose rank falls inside the buffer. *)
Lemma quantile_T_ceil fname m data st vals qs q c :
  m !! data = Some st -> holds st vals -> requests st qs ->
  qs !! 0%nat = Some q -> float8_lt float8_zero q = true ->
  int_of_ceil (float8_mul (float8_of_int (Z.of_nat (length vals))) q) = Some c ->
  1 <= c <= Z.of_nat (length vals) ->
  exists v,
    pg_qsort (comparator D) vals !! Z.to_nat (c - 1) = Some v
    /\ quantile_T D fname true (Some data) m
       = (Done (Some v), <[data := sorted_struct st vals]> m).
Proof.
  intros Hm Hh Hr Hq H0 Hc Hcb.
  set (m1 := <[data := sorted_struct st vals]> m).
  assert (Hm1 : m1 !! data = Some (sorted_struct st vals)) by apply lookup_insert_eq.
  pose proof (sorted_struct_holds D st vals Hh) as Hh1.
  pose proof (sorted_struct_requests D st vals qs Hr) as Hr1.
  pose proof (holds_bounds D HD st vals Hh) as [Hb1 Hb2].
  destruct (lookup_lt_is_Some_2 (pg_qsort (comparator D) vals) (Z.to_nat (c - 1)))
    as [v Hv]; [rewrite pg_qsort_length; lia|].
  exists v. split; [done|].
  unfold quantile_T, CHECK_AGG_CONTEXT. mrun.
  rewrite (qsort_elements_run D HD m data st vals Hm Hh). fold m1.
  pose proof (read_quantile_run D m1 data _ qs 0 q Hm1 Hr1 Hq) as Hrq.
  change (Z.of_nat 0) with 0 in Hrq. rewrite Hrq. mrun.
  change (float8_gt q float8_zero) with (float8_lt float8_zero q). rewrite H0.
  unfold ceil_rank. mrun. rewrite (load_run _ _ _ Hm1). mrun.
  cbn [sorted_struct next]. destruct Hh as [Hn _ _ _]. rewrite Hn, Hc. mrun.
  unfold int_sub. rewrite int_wrap_small by (unfold INT_MIN, INT_MAX; lia).
  by rewrite (read_element_run D m1 data _ _ (c - 1) v Hm1 Hh1) by (done || lia).
Qed.

(** At or below 0, and for a NaN, they read the first sorted entry. *)
Lemma quantile_T_first fname m data st vals qs q :
  m !! data = Some st -> holds st vals -> requests st qs -> vals <> [] ->
  qs !! 0%nat = Some q -> float8_lt float8_zero q = false ->
  exists v,
    pg_qsort (comparator D) vals !! 0%nat = Some v
    /\ quantile_T D fname true (Some data) m
       = (Done (Some v), <[data := sorted_struct st vals]> m).
Proof.
  intros Hm Hh Hr Hne Hq H0.
  set (m1 := <[data := sorted_struct st vals]> m).
  assert (Hm1 : m1 !! data = Some (sorted_struct st vals)) by apply lookup_insert_eq.
  pose proof (sorted_struct_holds D st vals Hh) as Hh1.
  pose proof (sorted_struct_requests D st vals qs Hr) as Hr1.
  destruct (lookup_lt_is_Some_2 (pg_qsort (comparator D) vals) 0) as [v Hv].
  { rewrite pg_qsort_length. destruct vals; [done|]. simpl. lia. }
  exists v. split; [done|].
  unfold quantile_T, CHECK_AGG_CONTEXT. mrun.
  rewrite (qsort_elements_run D HD m data st vals Hm Hh). fold m1.
  pose proof (read_quantile_run D m1 data _ qs 0 q Hm1 Hr1 Hq) as Hrq.
  change (Z.of_nat 0) with 0 in Hrq. rewrite Hrq. mrun.
  change (float8_gt q float8_zero) with (float8_lt float8_zero q). rewrite H0. mrun.
  by rewrite (read_element_run D m1 data _ _ 0 v Hm1 Hh1) by (done || lia).
Qed.

(** ** A buffer without entries *)

Lemma read_element_unwritten m data st idx :
  m !! data = Some st -> holds st [] ->
  read_element D data idx m = (Undefined, m).
Proof.
  intros Hm [Hn Hc Hr Ha]. unfold read_element, index. mrun.
  rewrite (load_run _ _ _ Hm). mrun. rewrite Hc.
  destruct (idx <? 0); [done|].
  unfold buffer_of. simpl.
  destruct (replicate _ None !! Z.to_nat idx) as [cell|] eqn:Hcell; [|done].
  by apply lookup_replicate in Hcell as [-> _].
Qed.

Lemma ceil_rank_outcomes m data st q :
  m !! data = Some st ->
  (exists idx, ceil_rank D data q m = (Done idx, m))
  \/ ceil_rank D data q m = (Undefined, m).
Proof.
  intros Hm. unfold ceil_rank. mrun. rewrite (load_run _ _ _ Hm). mrun.
  destruct (int_of_ceil _); [left; by eexists|by right].
Qed.

Lemma rank_index_outcomes m data st q idx :
  m !! data = Some st ->
  (exists idx', rank_index D data q idx m = (Done idx', m))
  \/ rank_index D data q idx m = (Undefined, m).
Proof.
  intros Hm. unfold rank_index.
  destruct (_ && _); [by apply (ceil_rank_outcomes m data st)|].
  destruct (float8_le q float8_zero); [left; by eexists|].
  destruct (float8_ge q float8_one); [|left; by eexists].
  mrun. rewrite (load_run _ _ _ Hm). mrun. left. by eexists.
Qed.

Lemma quantile_T_unwritten fname m data st qs q :
  m !! data = Some st -> holds st [] -> requests st qs -> qs !! 0%nat = Some q ->
  quantile_T D fname true (Some data) m
  = (Undefined, <[data := sorted_struct st []]> m).
Proof.
  intros Hm Hh Hr Hq.
  set (m1 := <[data := sorted_struct st []]> m).
  assert (Hm1 : m1 !! data = Some (sorted_struct st [])) by apply lookup_insert_eq.
  pose proof (sorted_struct_holds D st [] Hh) as Hh1.
  pose proof (sorted_struct_requests D st [] qs Hr) as Hr1.
  unfold quantile_T, CHECK_AGG_CONTEXT. mrun.
  rewrite (qsort_elements_run D HD m data st [] Hm Hh). fold m1.
  pose proof (read_quantile_run D m1 data _ qs 0 q Hm1 Hr1 Hq) as Hrq.
  change (Z.of_nat 0) with 0 in Hrq. rewrite Hrq. mrun.
  destruct (float8_gt q float8_zero).
  - destruct (ceil_rank_outcomes m1 data _ q Hm1) as [[idx ->]| ->]; [|done].
    by rewrite (read_element_unwritten m1 data _ idx Hm1 Hh1).
  - mrun. by rewrite (read_element_unwritten m1 data _ 0 Hm1 Hh1).
Qed.

Lemma quantile_T_array_unwritten fname m data st qs :
  m !! data = Some st -> holds st [] -> requests st qs -> qs <> [] ->
  quantile_T_array D fname true (Some data) m
  = (Undefined, <[data := sorted_struct st []]> m).
Proof.
  intros Hm Hh Hr Hne.
  set (m1 := <[data := sorted_struct st []]> m).
  assert (Hm1 : m1 !! data = Some (sorted_struct st [])) by apply lookup_insert_eq.
  pose proof (sorted_struct_holds D st [] Hh) as Hh1.
  pose proof (sorted_struct_requests D st [] qs Hr) as Hr1.
  unfold quantile_T_array, CHECK_AGG_CONTEXT, palloc. mrun.
  rewrite (load_run _ _ _ Hm). mrun.
  rewrite (result_request D HD st qs Hr).
  rewrite (qsort_elements_run D HD m data st [] Hm Hh). fold m1.
  destruct Hr as [_ Hnq _ _]. rewrite Hnq, Nat2Z.id.
  destruct qs as [|q qs]; [done|].
  cbn [length rank_loop]. mrun.
  pose proof (read_quantile_run D m1 data _ (q :: qs) 0 q Hm1 Hr1 eq_refl) as Hrq.
  change (Z.of_nat 0) with 0 in Hrq. rewrite Hrq.
  destruct (rank_index_outcomes m1 data _ q 0 Hm1) as [[idx ->]| ->]; [|done].
  by rewrite (read_element_unwritten m1 data _ idx Hm1 Hh1).
Qed.
End FinalIndices.

(** What [kept_indices] lists at a position: the index of the rule, or the
    previous index for a NaN. *)
Lemma kept_indices_length n idx qs : length (kept_indices n idx qs) = length qs.
Proof. revert idx. induction qs as [|q qs IH]; intros idx; simpl; [done|]. by rewrite IH. Qed.

Lemma kept_indices_lookup n qs : forall idx (i : nat) q,
  qs !! i = Some q ->
  kept_indices n idx qs !! i
  = Some (default (match i with
                   | O => idx
                   | S i' => default 0 (kept_indices n idx qs !! i')
                   end) (nearest_rank n q)).
Proof.
  induction qs as [|q0 qs IH]; intros idx i q Hq; [done|].
  destruct i as [|i]; simpl in Hq.
  { by injection Hq as ->. }
  cbn [kept_indices]. simpl lookup at 1.
  rewrite (IH _ i q Hq). do 2 f_equal.
  destruct i as [|i]; [done|].
  simpl lookup at 2. done.
Qed.

(** * Runs and requests in closed form *)

(** ** Capacity in closed form *)

Lemma capacity_after_slabs k : capacity_after k = slabs_for (Z.of_nat k).
Proof.
  unfold slabs_for, SLICE_SIZE.
  induction k as [|k IH]; [reflexivity|].
  cbn [capacity_after]. rewrite IH. unfold SLICE_SIZE.
  rewrite Nat2Z.inj_succ.
  destruct (Z.gtb_spec (Z.of_nat k)
              (1024 * Z.max 1 ((Z.of_nat k + 1024 - 1) / 1024) - 1)) as [Hfull|Hroom].
  - Z.div_mod_to_equations. lia.
  - Z.div_mod_to_equations. lia.
Qed.

Lemma fits_limit D k :
  sized D -> fits D k <-> Z.of_nat k <= group_limit D.
Proof.
  intros HD. unfold fits, group_limit. rewrite capacity_after_slabs.
  unfold slabs_for, sized, MaxAllocSize, SLICE_SIZE in *.
  assert (HE : elt_size D = 1 \/ elt_size D = 2 \/ elt_size D = 3 \/ elt_size D = 4
               \/ elt_size D = 5 \/ elt_size D = 6 \/ elt_size D = 7 \/ elt_size D = 8)
    by lia.
  destruct HE as [-> |[-> |[-> |[-> |[-> |[-> |[-> | ->]]]]]]];
    Z.div_mod_to_equations; lia.
Qed.

(** ** Runs from creation, in closed form *)

Section RunOutcome.
Context (D : domain) (HD : sized D).
Implicit Types (m : gmap ptr (struct_T D)).

Lemma run_append_limit append nq qs rows m :
  (forall data element m', append (Some data) element m' = append_tail D data element m') ->
  (forall element,
     append None element m
     = append_tail D (fresh (dom m)) element
         (<[fresh (dom m) := struct_after nq qs []]> m)) ->
  rows <> [] ->
  (run_append append None rows m).1 =
  if Z.of_nat (length (omap id rows)) <=? group_limit D
  then Done (Some (fresh (dom m))) else Raised alloc_error.
Proof.
  intros Hex Hnew Hne. destruct rows as [|r rows]; [done|].
  rewrite (run_append_created D HD append nq qs r rows m Hex Hnew).
  pose proof (fits_limit D (length (omap id (r :: rows))) HD) as Hiff.
  unfold fits in Hiff.
  destruct (Z.leb_spec (elt_size D * capacity_after (length (omap id (r :: rows))))
              MaxAllocSize) as [H1|H1];
    destruct (Z.leb_spec (Z.of_nat (length (omap id (r :: rows)))) (group_limit D))
      as [H2|H2]; try done; lia.
Qed.
End RunOutcome.

(** What a whole run of the scalar transition function leaves, in closed
    form.  Up to [group_limit] observations the run succeeds, [next] counts
    the observations that were not NULL and the capacity is the least whole
    number of slabs that holds them (one slab at least), so fewer than one
    slab of cells is unused once an observation is in; beyond the limit
    the allocator's error ends the run. *)
Theorem append_run_outcome D fname q rows (m : gmap ptr (struct_T D)) :
  sized D -> rows <> [] ->
  (Z.of_nat (length (omap id rows)) <= group_limit D ->
   exists st,
     run_append (fun state element => quantile_append_T D fname true state element q)
                None rows m
       = (Done (Some (fresh (dom m))), <[fresh (dom m) := st]> m)
     /\ next st = Z.of_nat (length (omap id rows))
     /\ nelements st = slabs_for (Z.of_nat (length (omap id rows)))
     /\ nelements st mod SLICE_SIZE = 0
     /\ (1 <= next st -> nelements st - next st < SLICE_SIZE))
  /\ (group_limit D < Z.of_nat (length (omap id rows)) ->
      (run_append (fun state element => quantile_append_T D fname true state element q)
                  None rows m).1 = Raised alloc_error).
Proof.
  intros HD Hne. split.
  - intros Hk. apply (fits_limit D _ HD) in Hk.
    exists (struct_after 1 (Some [q]) (omap id rows)).
    split; [by apply run_append_T_granted|].
    cbn [struct_after next nelements]. rewrite capacity_after_slabs.
    split; [done|]. split; [done|].
    unfold slabs_for, SLICE_SIZE. split; Z.div_mod_to_equations; lia.
  - intros Hk.
    rewrite (run_append_limit D HD _ 1 (Some [q]) rows m);
      [|intros; apply quantile_append_T_existing
       |intros; by apply quantile_append_T_creation|done].
    destruct (Z.leb_spec (Z.of_nat (length (omap id rows))) (group_limit D)); [lia|done].
Qed.

Lemma append_run_outcome_witness :
  (Z.of_nat (length (omap id [Some 3; None; Some 1])) <= 268434432 ->
   exists st,
     run_append (fun state element =>
                   quantile_append_int32 true state element float8_half)
                None [Some 3; None; Some 1] ∅
       = (Done (Some (fresh (dom (∅ : gmap ptr (struct_T int32_domain))))),
          <[fresh (dom (∅ : gmap ptr (struct_T int32_domain))) := st]> ∅)
     /\ next st = Z.of_nat (length (omap id [Some 3; None; Some 1]))
     /\ nelements st = slabs_for (Z.of_nat (length (omap id [Some 3; None; Some 1])))
     /\ nelements st mod SLICE_SIZE = 0
     /\ (1 <= next st -> nelements st - next st < SLICE_SIZE))
  /\ (268434432 < Z.of_nat (length (omap id [Some 3; None; Some 1])) ->
      (run_append (fun state element =>
                     quantile_append_int32 true state element float8_half)
                  None [Some 3; None; Some 1] ∅).1 = Raised alloc_error).
Proof.
  apply (append_run_outcome int32_domain "quantile_append_int32" float8_half
           [Some 3; None; Some 1] ∅).
  - unfold sized. simpl. lia.
  - discriminate.
Defined.

(** ** One group never touches another *)

Section Isolation.
Context (D : domain).
Implicit Types (m : gmap ptr (struct_T D)).

Lemma append_element_other data e m p :
  p <> data -> (append_element D data e m).2 !! p = m !! p.
Proof.
  intros Hp. unfold append_element, repalloc, load. mrun.
  destruct (m !! data) as [st|] eqn:Hm; [|done].
  destruct (next st >? int_sub (nelements st) 1).
  - destruct (AllocSizeIsValid _); mrun; [|done].
    rewrite lookup_insert_eq.
    destruct (_ && _); cbn [snd]; by rewrite ?lookup_insert_ne.
  - mrun. rewrite Hm.
    destruct (_ && _); cbn [snd]; by rewrite ?lookup_insert_ne.
Qed.

Lemma append_tail_other data element m p :
  p <> data -> (append_tail D data element m).2 !! p = m !! p.
Proof.
  intros Hp. unfold append_tail. rewrite bind_run.
  destruct element as [e|]; [|done].
  pose proof (append_element_other data e m p Hp) as H.
  by destruct (append_element D data e m) as [[[]| |] m'].
Qed.
End Isolation.

(** A transition call changes no struct but the one of its group.  With an
    existing state every other pointer keeps its struct, in every outcome;
    a creation call allocates a pointer that was not in use and leaves
    every struct that was there as it was. *)
Theorem append_leaves_other_groups
    D fname in_agg data element q v (m : gmap ptr (struct_T D)) p :
  sized D ->
  (p <> data ->
   (quantile_append_T D fname in_agg (Some data) element q m).2 !! p = m !! p
   /\ (quantile_append_T_array D fname in_agg (Some data) element v m).2 !! p = m !! p)
  /\ (is_Some (m !! p) ->
      (quantile_append_T D fname in_agg None element q m).2 !! p = m !! p
      /\ (quantile_append_T_array D fname in_agg None element v m).2 !! p = m !! p
      /\ (forall data', (quantile_append_T D fname in_agg None element q m).1 = Done data' ->
            data' <> p)
      /\ (forall data',
            (quantile_append_T_array D fname in_agg None element v m).1 = Done data' ->
            data' <> p)).
Proof.
  intros HD. split.
  - intros Hp. destruct in_agg; [|done].
    rewrite quantile_append_T_existing, quantile_append_T_array_existing.
    split; by apply append_tail_other.
  - intros Hsome. destruct in_agg; [|done].
    assert (Hfresh : p <> fresh (dom m)).
    { intros ->. apply (is_fresh (dom m)). by apply elem_of_dom. }
    rewrite (quantile_append_T_creation D HD).
    rewrite (quantile_append_T_array_creation D HD).
    assert (Htail : forall nq qs,
      (append_tail D (fresh (dom m)) element
         (<[fresh (dom m) := struct_after nq qs []]> m)).2 !! p = m !! p).
    { intros nq qs. rewrite append_tail_other by done. by rewrite lookup_insert_ne. }
    assert (Hptr : forall nq qs data',
      (append_tail D (fresh (dom m)) element
         (<[fresh (dom m) := struct_after nq qs []]> m)).1 = Done data' -> data' <> p).
    { intros nq qs data'. unfold append_tail. rewrite bind_run.
      destruct element as [e|]; [|simpl; congruence].
      destruct (append_element D _ e _) as [[[]| |] m']; simpl; congruence. }
    split; [apply Htail|].
    destruct (array_to_double D v m) as [[[qs len]| |] m'].
    + split; [apply Htail|]. split; [apply Hptr|apply Hptr].
    + split; [done|]. split; [apply Hptr|done].
    + split; [done|]. split; [apply Hptr|done].
Qed.

Lemma append_leaves_other_groups_witness :
  (2%positive <> 1%positive ->
   (quantile_append_double true (Some 1%positive) (Some float8_one) float8_half
      (<[2%positive := sample_struct [float8_quarter]]> (sample_memory [float8_half]))).2
     !! 2%positive
   = (<[2%positive := sample_struct [float8_quarter]]> (sample_memory [float8_half]))
       !! 2%positive
   /\ (quantile_append_double_array true (Some 1%positive) (Some float8_one)
         (Array 1 [1] [float8_half])
         (<[2%positive := sample_struct [float8_quarter]]>
            (sample_memory [float8_half]))).2 !! 2%positive
      = (<[2%positive := sample_struct [float8_quarter]]> (sample_memory [float8_half]))
          !! 2%positive)
  /\ (is_Some ((<[2%positive := sample_struct [float8_quarter]]>
                  (sample_memory [float8_half])) !! 2%positive) ->
      (quantile_append_double true None (Some float8_one) float8_half
         (<[2%positive := sample_struct [float8_quarter]]>
            (sample_memory [float8_half]))).2 !! 2%positive
      = (<[2%positive := sample_struct [float8_quarter]]> (sample_memory [float8_half]))
          !! 2%positive
      /\ (quantile_append_double_array true None (Some float8_one)
            (Array 1 [1] [float8_half])
            (<[2%positive := sample_struct [float8_quarter]]>
               (sample_memory [float8_half]))).2 !! 2%positive
         = (<[2%positive := sample_struct [float8_quarter]]>
              (sample_memory [float8_half])) !! 2%positive
      /\ (forall data',
            (quantile_append_double true None (Some float8_one) float8_half
               (<[2%positive := sample_struct [float8_quarter]]>
                  (sample_memory [float8_half]))).1 = Done data' ->
            data' <> 2%positive)
      /\ (forall data',
            (quantile_append_double_array true None (Some float8_one)
               (Array 1 [1] [float8_half])
               (<[2%positive := sample_struct [float8_quarter]]>
                  (sample_memory [float8_half]))).1 = Done data' ->
            data' <> 2%positive)).
Proof.
  apply (append_leaves_other_groups double_domain "quantile_append_double" true
           1%positive (Some float8_one) float8_half (Array 1 [1] [float8_half])
           (<[2%positive := sample_struct [float8_quarter]]>
              (sample_memory [float8_half])) 2%positive).
  unfold sized. simpl. lia.
Defined.

(** ** The request array *)

Section RequestArray.
Context (D : domain) (HD : sized D).
Implicit Types (m : gmap ptr (struct_T D)).

Lemma read_items_take (p : list float8) (n : nat) m :
  (n <= length p)%nat -> read_items D p n m = (Done (take n p), m).
Proof.
  revert p. induction n as [|n IH]; intros p Hn; [done|].
  destruct p as [|x p]; [simpl in Hn; lia|].
  cbn [read_items take]. mrun. rewrite IH by (simpl in Hn; lia). done.
Qed.

Lemma read_items_short (p : list float8) (n : nat) m :
  (length p < n)%nat -> read_items D p n m = (Undefined, m).
Proof.
  revert p. induction n as [|n IH]; intros p Hn; [lia|].
  destruct p as [|x p]; [done|].
  cbn [read_items]. mrun. rewrite IH by (simpl in Hn; lia). done.
Qed.

(** A one-dimensional array of [n >= 1] items within the allocator's
    limit is read in full, in order. *)
Lemma array_to_double_items v m :
  ARR_NDIM v = 1 -> ARR_DIMS v = [Z.of_nat (length (ARR_DATA v))] ->
  ARR_DATA v <> [] -> 8 * Z.of_nat (length (ARR_DATA v)) <= MaxAllocSize ->
  array_to_double D v m
  = (Done (Some (ARR_DATA v), Z.of_nat (length (ARR_DATA v))), m).
Proof.
  intros Hdim Hdims Hne Hsize.
  assert (Hlen : 1 <= Z.of_nat (length (ARR_DATA v))).
  { destruct (ARR_DATA v); [done|simpl; lia]. }
  assert (Hitems : ArrayGetNItems 1 [Z.of_nat (length (ARR_DATA v))]
                   = Z.of_nat (length (ARR_DATA v))).
  { unfold ArrayGetNItems. change (1 <=? 0) with false.
    change (Z.to_nat 1) with 1%nat. cbn [take foldr]. lia. }
  unfold array_to_double, palloc. rewrite Hdim, Hdims, Hitems.
  change (negb (1 =? 1)) with false.
  destruct (Z.eqb_spec (Z.of_nat (length (ARR_DATA v))) 0) as [H0|_]; [lia|].
  unfold size_mul, size_t_of_int, MaxAllocSize in *.
  rewrite (Z.mod_small (Z.of_nat _)) by lia.
  rewrite Z.mod_small by lia.
  assert (Hok : AllocSizeIsValid (Z.of_nat (length (ARR_DATA v)) * 8) = true).
  { unfold AllocSizeIsValid, MaxAllocSize. apply andb_true_iff.
    split; apply Z.leb_le; lia. }
  rewrite Hok. mrun. rewrite Nat2Z.id, (read_items_run D). done.
Qed.
End RequestArray.

(** The creation call of the array transition functions stores the request
    as it is given: on a one-dimensional array of at least one item (and no
    more than the allocator grants) the new struct holds the items of the
    array, in order, counted by [nquantiles]; the buffer is one slab holding
    the observation of the call if there is one; the pointer returned was
    not in use. *)
Theorem request_array_round_trip D fname element v (m : gmap ptr (struct_T D)) :
  sized D -> ARR_NDIM v = 1 -> ARR_DIMS v = [Z.of_nat (length (ARR_DATA v))] ->
  ARR_DATA v <> [] -> 8 * Z.of_nat (length (ARR_DATA v)) <= MaxAllocSize ->
  exists data st,
    quantile_append_T_array D fname true None element v m
      = (Done data, <[data := st]> m)
    /\ m !! data = None
    /\ quantiles st = Some (ARR_DATA v)
    /\ nquantiles st = Z.of_nat (length (ARR_DATA v))
    /\ nelements st = SLICE_SIZE
    /\ holds st (option_list element)
    /\ (forallb (valid_binary prec emax) (ARR_DATA v) = true ->
        requests st (ARR_DATA v)).
Proof.
  intros HD Hdim Hdims Hne Hsize.
  set (p := fresh (dom m)).
  assert (Hfresh : m !! p = None).
  { apply not_elem_of_dom. apply is_fresh. }
  set (n := Z.of_nat (length (ARR_DATA v))).
  set (m0 := <[p := struct_after n (Some (ARR_DATA v)) []]> m).
  assert (Hm0 : m0 !! p = Some (struct_after n (Some (ARR_DATA v)) []))
    by apply lookup_insert_eq.
  assert (Hfit : fits D 1).
  { unfold fits, sized, MaxAllocSize in *. simpl. unfold SLICE_SIZE. lia. }
  exists p, (struct_after n (Some (ARR_DATA v)) (option_list element)).
  split; [|split; [done|]].
  - rewrite (quantile_append_T_array_creation D HD).
    rewrite (array_to_double_items D v m Hdim Hdims Hne Hsize). fold p n m0.
    rewrite (append_tail_run D HD n (Some (ARR_DATA v)) [] p element m0 Hm0)
      by (by apply fits_first_slab).
    destruct element as [e|]; [|done].
    assert (H1 : (elt_size D * capacity_after (S (length (@nil (elt D))))
                   <=? MaxAllocSize) = true) by (apply Z.leb_le; exact Hfit).
    rewrite H1. unfold m0. by rewrite insert_insert_eq.
  - do 2 (split; [done|]).
    split; [by destruct element|].
    split.
    + apply struct_after_holds.
      destruct element; [exact Hfit|]. apply (fits_le D 0 1); [done|lia|done].
    + intros Hvalid. by split.
Qed.

Lemma request_array_round_trip_witness :
  exists data st,
    quantile_append_int64_array true None (Some 7)
      (Array 1 [3] [float8_quarter; float8_half; float8_one]) ∅
      = (Done data, <[data := st]> ∅)
    /\ (∅ : gmap ptr (struct_T int64_domain)) !! data = None
    /\ quantiles st = Some [float8_quarter; float8_half; float8_one]
    /\ nquantiles st = 3
    /\ nelements st = SLICE_SIZE
    /\ holds st [7]
    /\ (forallb (valid_binary prec emax) [float8_quarter; float8_half; float8_one] = true ->
        requests st [float8_quarter; float8_half; float8_one]).
Proof.
  apply (request_array_round_trip int64_domain "quantile_append_int64_array" (Some 7)
           (Array 1 [3] [float8_quarter; float8_half; float8_one]) ∅).
  - unfold sized. simpl. lia.
  - reflexivity.
  - reflexivity.
  - discriminate.
  - vm_compute. discriminate.
Defined.

(** The whole aggregate with a request array: for the rows of a group
    that carry at least one observation (and no more than a group can
    hold), observations that the comparator orders, the transition calls
    followed by the final call return one value per requested probability,
    in the order of the request, all read from one ascending arrangement of
    the observations; for every probability that is not a NaN it is the
    entry at the index of the nearest-rank rule. *)
Theorem aggregate_array_by_rule D fa ff v rows (m : gmap ptr (struct_T D)) :
  sized D -> ARR_NDIM v = 1 -> ARR_DIMS v = [Z.of_nat (length (ARR_DATA v))] ->
  ARR_DATA v <> [] -> 8 * Z.of_nat (length (ARR_DATA v)) <= MaxAllocSize ->
  forallb (valid_binary prec emax) (ARR_DATA v) = true ->
  omap id rows <> [] -> Z.of_nat (length (omap id rows)) <= group_limit D ->
  ordersb (comparator D) (omap id rows) = true ->
  exists res sorted,
    (aggregate (fun state element => quantile_append_T_array D fa true state element v)
               (quantile_T_array D ff true) rows m).1 = Done (Some res)
    /\ length res = length (ARR_DATA v)
    /\ ascending (cmp_le (comparator D)) (omap id rows) sorted
    /\ forall (i : nat) q, ARR_DATA v !! i = Some q -> is_nan q = false ->
         exists idx,
           nearest_rank (Z.of_nat (length (omap id rows))) q = Some idx
           /\ 0 <= idx < Z.of_nat (length (omap id rows))
           /\ res !! i = sorted !! Z.to_nat idx.
Proof.
  intros HD Hdim Hdims Hne Hsize Hvalid Hrows Hk Hord.
  apply (fits_limit D _ HD) in Hk.
  set (n := Z.of_nat (length (ARR_DATA v))).
  set (st := struct_after (D := D) n (Some (ARR_DATA v)) (omap id rows)).
  assert (Hh : holds st (omap id rows)) by (by apply struct_after_holds).
  assert (Hr : requests st (ARR_DATA v)) by (by split).
  destruct rows as [|r rows]; [done|].
  set (m1 := <[fresh (dom m) := st]> m).
  assert (Hm1 : m1 !! fresh (dom m) = Some st) by apply lookup_insert_eq.
  destruct (quantile_T_array_run D HD ff m1 (fresh (dom m)) st (omap id (r :: rows))
              (ARR_DATA v) Hm1 Hh Hr Hrows) as (res & Hrun & Hlen & Hres).
  exists res, (pg_qsort (comparator D) (omap id (r :: rows))).
  split; [|split; [done|split; [by apply pg_qsort_ascending|]]].
  - unfold aggregate. rewrite bind_run.
    rewrite (run_append_created D HD _ n (Some (ARR_DATA v)) r rows m).
    + apply Z.leb_le in Hk. rewrite Hk. fold st m1. by rewrite Hrun.
    + intros. apply quantile_append_T_array_existing.
    + intros. rewrite (quantile_append_T_array_creation D HD).
      by rewrite (array_to_double_items D v m Hdim Hdims Hne Hsize).
  - intros i q Hq Hnan.
    pose proof (holds_bounds D HD st _ Hh) as [Hb1 Hb2].
    assert (Hn : 1 <= Z.of_nat (length (omap id (r :: rows))) <= INT_MAX).
    { destruct Hh as [Hnx _ _ _]. destruct (omap id (r :: rows)); [done|].
      simpl length in *. unfold INT_MAX. lia. }
    destruct (nearest_rank_defined _ q Hn (requests_valid_at D st _ i q Hr Hq) Hnan)
      as (idx & Hidx & Hrange).
    destruct (Hres i q idx Hq Hidx) as [_ Hi].
    exists idx. by rewrite Hi.
Qed.

Lemma aggregate_array_by_rule_witness :
  exists res sorted,
    (aggregate (fun state element =>
                  quantile_append_int32_array true state element
                    (Array 1 [2] [float8_half; float8_one]))
               (quantile_int32_array true)
               [Some 30; None; Some 10; Some 40; Some 20] ∅).1 = Done (Some res)
    /\ length res = 2%nat
    /\ ascending (cmp_le int32_comparator) [30; 10; 40; 20] sorted
    /\ forall (i : nat) q, [float8_half; float8_one] !! i = Some q -> is_nan q = false ->
         exists idx,
           nearest_rank 4 q = Some idx
           /\ 0 <= idx < 4
           /\ res !! i = sorted !! Z.to_nat idx.
Proof.
  apply (aggregate_array_by_rule int32_domain "quantile_append_int32_array"
           "quantile_int32_array" (Array 1 [2] [float8_half; float8_one])
           [Some 30; None; Some 10; Some 40; Some 20] ∅).
  - unfold sized. simpl. lia.
  - reflexivity.
  - reflexivity.
  - discriminate.
  - vm_compute. discriminate.
  - reflexivity.
  - discriminate.
  - vm_compute. discriminate.
  - reflexivity.
Defined.

(** ** A NaN among the values *)

Lemma float8_lt_asym x y : float8_lt x y = true -> float8_lt y x = false.
Proof.
  intros H.
  assert (Hx : is_nan x = false) by (by destruct x).
  assert (Hy : is_nan y = false) by (by destruct x, y).
  destruct (float8_lt y x) eqn:H'; [|done].
  apply (float8_lt_key x y Hx Hy) in H. apply (float8_lt_key y x Hy Hx) in H'.
  unfold lex_lt in *. lia.
Qed.

Lemma double_comparator_nan_l x : double_comparator S754_nan x = 0.
Proof. by destruct x. Qed.

Lemma double_comparator_nan_r x : double_comparator x S754_nan = 0.
Proof. by destruct x. Qed.

(** The double comparator answers 0 for every comparison with a NaN, so
    it is not a consistent order on values that hold a NaN and two numbers
    of which one is less than the other: the NaN compares as equal to
    both. *)
Theorem nan_breaks_order (l : list float8) x y :
  S754_nan ∈ l -> x ∈ l -> y ∈ l -> float8_lt x y = true ->
  (forall z, double_comparator S754_nan z = 0 /\ double_comparator z S754_nan = 0)
  /\ double_comparator x y = -1 /\ double_comparator y x = 1
  /\ ordersb double_comparator l = false.
Proof.
  intros Hnan Hx Hy Hlt.
  pose proof (float8_lt_asym x y Hlt) as Hgt.
  assert (Hxy : double_comparator x y = -1).
  { unfold double_comparator, float8_gt, float8_lt in *. by rewrite Hlt, Hgt. }
  assert (Hyx : double_comparator y x = 1).
  { unfold double_comparator, float8_gt, float8_lt in *. by rewrite Hlt, Hgt. }
  split; [intros z; split; [apply double_comparator_nan_l|apply double_comparator_nan_r]|].
  split; [done|]. split; [done|].
  destruct (ordersb double_comparator l) eqn:Hord; [|done].
  assert (Hle : cmp_le double_comparator y x).
  { apply (ordersb_trans double_comparator l y S754_nan x); auto.
    - unfold cmp_le. by rewrite double_comparator_nan_r.
    - unfold cmp_le. by rewrite double_comparator_nan_l. }
  unfold cmp_le in Hle. lia.
Qed.

Lemma nan_breaks_order_witness :
  (forall z, double_comparator S754_nan z = 0 /\ double_comparator z S754_nan = 0)
  /\ double_comparator float8_half float8_one = -1
  /\ double_comparator float8_one float8_half = 1
  /\ ordersb double_comparator [float8_one; S754_nan; float8_half] = false.
Proof.
  apply (nan_breaks_order [float8_one; S754_nan; float8_half] float8_half float8_one).
  - set_solver.
  - set_solver.
  - set_solver.
  - reflexivity.
Defined.

(** * The state after a final call *)

(** The final functions sort the buffer of the group in place and change
    nothing else: the struct they leave holds the same values in another
    arrangement, an ascending one where the comparator orders the values. *)
Theorem final_sorts_in_place D fname fname' m data (st : struct_T D) vals qs :
  sized D -> m !! data = Some st -> holds st vals -> requests st qs ->
  exists st' vals',
    (quantile_T D fname true (Some data) m).2 = <[data := st']> m
    /\ (quantile_T_array D fname' true (Some data) m).2 = <[data := st']> m
    /\ nquantiles st' = nquantiles st /\ quantiles st' = quantiles st
    /\ nelements st' = nelements st /\ next st' = next st
    /\ holds st' vals'
    /\ vals' ≡ₚ vals
    /\ (ordersb (comparator D) vals = true ->
        StronglySorted (cmp_le (comparator D)) vals').
Proof.
  intros HD Hm Hh Hr.
  exists (sorted_struct st vals), (pg_qsort (comparator D) vals).
  split; [by apply quantile_T_memory|].
  split; [by apply (quantile_T_array_memory D HD fname' m data st vals qs)|].
  do 4 (split; [done|]).
  split; [by apply sorted_struct_holds|].
  split; [apply pg_qsort_Permutation|apply pg_qsort_sorted].
Qed.

Lemma final_sorts_in_place_witness :
  exists st' vals',
    (quantile_int32 true (Some 1%positive) (sample_memory_int32 [float8_half])).2
      = <[1%positive := st']> (sample_memory_int32 [float8_half])
    /\ (quantile_int32_array true (Some 1%positive) (sample_memory_int32 [float8_half])).2
      = <[1%positive := st']> (sample_memory_int32 [float8_half])
    /\ nquantiles st' = nquantiles (sample_struct_int32 [float8_half])
    /\ quantiles st' = quantiles (sample_struct_int32 [float8_half])
    /\ nelements st' = nelements (sample_struct_int32 [float8_half])
    /\ next st' = next (sample_struct_int32 [float8_half])
    /\ holds st' vals'
    /\ vals' ≡ₚ sample_ints
    /\ (ordersb int32_comparator sample_ints = true ->
        StronglySorted (cmp_le int32_comparator) vals').
Proof.
  apply (final_sorts_in_place int32_domain "quantile_int32" "quantile_int32_array"
           (sample_memory_int32 [float8_half]) 1%positive
           (sample_struct_int32 [float8_half]) sample_ints [float8_half]).
  - unfold sized. simpl. lia.
  - apply lookup_singleton_eq.
  - apply struct_after_holds. vm_compute. discriminate.
  - split; [reflexivity|reflexivity|vm_compute; discriminate|reflexivity].
Defined.

(** Calling a final function again on the state it left returns the same
    result and leaves the state as it is. *)
Theorem final_is_idempotent D fname fname' m data (st : struct_T D) vals qs :
  sized D -> m !! data = Some st -> holds st vals -> requests st qs ->
  ordersb (comparator D) vals = true ->
  quantile_T D fname true (Some data) (quantile_T D fname true (Some data) m).2
    = quantile_T D fname true (Some data) m
  /\ quantile_T_array D fname' true (Some data)
       (quantile_T_array D fname' true (Some data) m).2
     = quantile_T_array D fname' true (Some data) m.
Proof.
  intros HD Hm Hh Hr Hord.
  set (ms := <[data := sorted_struct st vals]> m).
  assert (Hms : ms !! data = Some (sorted_struct st vals)) by apply lookup_insert_eq.
  pose proof (sorted_struct_holds D st vals Hh) as Hhs.
  pose proof (sorted_struct_requests D st vals qs Hr) as Hrs.
  assert (Heq : <[data := sorted_struct (sorted_struct st vals)
                            (pg_qsort (comparator D) vals)]> ms
                = <[data := sorted_struct st vals]> m).
  { rewrite sorted_struct_idemp by done. unfold ms. by rewrite insert_insert_eq. }
  split.
  - rewrite (quantile_T_memory D HD fname m data st vals Hm Hh). fold ms.
    by apply (quantile_T_sorted_memory D HD fname data ms m (sorted_struct st vals) st
                (pg_qsort (comparator D) vals) vals).
  - rewrite (quantile_T_array_memory D HD fname' m data st vals qs Hm Hh Hr). fold ms.
    apply injective_projections.
    + by apply (quantile_T_array_sorted_memory D HD fname' data ms m
                  (sorted_struct st vals) st (pg_qsort (comparator D) vals) vals).
    + rewrite (quantile_T_array_memory D HD fname' ms data _ _ qs Hms Hhs Hrs).
      rewrite (quantile_T_array_memory D HD fname' m data st vals qs Hm Hh Hr).
      exact Heq.
Qed.

Lemma final_is_idempotent_witness :
  quantile_int32 true (Some 1%positive)
      (quantile_int32 true (Some 1%positive) (sample_memory_int32 [float8_half])).2
    = quantile_int32 true (Some 1%positive) (sample_memory_int32 [float8_half])
  /\ quantile_int32_array true (Some 1%positive)
       (quantile_int32_array true (Some 1%positive) (sample_memory_int32 [float8_half])).2
     = quantile_int32_array true (Some 1%positive) (sample_memory_int32 [float8_half]).
Proof.
  apply (final_is_idempotent int32_domain "quantile_int32" "quantile_int32_array"
           (sample_memory_int32 [float8_half]) 1%positive
           (sample_struct_int32 [float8_half]) sample_ints [float8_half]).
  - unfold sized. simpl. lia.
  - apply lookup_singleton_eq.
  - apply struct_after_holds. vm_compute. discriminate.
  - split; [reflexivity|reflexivity|vm_compute; discriminate|reflexivity].
  - reflexivity.
Defined.

Section Between.
Context (D : domain) (HD : sized D) `{EqDecision (elt D)}.
Implicit Types (m : gmap ptr (struct_T D)) (st : struct_T D) (vals : list (elt D)).

Lemma grown_sorted_struct st vals : grown (sorted_struct st vals) = grown st.
Proof. reflexivity. Qed.

(** One more observation appended to the state a final function left, and
    to the state as it was before: a final function decided by the sorted
    memory cannot tell them apart. *)
Lemma append_tail_sorted_memory {A} (final : option ptr -> M D A) m data st vals e :
  m !! data = Some st -> holds st vals ->
  ordersb (comparator D) (vals ++ [e]) = true ->
  separatesb (comparator D) (vals ++ [e]) = true ->
  (forall m1 m2 st1 st2 vals1 vals2,
     m1 !! data = Some st1 -> m2 !! data = Some st2 ->
     holds st1 vals1 -> holds st2 vals2 -> nquantiles st1 = nquantiles st2 ->
     <[data := sorted_struct st1 vals1]> m1 = <[data := sorted_struct st2 vals2]> m2 ->
     (final (Some data) m1).1 = (final (Some data) m2).1) ->
  ((append_tail D data (Some e) ≫= fun p => final (Some p))
     (<[data := sorted_struct st vals]> m)).1
  = ((append_tail D data (Some e) ≫= fun p => final (Some p)) m).1.
Proof.
  intros Hm Hh Hord Hsep Hfinal.
  set (ms := <[data := sorted_struct st vals]> m).
  assert (Hms : ms !! data = Some (sorted_struct st vals)) by apply lookup_insert_eq.
  pose proof (sorted_struct_holds D st vals Hh) as Hhs.
  unfold append_tail. rewrite !bind_run.
  rewrite (append_element_run D HD ms data _ _ e Hms Hhs).
  rewrite (append_element_run D HD m data _ _ e Hm Hh).
  rewrite grown_sorted_struct.
  destruct (Z.leb_spec (elt_size D * grown st) MaxAllocSize) as [Hfit|Hno]; [|done].
  rewrite !ret_run.
  pose proof (grown_holds D st vals e Hh Hfit) as Ha.
  assert (Hfit' : elt_size D * grown (sorted_struct st vals) <= MaxAllocSize)
    by (by rewrite grown_sorted_struct).
  pose proof (grown_holds D (sorted_struct st vals) _ e Hhs Hfit') as Hb.
  rewrite grown_sorted_struct in Hb.
  eapply Hfinal; [apply lookup_insert_eq|apply lookup_insert_eq|exact Hb|exact Ha|done|].
  unfold ms. rewrite !insert_insert_eq. f_equal.
  unfold sorted_struct. cbn [nquantiles nelements next quantiles]. f_equal. f_equal.
  symmetry.
  apply (pg_qsort_arrival (comparator D) (vals ++ [e])
           (pg_qsort (comparator D) vals ++ [e])); [|done|done].
  by rewrite pg_qsort_Permutation.
Qed.
End Between.

(** A final function called between two transition calls does not change
    what the aggregate returns later: appending one more observation to the
    state the final function left and finalizing gives the same outcome as
    without the call in between. *)
Theorem final_between_appends D `{EqDecision (elt D)}
    fa ff fa' ff' m data (st : struct_T D) vals qs e q v :
  sized D -> m !! data = Some st -> holds st vals -> requests st qs ->
  ordersb (comparator D) (vals ++ [e]) = true ->
  separatesb (comparator D) (vals ++ [e]) = true ->
  ((quantile_append_T D fa true (Some data) (Some e) q
      ≫= fun p => quantile_T D ff true (Some p))
     (quantile_T D ff true (Some data) m).2).1
  = ((quantile_append_T D fa true (Some data) (Some e) q
        ≫= fun p => quantile_T D ff true (Some p)) m).1
  /\ ((quantile_append_T_array D fa' true (Some data) (Some e) v
         ≫= fun p => quantile_T_array D ff' true (Some p))
        (quantile_T_array D ff' true (Some data) m).2).1
     = ((quantile_append_T_array D fa' true (Some data) (Some e) v
           ≫= fun p => quantile_T_array D ff' true (Some p)) m).1.
Proof.
  intros HD Hm Hh Hr Hord Hsep. split.
  - rewrite (quantile_T_memory D HD ff m data st vals Hm Hh).
    rewrite !bind_run, !(quantile_append_T_existing D), <- !bind_run.
    apply (append_tail_sorted_memory D HD); try done.
    intros m1 m2 st1 st2 vals1 vals2 H1 H2 Hh1 Hh2 _ Heq. f_equal.
    by apply (quantile_T_sorted_memory D HD ff data m1 m2 st1 st2 vals1 vals2).
  - rewrite (quantile_T_array_memory D HD ff' m data st vals qs Hm Hh Hr).
    rewrite !bind_run, !(quantile_append_T_array_existing D), <- !bind_run.
    apply (append_tail_sorted_memory D HD); try done.
    intros m1 m2 st1 st2 vals1 vals2 H1 H2 Hh1 Hh2 Hnq Heq.
    by apply (quantile_T_array_sorted_memory D HD ff' data m1 m2 st1 st2 vals1 vals2).
Qed.

Lemma final_between_appends_witness :
  ((quantile_append_int32 true (Some 1%positive) (Some 25) float8_half
      ≫= fun p => quantile_int32 true (Some p))
     (quantile_int32 true (Some 1%positive) (sample_memory_int32 [float8_half])).2).1
  = ((quantile_append_int32 true (Some 1%positive) (Some 25) float8_half
        ≫= fun p => quantile_int32 true (Some p))
       (sample_memory_int32 [float8_half])).1
  /\ ((quantile_append_int32_array true (Some 1%positive) (Some 25)
         (Array 1 [1] [float8_half])
         ≫= fun p => quantile_int32_array true (Some p))
        (quantile_int32_array true (Some 1%positive)
           (sample_memory_int32 [float8_half])).2).1
     = ((quantile_append_int32_array true (Some 1%positive) (Some 25)
           (Array 1 [1] [float8_half])
           ≫= fun p => quantile_int32_array true (Some p))
          (sample_memory_int32 [float8_half])).1.
Proof.
  apply (final_between_appends int32_domain
           "quantile_append_int32" "quantile_int32"
           "quantile_append_int32_array" "quantile_int32_array"
           (sample_memory_int32 [float8_half]) 1%positive
           (sample_struct_int32 [float8_half]) sample_ints [float8_half]
           25 float8_half (Array 1 [1] [float8_half])).
  - unfold sized. simpl. lia.
  - apply lookup_singleton_eq.
  - apply struct_after_holds. vm_compute. discriminate.
  - split; [reflexivity|reflexivity|vm_compute; discriminate|reflexivity].
  - reflexivity.
  - reflexivity.
Defined.

(** * The values returned *)

(** The array final functions of every domain clamp at the ends: every
    probability at or below 0 gets one accumulated value and every
    probability at or above 1 (infinity included) gets one accumulated
    value; where the comparator orders the values, the first is a least
    and the second a greatest of them. *)
Theorem array_final_clamps D fname m data (st : struct_T D) vals qs :
  sized D -> m !! data = Some st -> holds st vals -> requests st qs -> vals <> [] ->
  exists res lo hi,
    (quantile_T_array D fname true (Some data) m).1 = Done (Some res)
    /\ lo ∈ vals /\ hi ∈ vals
    /\ (ordersb (comparator D) vals = true ->
        forall x, x ∈ vals ->
          cmp_le (comparator D) lo x /\ cmp_le (comparator D) x hi)
    /\ forall (i : nat) q, qs !! i = Some q ->
         (float8_le q float8_zero = true -> res !! i = Some lo)
         /\ (float8_le float8_one q = true -> res !! i = Some hi).
Proof.
  intros HD Hm Hh Hr Hne.
  destruct (quantile_T_array_run D HD fname m data st vals qs Hm Hh Hr Hne)
    as (res & Hrun & Hlen & Hres).
  assert (Hn : (0 < length vals)%nat) by (destruct vals; [done|simpl; lia]).
  destruct (lookup_lt_is_Some_2 (pg_qsort (comparator D) vals) 0) as [lo Hlo];
    [rewrite pg_qsort_length; lia|].
  destruct (lookup_lt_is_Some_2 (pg_qsort (comparator D) vals) (length vals - 1))
    as [hi Hhi]; [rewrite pg_qsort_length; lia|].
  exists res, lo, hi. split; [by rewrite Hrun|].
  split; [by eapply pg_qsort_lookup_elem_of|].
  split; [by eapply pg_qsort_lookup_elem_of|].
  split.
  { intros Hord x Hx. by apply (sorted_ends (comparator D) vals). }
  intros i q Hq. split; intros Hcase.
  - destruct (Hres i q 0 Hq (nearest_rank_low _ q Hcase)) as [_ ->]. done.
  - destruct (Hres i q _ Hq (nearest_rank_high _ q Hcase)) as [_ ->].
    rewrite <- Hhi. f_equal. lia.
Qed.

Lemma array_final_clamps_witness :
  exists res lo hi,
    (quantile_int64_array true (Some 1%positive)
       {[1%positive := struct_after (D := int64_domain) 2
                         (Some [float8_two; S754_infinity true]) sample_ints]}).1
      = Done (Some res)
    /\ lo ∈ sample_ints /\ hi ∈ sample_ints
    /\ (ordersb int64_comparator sample_ints = true ->
        forall x, x ∈ sample_ints ->
          cmp_le int64_comparator lo x /\ cmp_le int64_comparator x hi)
    /\ forall (i : nat) q, [float8_two; S754_infinity true] !! i = Some q ->
         (float8_le q float8_zero = true -> res !! i = Some lo)
         /\ (float8_le float8_one q = true -> res !! i = Some hi).
Proof.
  apply (array_final_clamps int64_domain "quantile_int64_array"
           {[1%positive := struct_after (D := int64_domain) 2
                             (Some [float8_two; S754_infinity true]) sample_ints]}
           1%positive
           (struct_after (D := int64_domain) 2
              (Some [float8_two; S754_infinity true]) sample_ints)
           sample_ints [float8_two; S754_infinity true]).
  - unfold sized. simpl. lia.
  - apply lookup_singleton_eq.
  - apply struct_after_holds. vm_compute. discriminate.
  - split; [reflexivity|reflexivity|vm_compute; discriminate|reflexivity].
  - discriminate.
Defined.

(** The scalar final functions of the integer and numeric domains test the
    probability against 0 only.  On values that the comparator orders they
    read one ascending arrangement of the accumulated values: at or below
    0, and for a NaN, they return its first entry; strictly inside (0,1)
    they return the entry at index [ceil(n*q) - 1], which lies within the
    buffer. *)
Theorem scalar_final_by_rank D fname m data (st : struct_T D) vals qs q :
  sized D -> m !! data = Some st -> holds st vals -> requests st qs -> vals <> [] ->
  ordersb (comparator D) vals = true ->
  qs !! 0%nat = Some q ->
  exists sorted,
    ascending (cmp_le (comparator D)) vals sorted
    /\ (float8_lt float8_zero q = false ->
        exists v,
          sorted !! 0%nat = Some v
          /\ (quantile_T D fname true (Some data) m).1 = Done (Some v))
    /\ (float8_lt float8_zero q = true -> float8_lt q float8_one = true ->
        exists c v,
          int_of_ceil (float8_mul (float8_of_int (Z.of_nat (length vals))) q) = Some c
          /\ 1 <= c <= Z.of_nat (length vals)
          /\ sorted !! Z.to_nat (c - 1) = Some v
          /\ (quantile_T D fname true (Some data) m).1 = Done (Some v)).
Proof.
  intros HD Hm Hh Hr Hne Hord Hq.
  exists (pg_qsort (comparator D) vals).
  split; [by apply pg_qsort_ascending|]. split.
  - intros H0.
    destruct (quantile_T_first D HD fname m data st vals qs q Hm Hh Hr Hne Hq H0)
      as (v & Hv & Hrun).
    exists v. by rewrite Hrun.
  - intros H0 H1.
    pose proof (holds_bounds D HD st vals Hh) as [Hb1 Hb2].
    assert (Hlen : 1 <= Z.of_nat (length vals) <= INT_MAX).
    { destruct Hh as [Hn _ _ _]. destruct vals; [done|].
      simpl length in *. unfold INT_MAX. lia. }
    destruct (int_of_ceil_rank_bounds _ q Hlen
                (requests_valid_at D st qs 0 q Hr Hq) H0 H1) as (c & Hc & Hcb).
    destruct (quantile_T_ceil D HD fname m data st vals qs q c Hm Hh Hr Hq H0 Hc Hcb)
      as (v & Hv & Hrun).
    exists c, v. by rewrite Hrun.
Qed.

Lemma scalar_final_by_rank_witness :
  exists sorted,
    ascending (cmp_le int32_comparator) sample_ints sorted
    /\ (float8_lt float8_zero float8_quarter = false ->
        exists v,
          sorted !! 0%nat = Some v
          /\ (quantile_int32 true (Some 1%positive)
                (sample_memory_int32 [float8_quarter])).1 = Done (Some v))
    /\ (float8_lt float8_zero float8_quarter = true ->
        float8_lt float8_quarter float8_one = true ->
        exists c v,
          int_of_ceil (float8_mul (float8_of_int (Z.of_nat (length sample_ints)))
                         float8_quarter) = Some c
          /\ 1 <= c <= Z.of_nat (length sample_ints)
          /\ sorted !! Z.to_nat (c - 1) = Some v
          /\ (quantile_int32 true (Some 1%positive)
                (sample_memory_int32 [float8_quarter])).1 = Done (Some v)).
Proof.
  apply (scalar_final_by_rank int32_domain "quantile_int32"
           (sample_memory_int32 [float8_quarter]) 1%positive
           (sample_struct_int32 [float8_quarter]) sample_ints
           [float8_quarter] float8_quarter).
  - unfold sized. simpl. lia.
  - apply lookup_singleton_eq.
  - apply struct_after_holds. vm_compute. discriminate.
  - split; [reflexivity|reflexivity|vm_compute; discriminate|reflexivity].
  - discriminate.
  - reflexivity.
  - reflexivity.
Defined.

(** On a non-empty buffer the array final functions succeed for every
    request, NaN probabilities included: they return one value per
    probability, each of them one of the accumulated values (nothing is
    interpolated and no cell outside the values is read), and the value
    at the position of a NaN repeats the value before it; when the NaN
    comes first and the comparator orders the values, it is a least one of
    them. *)
Theorem array_final_returns_accumulated_values
    D fname m data (st : struct_T D) vals qs :
  sized D -> m !! data = Some st -> holds st vals -> requests st qs -> vals <> [] ->
  exists res,
    (quantile_T_array D fname true (Some data) m).1 = Done (Some res)
    /\ length res = length qs
    /\ (forall v, v ∈ res -> v ∈ vals)
    /\ forall (i : nat), qs !! i = Some S754_nan ->
         match i with
         | O => exists v, res !! 0%nat = Some v
                  /\ (ordersb (comparator D) vals = true ->
                      forall x, x ∈ vals -> cmp_le (comparator D) v x)
         | S i' => res !! i = res !! i'
         end.
Proof.
  intros HD Hm Hh Hr Hne.
  destruct (quantile_T_array_indices D HD fname m data st vals qs Hm Hh Hr Hne)
    as (res & Hrun & Hres).
  exists res. split; [by rewrite Hrun|].
  pose proof (Forall2_length _ _ _ Hres) as Hlen.
  rewrite kept_indices_length in Hlen.
  split; [done|]. split.
  - intros v Hv. apply list_elem_of_lookup in Hv as [i Hi].
    destruct (Forall2_lookup_l _ _ _ _ _ Hres Hi) as (ix & _ & _ & Hix).
    by eapply pg_qsort_lookup_elem_of.
  - intros i Hq.
    pose proof (kept_indices_lookup (Z.of_nat (length vals)) qs 0 i _ Hq) as Hk.
    rewrite nearest_rank_nan in Hk. cbn [default] in Hk.
    destruct (lookup_lt_is_Some_2 res i) as [v Hv];
      [rewrite Hlen; by eapply lookup_lt_Some|].
    destruct (Forall2_lookup_l _ _ _ _ _ Hres Hv) as (ix & Hix & _ & Hval).
    rewrite Hk in Hix. injection Hix as <-.
    destruct i as [|i].
    + exists v. split; [done|]. intros Hord x Hx.
      assert (Hn : (0 < length vals)%nat) by (destruct vals; [done|simpl; lia]).
      destruct (lookup_lt_is_Some_2 (pg_qsort (comparator D) vals) (length vals - 1))
        as [hi Hhi]; [rewrite pg_qsort_length; lia|].
      by destruct (sorted_ends (comparator D) vals v hi x Hord Hval Hhi Hx).
    + destruct (lookup_lt_is_Some_2 res i) as [v' Hv'];
        [apply lookup_lt_Some in Hv; lia|].
      destruct (Forall2_lookup_l _ _ _ _ _ Hres Hv') as (ix' & Hix' & _ & Hval').
      rewrite Hix' in Hval. cbn [default] in Hval.
      rewrite Hv, Hv'. unfold id in Hval. congruence.
Qed.

Lemma array_final_returns_accumulated_values_witness :
  exists res,
    (quantile_double_array true (Some 1%positive)
       (sample_memory [S754_nan; float8_half; S754_nan])).1 = Done (Some res)
    /\ length res = length [S754_nan; float8_half; S754_nan]
    /\ (forall v, v ∈ res -> v ∈ sample_doubles)
    /\ forall (i : nat), [S754_nan; float8_half; S754_nan] !! i = Some S754_nan ->
         match i with
         | O => exists v, res !! 0%nat = Some v
                  /\ (ordersb double_comparator sample_doubles = true ->
                      forall x, x ∈ sample_doubles -> cmp_le double_comparator v x)
         | S i' => res !! i = res !! i'
         end.
Proof.
  apply (array_final_returns_accumulated_values double_domain "quantile_double_array"
           (sample_memory [S754_nan; float8_half; S754_nan]) 1%positive
           (sample_struct [S754_nan; float8_half; S754_nan]) sample_doubles
           [S754_nan; float8_half; S754_nan]).
  - unfold sized. simpl. lia.
  - apply lookup_singleton_eq.
  - apply struct_after_holds. vm_compute. discriminate.
  - split; [reflexivity|reflexivity|vm_compute; discriminate|reflexivity].
  - discriminate.
Defined.

(** The value returned for a probability strictly inside (0,1) is a
    quantile in the counting sense: with [c = ceil(n*q)], at least [c] of the
    [n] accumulated values are at or below it and at least [n - c + 1] are at
    or above it, in the order of the comparator. *)
Theorem returned_value_rank_counts D fname m data (st : struct_T D) vals qs :
  sized D -> m !! data = Some st -> holds st vals -> requests st qs -> vals <> [] ->
  ordersb (comparator D) vals = true ->
  exists res,
    (quantile_T_array D fname true (Some data) m).1 = Done (Some res)
    /\ forall (i : nat) q, qs !! i = Some q ->
         float8_lt float8_zero q = true -> float8_lt q float8_one = true ->
         exists c v,
           int_of_ceil (float8_mul (float8_of_int (Z.of_nat (length vals))) q) = Some c
           /\ res !! i = Some v
           /\ c <= Z.of_nat (length (filter (fun x => comparator D x v <= 0) vals))
           /\ Z.of_nat (length vals) - c + 1
              <= Z.of_nat (length (filter (fun x => comparator D v x <= 0) vals)).
Proof.
  intros HD Hm Hh Hr Hne Hord.
  destruct (quantile_T_array_run D HD fname m data st vals qs Hm Hh Hr Hne)
    as (res & Hrun & Hlen & Hres).
  exists res. split; [by rewrite Hrun|].
  intros i q Hq H0 H1.
  pose proof (holds_bounds D HD st vals Hh) as [Hb1 Hb2].
  assert (Hn : 1 <= Z.of_nat (length vals) <= INT_MAX).
  { destruct Hh as [Hn _ _ _]. destruct vals; [done|].
    simpl length in *. unfold INT_MAX. lia. }
  destruct (int_of_ceil_rank_bounds _ q Hn (requests_valid_at D st qs i q Hr Hq) H0 H1)
    as (c & Hc & Hcb).
  assert (Hnr : nearest_rank (Z.of_nat (length vals)) q = Some (c - 1)).
  { unfold nearest_rank. by rewrite H0, H1, Hc. }
  destruct (Hres i q _ Hq Hnr) as [_ Hi].
  destruct (lookup_lt_is_Some_2 (pg_qsort (comparator D) vals) (Z.to_nat (c - 1)))
    as [v Hv]; [rewrite pg_qsort_length; lia|].
  exists c, v. split; [done|]. split; [by rewrite Hi|].
  destruct (sorted_rank_counts (comparator D) vals _ v Hord Hv) as [Hlow Hupp].
  lia.
Qed.

Lemma returned_value_rank_counts_witness :
  exists res,
    (quantile_int32_array true (Some 1%positive)
       (sample_memory_int32 [float8_quarter; float8_half])).1 = Done (Some res)
    /\ forall (i : nat) q, [float8_quarter; float8_half] !! i = Some q ->
         float8_lt float8_zero q = true -> float8_lt q float8_one = true ->
         exists c v,
           int_of_ceil (float8_mul (float8_of_int (Z.of_nat (length sample_ints))) q)
             = Some c
           /\ res !! i = Some v
           /\ c <= Z.of_nat (length (filter (fun x => int32_comparator x v <= 0)
                                       sample_ints))
           /\ Z.of_nat (length sample_ints) - c + 1
              <= Z.of_nat (length (filter (fun x => int32_comparator v x <= 0)
                                     sample_ints)).
Proof.
  apply (returned_value_rank_counts int32_domain "quantile_int32_array"
           (sample_memory_int32 [float8_quarter; float8_half]) 1%positive
           (sample_struct_int32 [float8_quarter; float8_half]) sample_ints
           [float8_quarter; float8_half]).
  - unfold sized. simpl. lia.
  - apply lookup_singleton_eq.
  - apply struct_after_holds. vm_compute. discriminate.
  - split; [reflexivity|reflexivity|vm_compute; discriminate|reflexivity].
  - discriminate.
  - reflexivity.
Defined.

(** * The rank in binary64 *)

(** ** Rounding to nearest, ties to even *)

Lemma iter_pos_nat {A} (f : A -> A) p : forall x,
  SpecFloat.iter_pos f p x = Nat.iter (Pos.to_nat p) f x.
Proof.
  induction p as [p IH|p IH|]; intros x; simpl SpecFloat.iter_pos.
  - rewrite !IH, Pos2Nat.inj_xI, Nat.iter_succ_r.
    replace (2 * Pos.to_nat p)%nat with (Pos.to_nat p + Pos.to_nat p)%nat by lia.
    by rewrite Nat.iter_add.
  - rewrite !IH, Pos2Nat.inj_xO.
    replace (2 * Pos.to_nat p)%nat with (Pos.to_nat p + Pos.to_nat p)%nat by lia.
    by rewrite Nat.iter_add.
  - reflexivity.
Qed.

Lemma shr_1_fields m r s :
  0 <= m ->
  shr_1 {| shr_m := m; shr_r := r; shr_s := s |}
  = {| shr_m := m / 2; shr_r := Z.odd m; shr_s := r || s |}.
Proof.
  intros Hm. destruct m as [|[p|p|]|p]; try lia; cbn [shr_1]; f_equal.
  - rewrite Pos2Z.inj_xI. apply Z.div_unique with 1; lia.
  - rewrite Pos2Z.inj_xO. apply Z.div_unique with 0; lia.
Qed.

(** The shift register after [j + 1] single shifts of [M]. *)
Lemma iter_shr_1_fields M (j : nat) :
  0 <= M ->
  Nat.iter (S j) shr_1 {| shr_m := M; shr_r := false; shr_s := false |}
  = {| shr_m := M / 2 ^ (Z.of_nat j + 1);
       shr_r := Z.odd (M / 2 ^ Z.of_nat j);
       shr_s := negb (M mod 2 ^ Z.of_nat j =? 0) |}.
Proof.
  intros HM. induction j as [|j IH].
  - change (Nat.iter 1 shr_1 ?x) with (shr_1 x). rewrite shr_1_fields by done.
    change (Z.of_nat 0) with 0. rewrite Z.pow_0_r, Z.div_1_r, Z.mod_1_r.
    by change (2 ^ (0 + 1)) with 2.
  - rewrite Nat.iter_succ, IH.
    assert (Hp : 0 < 2 ^ Z.of_nat j) by (apply Z.pow_pos_nonneg; lia).
    rewrite shr_1_fields by (apply Z.div_pos; [done|apply Z.pow_pos_nonneg; lia]).
    assert (Hpow : 2 ^ Z.of_nat (S j) = 2 ^ Z.of_nat j * 2).
    { rewrite Nat2Z.inj_succ, Z.pow_succ_r by lia. lia. }
    f_equal.
    + rewrite Z.div_div by (try apply Z.pow_pos_nonneg; lia).
      f_equal. rewrite Nat2Z.inj_succ.
      replace (Z.succ (Z.of_nat j) + 1) with (Z.succ (Z.of_nat j + 1)) by lia.
      rewrite (Z.pow_succ_r 2 (Z.of_nat j + 1)) by lia. lia.
    + f_equal. f_equal. f_equal. lia.
    + rewrite Hpow.
      rewrite (Z.rem_mul_r M (2 ^ Z.of_nat j) 2) by lia.
      rewrite Zodd_mod.
      pose proof (Z.mod_pos_bound M (2 ^ Z.of_nat j) Hp).
      pose proof (Z.mod_pos_bound (M / 2 ^ Z.of_nat j) 2 ltac:(lia)).
      set (t := M mod 2 ^ Z.of_nat j) in *.
      set (b := (M / 2 ^ Z.of_nat j) mod 2) in *.
      set (P := 2 ^ Z.of_nat j) in *.
      destruct (Z.eqb_spec t 0); destruct (Z.eqb_spec b 1);
        destruct (Z.eqb_spec (t + P * b) 0); cbn [negb orb]; try done; nia.
Qed.

(** Shifting [M] right by [k >= 1] places and rounding by the bits shifted
    out is rounding [M / 2^k] to nearest, ties to even. *)
Lemma shr_rne M e k :
  0 <= M -> 1 <= k ->
  exists mrs,
    shr {| shr_m := M; shr_r := false; shr_s := false |} e k = (mrs, e + k)
    /\ round_nearest_even (shr_m mrs) (loc_of_shr_record mrs) = rne_div M k.
Proof.
  intros HM Hk. destruct k as [|p|p]; try lia.
  cbn [shr]. rewrite iter_pos_nat.
  destruct (Pos.to_nat p) as [|j] eqn:Hj; [lia|].
  rewrite iter_shr_1_fields by done.
  eexists. split; [reflexivity|].
  assert (HjZ : Z.pos p = Z.of_nat j + 1) by lia.
  rewrite HjZ. clear Hj HjZ Hk p.
  set (J := Z.of_nat j). assert (HJ : 0 <= J) by lia. clearbody J.
  unfold rne_div.
  assert (Hp : 0 < 2 ^ J) by (apply Z.pow_pos_nonneg; lia).
  assert (Hpow : 2 ^ (J + 1) = 2 ^ J * 2).
  { rewrite Z.pow_add_r by lia. done. }
  rewrite Hpow, (Z.rem_mul_r M (2 ^ J) 2) by lia.
  rewrite <- Z.div_div by lia.
  set (h := M / 2 ^ J). set (t := M mod 2 ^ J).
  assert (Ht : 0 <= t < 2 ^ J) by (apply Z.mod_pos_bound; lia).
  assert (Hb : 0 <= h mod 2 < 2) by (apply Z.mod_pos_bound; lia).
  cbn [shr_m loc_of_shr_record].
  rewrite Zodd_mod.
  destruct (Z.eqb_spec (h mod 2) 1) as [H1|H1];
    destruct (Z.eqb_spec t 0) as [H0|H0]; cbn [negb round_nearest_even].
  - rewrite H1, H0.
    destruct (Z.ltb_spec (2 * (0 + 2 ^ J * 1)) (2 ^ J * 2)); [lia|].
    destruct (Z.ltb_spec (2 ^ J * 2) (2 * (0 + 2 ^ J * 1))); [lia|]. done.
  - rewrite H1.
    destruct (Z.ltb_spec (2 * (t + 2 ^ J * 1)) (2 ^ J * 2)); [lia|].
    destruct (Z.ltb_spec (2 ^ J * 2) (2 * (t + 2 ^ J * 1))); [done|lia].
  - assert (h mod 2 = 0) as -> by lia. rewrite H0.
    destruct (Z.ltb_spec (2 * (0 + 2 ^ J * 0)) (2 ^ J * 2)); [done|lia].
  - assert (h mod 2 = 0) as -> by lia.
    destruct (Z.ltb_spec (2 * (t + 2 ^ J * 0)) (2 ^ J * 2)); [done|lia].
Qed.

Lemma rne_div_0 M : rne_div M 0 = M.
Proof.
  unfold rne_div. rewrite Z.pow_0_r, Z.div_1_r, Z.mod_1_r. done.
Qed.

Lemma rne_div_bounds M k : 0 <= k -> M / 2 ^ k <= rne_div M k <= M / 2 ^ k + 1.
Proof.
  intros Hk. unfold rne_div.
  destruct (_ <? _); [lia|]. destruct (_ <? _); [lia|]. destruct (Z.even _); lia.
Qed.

(** Rounding is monotone. *)
Lemma rne_div_mono M1 M2 k :
  0 <= k -> M1 <= M2 -> rne_div M1 k <= rne_div M2 k.
Proof.
  intros Hk HM.
  assert (Hp : 0 < 2 ^ k) by (apply Z.pow_pos_nonneg; lia).
  pose proof (Z.div_le_mono M1 M2 (2 ^ k) Hp HM) as Hq.
  destruct (Z.eq_dec (M1 / 2 ^ k) (M2 / 2 ^ k)) as [Heq|Hneq].
  - unfold rne_div. rewrite <- Heq.
    pose proof (Z.div_mod M1 (2 ^ k) ltac:(lia)) as H1.
    pose proof (Z.div_mod M2 (2 ^ k) ltac:(lia)) as H2.
    rewrite <- Heq in H2.
    set (q := M1 / 2 ^ k) in *. set (r1 := M1 mod 2 ^ k) in *.
    set (r2 := M2 mod 2 ^ k) in *. set (P := 2 ^ k) in *.
    assert (Hr : r1 <= r2) by lia.
    destruct (Z.ltb_spec (2 * r1) P); destruct (Z.ltb_spec (2 * r2) P);
      destruct (Z.ltb_spec P (2 * r1)); destruct (Z.ltb_spec P (2 * r2));
      destruct (Z.even q); lia.
  - pose proof (rne_div_bounds M1 k Hk). pose proof (rne_div_bounds M2 k Hk). lia.
Qed.

(** Rounding depends on the quotient only. *)
Lemma rne_div_scale M k a :
  0 <= k -> 0 <= a -> rne_div (M * 2 ^ a) (k + a) = rne_div M k.
Proof.
  intros Hk Ha. unfold rne_div.
  assert (Hp : 0 < 2 ^ k) by (apply Z.pow_pos_nonneg; lia).
  assert (Hq : 0 < 2 ^ a) by (apply Z.pow_pos_nonneg; lia).
  rewrite Z.pow_add_r by lia.
  rewrite Z.div_mul_cancel_r by lia.
  rewrite Z.mul_mod_distr_r by lia.
  set (q := M / 2 ^ k). set (r := M mod 2 ^ k). set (P := 2 ^ k) in *.
  set (Q := 2 ^ a) in *.
  destruct (Z.ltb_spec (2 * r) P); destruct (Z.ltb_spec (2 * (r * Q)) (P * Q));
    try nia; try done.
  destruct (Z.ltb_spec P (2 * r)); destruct (Z.ltb_spec (P * Q) (2 * (r * Q)));
    try nia; done.
Qed.

Lemma floor_below_53 (M : positive) k :
  Zpos (digits2_pos M) - 53 <= k -> 0 <= k -> Zpos M / 2 ^ k < 2 ^ 53.
Proof.
  intros Hd Hk. destruct (digits2_pos_bounds M) as [_ Hup].
  apply Z.div_lt_upper_bound; [apply Z.pow_pos_nonneg; lia|].
  rewrite <- pow2_split by lia.
  eapply Z.lt_le_trans; [exact Hup|]. apply Z.pow_le_mono_r; lia.
Qed.

(** Rounding an exact positive number whose mantissa is too long for its
    exponent: the mantissa is shifted to the exponent of the format and
    rounded to nearest, ties to even; a carry into a 54th bit is taken into
    the exponent; beyond the largest exponent the result is infinite. *)
Lemma binary_round_aux_cases (M : positive) (E : Z) :
  E <= round_exponent M E ->
  1 <= rne_div (Zpos M) (round_exponent M E - E) ->
  exists m e,
    round_exponent M E <= e <= round_exponent M E + 1
    /\ Zpos m * 2 ^ (e - round_exponent M E)
       = rne_div (Zpos M) (round_exponent M E - E)
    /\ binary_round_aux prec emax false (Zpos M) E loc_Exact
       = if e <=? emax - prec then S754_finite false m e else S754_infinity false.
Proof.
  unfold round_exponent.
  set (d := Zpos (digits2_pos M)). set (e1 := Z.max (d + E - 53) (-1074)).
  intros Hk HR.
  assert (Hfloor : Zpos M / 2 ^ (e1 - E) < 2 ^ 53).
  { apply floor_below_53; fold d; lia. }
  pose proof (rne_div_bounds (Zpos M) (e1 - E) ltac:(lia)) as HRb.
  unfold binary_round_aux, shr_fexp, fexp, emin.
  cbn [Zdigits2 shr_record_of_loc]. fold d.
  change (Z.max (d + E - prec) (3 - emax - prec)) with e1.
  assert (Hstage1 : exists mrs1,
     shr {| shr_m := Zpos M; shr_r := false; shr_s := false |} E (e1 - E) = (mrs1, e1)
     /\ round_nearest_even (shr_m mrs1) (loc_of_shr_record mrs1)
        = rne_div (Zpos M) (e1 - E)).
  { destruct (Z.eq_dec (e1 - E) 0) as [H0|H0].
    - rewrite H0, rne_div_0.
      exists {| shr_m := Zpos M; shr_r := false; shr_s := false |}.
      split; [|reflexivity]. cbn [shr]. f_equal. lia.
    - destruct (shr_rne (Zpos M) E (e1 - E)) as (mrs1 & Hs & Hr); [lia|lia|].
      exists mrs1. rewrite Hs. split; [f_equal; lia|done]. }
  destruct Hstage1 as (mrs1 & -> & ->).
  set (R := rne_div (Zpos M) (e1 - E)) in *.
  destruct R as [|r|r] eqn:HRr; [lia| |lia].
  cbn [Zdigits2 shr_record_of_loc].
  set (d' := Zpos (digits2_pos r)).
  change (Z.max (d' + e1 - prec) (3 - emax - prec)) with (Z.max (d' + e1 - 53) (-1074)).
  destruct (digits2_pos_bounds r) as [Hd1 Hd2]. fold d' in Hd1, Hd2.
  assert (Hd' : d' <= 54).
  { apply digits_le_of_lt; [lia|].
    eapply Z.le_lt_trans with (2 ^ 53); [lia|]. apply Z.pow_lt_mono_r; lia. }
  destruct (shr_cases {| shr_m := Zpos r; shr_r := false; shr_s := false |} e1
               (Z.max (d' + e1 - 53) (-1074) - e1))
    as [[Hn Heq]|[Hn (mrs2 & Heq & Hm2)]]; [simpl; lia| |]; rewrite Heq.
  - cbn [shr_m]. exists r, e1. split; [lia|]. split; [|done].
    rewrite Z.sub_diag, Z.pow_0_r. lia.
  - assert (Hd54 : d' = 54) by lia.
    assert (Hn1 : Z.max (d' + e1 - 53) (-1074) - e1 = 1) by lia.
    rewrite Hn1 in *. cbn [shr_m] in Hm2.
    assert (Hr53 : Zpos r = 2 ^ 53).
    { rewrite Hd54 in Hd1. change (54 - 1) with 53 in Hd1. lia. }
    rewrite Hm2, Hr53.
    change (2 ^ 53 / 2 ^ 1) with (Zpos 4503599627370496).
    exists 4503599627370496%positive, (e1 + 1).
    split; [lia|]. split; [|done].
    replace (e1 + 1 - e1) with 1 by lia. reflexivity.
Qed.

Lemma binary_round_aux_rne (M : positive) (E : Z) :
  E <= round_exponent M E -> round_exponent M E < 0 ->
  1 <= rne_div (Zpos M) (round_exponent M E - E) ->
  exists m e,
    binary_round_aux prec emax false (Zpos M) E loc_Exact = S754_finite false m e
    /\ round_exponent M E <= e <= 0
    /\ Zpos m * 2 ^ (e + 1074) = rounded_scaled M E.
Proof.
  intros Hk He1 HR.
  destruct (binary_round_aux_cases M E Hk HR) as (m & e & He & Hv & Hr).
  exists m, e.
  assert (Hleb : (e <=? emax - prec) = true) by (apply Z.leb_le; unfold emax, prec; lia).
  rewrite Hleb in Hr. split; [done|]. split; [lia|].
  unfold rounded_scaled. rewrite <- Hv.
  assert (Hre : -1074 <= round_exponent M E) by (unfold round_exponent; lia).
  rewrite <- Z.mul_assoc, <- pow2_split by lia. do 2 f_equal. lia.
Qed.

Lemma ceil_scaled_mono W1 W2 : W1 <= W2 -> ceil_scaled W1 <= ceil_scaled W2.
Proof.
  intros H. unfold ceil_scaled.
  assert (Hp : 0 < 2 ^ 1074) by (apply Z.pow_pos_nonneg; lia).
  pose proof (Z.div_le_mono (- W2) (- W1) (2 ^ 1074) Hp ltac:(lia)). lia.
Qed.

Lemma ceil_scaled_exact n : ceil_scaled (n * 2 ^ 1074) = n.
Proof.
  unfold ceil_scaled.
  assert (Hp : 0 < 2 ^ 1074) by (apply Z.pow_pos_nonneg; lia).
  replace (- (n * 2 ^ 1074)) with ((- n) * 2 ^ 1074) by lia.
  rewrite Z.div_mul by lia. lia.
Qed.

(** [ceil] of a double, read off its value scaled by [2^1074]. *)
Lemma Zceil_scaled_value m e :
  -1074 <= e <= 0 -> Zceil_scaled m e = ceil_scaled (m * 2 ^ (e + 1074)).
Proof.
  intros He. unfold Zceil_scaled, ceil_scaled.
  assert (Hp : 0 < 2 ^ (e + 1074)) by (apply Z.pow_pos_nonneg; lia).
  destruct (Z.leb_spec 0 e) as [H0|H0].
  - assert (e = 0) as -> by lia.
    change (0 + 1074) with 1074. rewrite Z.pow_0_r, Z.mul_1_r.
    replace (- (m * 2 ^ 1074)) with ((- m) * 2 ^ 1074) by lia.
    rewrite Z.div_mul by lia. lia.
  - f_equal.
    replace (2 ^ 1074) with (2 ^ (- e) * 2 ^ (e + 1074))
      by (rewrite <- pow2_split by lia; f_equal; lia).
    replace (- (m * 2 ^ (e + 1074))) with ((- m) * 2 ^ (e + 1074)) by lia.
    rewrite Z.div_mul_cancel_r; [done| |lia].
    apply Z.pow_nonzero; lia.
Qed.

Lemma digits_gt_of_le m b : 0 <= b -> 2 ^ b <= Zpos m -> b < Zpos (digits2_pos m).
Proof.
  intros Hb Hm. destruct (digits2_pos_bounds m) as [_ Hup].
  apply (Z.pow_lt_mono_r_iff 2); lia.
Qed.

(** The rounded number is monotone in the exact one.  The exact numbers
    [M1 * 2^E1 <= M2 * 2^E2] are compared after scaling by [2^S]. *)
Lemma rounded_scaled_mono (M1 M2 : positive) E1 E2 S :
  E1 <= round_exponent M1 E1 -> E2 <= round_exponent M2 E2 ->
  0 <= E1 + S -> 0 <= E2 + S ->
  Zpos M1 * 2 ^ (E1 + S) <= Zpos M2 * 2 ^ (E2 + S) ->
  rounded_scaled M1 E1 <= rounded_scaled M2 E2.
Proof.
  unfold rounded_scaled, round_exponent.
  set (d1 := Zpos (digits2_pos M1)). set (d2 := Zpos (digits2_pos M2)).
  set (e1 := Z.max (d1 + E1 - 53) (-1074)). set (e2 := Z.max (d2 + E2 - 53) (-1074)).
  intros Hk1 Hk2 HS1 HS2 HY.
  destruct (digits2_pos_bounds M1) as [Hlo1 Hup1]. fold d1 in Hlo1, Hup1.
  destruct (digits2_pos_bounds M2) as [Hlo2 Hup2]. fold d2 in Hlo2, Hup2.
  assert (Hd1 : 1 <= d1) by (unfold d1; lia).
  assert (Hd2 : 1 <= d2) by (unfold d2; lia).
  pose proof (rne_div_bounds (Zpos M1) (e1 - E1) ltac:(lia)) as HR1.
  pose proof (rne_div_bounds (Zpos M2) (e2 - E2) ltac:(lia)) as HR2.
  destruct (Z.lt_trichotomy e1 e2) as [Hlt|[Heq|Hgt]].
  - (* the second number has the larger exponent: it is normal *)
    assert (He2 : e2 = d2 + E2 - 53) by lia.
    assert (Hfloor1 : Zpos M1 / 2 ^ (e1 - E1) < 2 ^ 53).
    { apply floor_below_53; fold d1; lia. }
    assert (Hfloor2 : 2 ^ 52 <= Zpos M2 / 2 ^ (e2 - E2)).
    { apply Z.div_le_lower_bound; [apply Z.pow_pos_nonneg; lia|].
      rewrite Z.mul_comm, <- pow2_split by lia.
      eapply Z.le_trans; [|exact Hlo2]. apply Z.pow_le_mono_r; lia. }
    assert (Hp1 : 0 < 2 ^ (e1 + 1074)) by (apply Z.pow_pos_nonneg; lia).
    assert (Hp2 : 2 ^ (e2 + 1074) = 2 ^ (e2 - e1 - 1) * (2 * 2 ^ (e1 + 1074))).
    { rewrite <- (Z.pow_succ_r 2 (e1 + 1074)), <- pow2_split by lia. f_equal. lia. }
    assert (Hp3 : 1 <= 2 ^ (e2 - e1 - 1)).
    { change 1 with (2 ^ 0). apply Z.pow_le_mono_r; lia. }
    rewrite Hp2.
    set (P := 2 ^ (e1 + 1074)) in *. set (Q := 2 ^ (e2 - e1 - 1)) in *.
    set (R1 := rne_div (Zpos M1) (e1 - E1)) in *.
    set (R2 := rne_div (Zpos M2) (e2 - E2)) in *.
    assert (H53 : 2 ^ 53 = 2 * 2 ^ 52) by reflexivity.
    set (T := 2 ^ 52) in *.
    assert (HR1' : R1 <= 2 * T) by lia.
    assert (HR2' : T <= R2) by lia.
    assert (R1 * P <= 2 * T * P) by nia.
    assert (T * (2 * P) <= R2 * (Q * (2 * P))) by nia.
    nia.
  - (* the same exponent: rounding at the same place *)
    rewrite <- Heq in *.
    assert (Hp : 0 <= 2 ^ (e1 + 1074)) by (apply Z.pow_nonneg; lia).
    apply Z.mul_le_mono_nonneg_r; [done|].
    rewrite <- (rne_div_scale (Zpos M1) (e1 - E1) (E1 + S)) by lia.
    rewrite <- (rne_div_scale (Zpos M2) (e1 - E2) (E2 + S)) by lia.
    replace (e1 - E1 + (E1 + S)) with (e1 + S) by lia.
    replace (e1 - E2 + (E2 + S)) with (e1 + S) by lia.
    apply rne_div_mono; [lia|done].
  - (* the first number cannot have the larger exponent *)
    exfalso.
    assert (He1 : e1 = d1 + E1 - 53) by lia.
    assert (Hd : d2 + E2 + S <= d1 - 1 + E1 + S) by lia.
    assert (H1 : 2 ^ (d1 - 1 + E1 + S) <= Zpos M1 * 2 ^ (E1 + S)).
    { replace (d1 - 1 + E1 + S) with ((d1 - 1) + (E1 + S)) by lia.
      rewrite (pow2_split (d1 - 1) (E1 + S)) by lia.
      apply Z.mul_le_mono_nonneg_r; [apply Z.pow_nonneg; lia|done]. }
    assert (H2 : Zpos M2 * 2 ^ (E2 + S) < 2 ^ (d2 + E2 + S)).
    { replace (d2 + E2 + S) with (d2 + (E2 + S)) by lia.
      rewrite (pow2_split d2 (E2 + S)) by lia.
      apply Z.mul_lt_mono_pos_r; [apply Z.pow_pos_nonneg; lia|done]. }
    assert (H3 : 2 ^ (d2 + E2 + S) <= 2 ^ (d1 - 1 + E1 + S))
      by (apply Z.pow_le_mono_r; lia).
    lia.
Qed.

(** The conversion of a positive [int] gives a normal double. *)
Lemma float8_of_int_normal n :
  1 <= n < 2 ^ 31 ->
  exists m e, float8_of_int n = S754_finite false m e
    /\ -52 <= e <= -22 /\ Zpos m = n * 2 ^ (- e) /\ Zpos (digits2_pos m) = 53.
Proof.
  intros Hn. destruct n as [|pn|pn]; [lia| |lia].
  unfold float8_of_int, binary_normalize, binary_round, shl_align, fexp, emin, prec, emax.
  set (d := Zpos (digits2_pos pn)).
  assert (Hd : 1 <= d <= 31).
  { split; [unfold d; lia|]. apply digits_le_of_lt; lia. }
  replace (Z.max (d + 0 - 53) (3 - 1024 - 53) - 0) with (d - 53) by lia.
  destruct (d - 53) as [|k|k] eqn:Hk; [lia|lia|].
  destruct (iter_xO_spec pn k) as [Hv Hdig].
  exists (Pos.iter xO pn k), (d - 53).
  replace (Z.max (d + 0 - 53) (3 - 1024 - 53)) with (d - 53) by lia.
  split; [|split; [lia|split]].
  - apply binary_round_aux_canonical; [|unfold emax, prec; lia].
    unfold canonical_mantissa, fexp, emin, prec, emax. apply Z.eqb_eq.
    rewrite Hdig, Pos2Z.inj_add. fold d. lia.
  - rewrite Hv. f_equal. f_equal. lia.
  - rewrite Hdig, Pos2Z.inj_add. fold d. lia.
Qed.

(** A valid positive finite double: its exponent and the length of its
    mantissa. *)
Lemma valid_finite_canonical s m e :
  valid_binary prec emax (S754_finite s m e) = true ->
  e = Z.max (Zpos (digits2_pos m) + e - 53) (-1074).
Proof.
  unfold valid_binary, bounded, canonical_mantissa, fexp, emin, prec, emax.
  intros [Hc%Z.eqb_eq _]%andb_true_iff. lia.
Qed.

(** The product of a converted [int] and a positive double at most 1 falls
    under [binary_round_aux_rne]. *)
Lemma rank_product_shape (mn mq : positive) en eq n :
  1 <= n < 2 ^ 31 -> -52 <= en <= -22 -> Zpos mn = n * 2 ^ (- en) ->
  Zpos (digits2_pos mn) = 53 ->
  -1074 <= eq <= 0 -> Zpos mq <= 2 ^ (- eq) ->
  let M := (mn * mq)%positive in
  let E := en + eq in
  E <= round_exponent M E /\ round_exponent M E < 0
  /\ 1 <= rne_div (Zpos M) (round_exponent M E - E).
Proof.
  intros Hn Hen Hmn Hdn Heq Hmq M E. unfold round_exponent.
  set (d := Zpos (digits2_pos M)).
  destruct (digits2_pos_bounds M) as [Hlo Hup]. fold d in Hlo, Hup.
  destruct (digits2_pos_bounds mn) as [Hlon Hupn]. rewrite Hdn in Hlon, Hupn.
  change (53 - 1) with 52 in Hlon.
  assert (HM : Zpos M = Zpos mn * Zpos mq) by (unfold M; lia).
  assert (Hpn : 0 < 2 ^ (- en)) by (apply Z.pow_pos_nonneg; lia).
  assert (Hpq : 0 < 2 ^ (- eq)) by (apply Z.pow_pos_nonneg; lia).
  assert (Hd53 : 52 < d).
  { apply digits_gt_of_le; [lia|]. nia. }
  assert (HdE : d + E <= 31).
  { assert (HMle : Zpos M <= n * 2 ^ (- E)).
    { unfold E. replace (- (en + eq)) with (- en + - eq) by lia.
      rewrite pow2_split by lia. rewrite HM, Hmn. nia. }
    pose proof (lt_pow2_31 (Zpos M) E n ltac:(unfold E; lia) Hn HMle).
    pose proof (digits_le_of_lt M (31 - E) ltac:(unfold E; lia)). unfold d. lia. }
  split; [lia|]. split; [lia|].
  set (e1 := Z.max (d + E - 53) (-1074)).
  pose proof (rne_div_bounds (Zpos M) (e1 - E) ltac:(lia)) as HR.
  assert (Hfloor : 1 <= Zpos M / 2 ^ (e1 - E)).
  { apply Z.div_le_lower_bound; [apply Z.pow_pos_nonneg; lia|].
    rewrite Z.mul_1_r.
    destruct (Z.max_spec (d + E - 53) (-1074)) as [[_ Hmx]|[_ Hmx]]; fold e1 in Hmx.
    - (* subnormal result *)
      eapply Z.le_trans with (2 ^ (- en)); [apply Z.pow_le_mono_r; unfold E in *; lia|].
      rewrite HM, Hmn. nia.
    - eapply Z.le_trans; [|exact Hlo]. apply Z.pow_le_mono_r; lia. }
  lia.
Qed.

(** The rank computed in doubles, read off the exact product. *)
Lemma int_of_ceil_product (mn mq : positive) en eq n :
  1 <= n < 2 ^ 31 -> -52 <= en <= -22 -> Zpos mn = n * 2 ^ (- en) ->
  Zpos (digits2_pos mn) = 53 ->
  -1074 <= eq <= 0 -> Zpos mq <= 2 ^ (- eq) ->
  exists m e,
    float8_mul (S754_finite false mn en) (S754_finite false mq eq)
      = S754_finite false m e
    /\ Zceil_scaled (Zpos m) e
       = ceil_scaled (rounded_scaled (mn * mq) (en + eq)).
Proof.
  intros Hn Hen Hmn Hdn Heq Hmq.
  destruct (rank_product_shape mn mq en eq n Hn Hen Hmn Hdn Heq Hmq) as (H1 & H2 & H3).
  destruct (binary_round_aux_rne (mn * mq) (en + eq) H1 H2 H3) as (m & e & Hr & He & Hv).
  exists m, e. split.
  - unfold float8_mul, SFmul. cbn [xorb]. exact Hr.
  - rewrite Zceil_scaled_value; [by rewrite Hv|].
    unfold round_exponent in He. lia.
Qed.

(** Multiplying by 1 is exact: over [n] entries the probability 1 has rank
    [n]. *)
Lemma int_of_ceil_times_one n :
  1 <= n <= INT_MAX ->
  int_of_ceil (float8_mul (float8_of_int n) float8_one) = Some n.
Proof.
  intros Hn. assert (Hn' : 1 <= n < 2 ^ 31) by (unfold INT_MAX in Hn; lia).
  destruct (float8_of_int_normal n Hn') as (mn & en & -> & Hen & Hmn & Hdn).
  unfold float8_one.
  destruct (int_of_ceil_product mn 4503599627370496 en (-52) n Hn' Hen Hmn Hdn)
    as (m & e & -> & Hc); [lia|reflexivity|].
  unfold int_of_ceil. cbn [cond_Zopp]. rewrite Hc.
  assert (Hval : rounded_scaled (mn * 4503599627370496) (en + -52) = n * 2 ^ 1074).
  { unfold rounded_scaled, round_exponent.
    assert (Hdig : Zpos (digits2_pos (mn * 4503599627370496)) = 105).
    { change 4503599627370496%positive with (Pos.iter xO 1%positive 52).
      assert (Hgen : forall k, (mn * Pos.iter xO 1 k = Pos.iter xO mn k)%positive).
      { intros k. induction k as [|k IH] using Pos.peano_ind.
        - simpl. lia.
        - rewrite !Pos.iter_succ. lia. }
      rewrite Hgen. destruct (iter_xO_spec mn 52) as [_ ->]. lia. }
    rewrite Hdig.
    replace (Z.max (105 + (en + -52) - 53) (-1074)) with en by lia.
    replace (en - (en + -52)) with (0 + 52) by lia.
    replace (Zpos (mn * 4503599627370496)) with (Zpos mn * 2 ^ 52) by (by rewrite Pos2Z.inj_mul).
    rewrite rne_div_scale, rne_div_0 by lia.
    rewrite Hmn, <- Z.mul_assoc, <- pow2_split by lia.
    do 2 f_equal. lia. }
  rewrite Hval, ceil_scaled_exact.
  assert (Hrange : (INT_MIN <=? n) && (n <=? INT_MAX) = true).
  { apply andb_true_iff. unfold INT_MIN, INT_MAX in *. split; apply Z.leb_le; lia. }
  by rewrite Hrange.
Qed.

(** ** The order of the doubles *)

Lemma float8_le_not_nan x y :
  float8_le x y = true -> is_nan x = false /\ is_nan y = false.
Proof. by destruct x, y. Qed.

(** [x <= y < z] gives [x < z]. *)
Lemma float8_le_lt_trans x y z :
  float8_le x y = true -> float8_lt y z = true -> float8_lt x z = true.
Proof.
  intros Hxy Hyz.
  destruct (float8_le_not_nan x y Hxy) as [Hx Hy].
  assert (Hz : is_nan z = false) by (by destruct y, z).
  apply (float8_le_key x y Hx Hy) in Hxy.
  apply (float8_lt_key y z Hy Hz) in Hyz.
  apply (float8_lt_key x z Hx Hz).
  unfold lex_lt in *. lia.
Qed.

Lemma float8_lt_le_trans x y z :
  float8_lt x y = true -> float8_le y z = true -> float8_lt x z = true.
Proof.
  intros Hxy Hyz.
  destruct (float8_le_not_nan y z Hyz) as [Hy Hz].
  assert (Hx : is_nan x = false) by (by destruct x).
  apply (float8_lt_key x y Hx Hy) in Hxy.
  apply (float8_le_key y z Hy Hz) in Hyz.
  apply (float8_lt_key x z Hx Hz).
  unfold lex_lt in *. lia.
Qed.

(** The order of two valid positive finite doubles is the order of the
    numbers they stand for. *)
Lemma float8_le_value mq1 eq1 mq2 eq2 :
  valid_binary prec emax (S754_finite false mq1 eq1) = true ->
  valid_binary prec emax (S754_finite false mq2 eq2) = true ->
  float8_le (S754_finite false mq1 eq1) (S754_finite false mq2 eq2) = true ->
  Zpos mq1 * 2 ^ (eq1 + 1074) <= Zpos mq2 * 2 ^ (eq2 + 1074).
Proof.
  intros Hv1%valid_finite_canonical Hv2%valid_finite_canonical Hle.
  destruct (digits2_pos_bounds mq1) as [Hlo1 Hup1].
  destruct (digits2_pos_bounds mq2) as [Hlo2 Hup2].
  set (d1 := Zpos (digits2_pos mq1)) in *. set (d2 := Zpos (digits2_pos mq2)) in *.
  assert (Hd1 : 1 <= d1) by (unfold d1; lia).
  assert (Hd2 : 1 <= d2) by (unfold d2; lia).
  unfold float8_le, SFleb in Hle. cbn [SFcompare] in Hle.
  destruct (Z.compare_spec eq1 eq2) as [He|He|He]; [| |discriminate].
  - subst eq2. rewrite Pos.compare_cont_spec in Hle.
    destruct (Pos.compare_spec mq1 mq2) as [Hm|Hm|Hm];
      cbn [Pos.switch_Eq] in Hle; try discriminate;
      apply Z.mul_le_mono_nonneg_r; try (apply Z.pow_nonneg; lia); lia.
  - assert (Hn2 : d2 = 53) by lia.
    assert (Hle1 : d1 <= 53) by lia.
    assert (Hm1 : Zpos mq1 < 2 ^ 53).
    { eapply Z.lt_le_trans; [exact Hup1|]. apply Z.pow_le_mono_r; lia. }
    rewrite Hn2 in Hlo2. change (53 - 1) with 52 in Hlo2.
    assert (Hp1 : 0 < 2 ^ (eq1 + 1074)) by (apply Z.pow_pos_nonneg; lia).
    assert (Hp2 : 2 ^ (eq2 + 1074) = 2 ^ (eq2 - eq1 - 1) * (2 * 2 ^ (eq1 + 1074))).
    { rewrite <- (Z.pow_succ_r 2 (eq1 + 1074)), <- pow2_split by lia. f_equal. lia. }
    assert (Hp3 : 1 <= 2 ^ (eq2 - eq1 - 1)).
    { change 1 with (2 ^ 0). apply Z.pow_le_mono_r; lia. }
    rewrite Hp2.
    assert (H53 : 2 ^ 53 = 2 * 2 ^ 52) by reflexivity.
    set (T := 2 ^ 52) in *. set (P := 2 ^ (eq1 + 1074)) in *.
    set (Q := 2 ^ (eq2 - eq1 - 1)) in *.
    assert (Zpos mq1 * P <= 2 * T * P) by nia.
    assert (T * (2 * P) <= Zpos mq2 * (Q * (2 * P))) by nia.
    nia.
Qed.

Lemma ceil_scaled_pos W : 1 <= W -> 1 <= ceil_scaled W.
Proof.
  intros HW. unfold ceil_scaled.
  assert (Hp : 0 < 2 ^ 1074) by (apply Z.pow_pos_nonneg; lia).
  assert ((- W) / 2 ^ 1074 < 0); [|lia].
  apply Z.div_lt_upper_bound; lia.
Qed.

(** The rank computed in doubles is monotone in the probability. *)
Lemma int_of_ceil_mono n q1 q2 :
  1 <= n <= INT_MAX ->
  valid_binary prec emax q1 = true -> valid_binary prec emax q2 = true ->
  float8_lt float8_zero q1 = true -> float8_le q1 q2 = true ->
  float8_lt q2 float8_one = true ->
  exists c1 c2,
    int_of_ceil (float8_mul (float8_of_int n) q1) = Some c1
    /\ int_of_ceil (float8_mul (float8_of_int n) q2) = Some c2
    /\ 1 <= c1 /\ c1 <= c2 /\ c2 <= n.
Proof.
  intros Hn Hv1 Hv2 H01 H12 H21.
  assert (Hn' : 1 <= n < 2 ^ 31) by (unfold INT_MAX in Hn; lia).
  pose proof (float8_lt_le_trans _ _ _ H01 H12) as H02.
  pose proof (float8_le_lt_trans _ _ _ H12 H21) as H11.
  destruct (float8_open_unit q1 Hv1 H01 H11) as (mq1 & eq1 & -> & He1 & Hm1).
  destruct (float8_open_unit q2 Hv2 H02 H21) as (mq2 & eq2 & -> & He2 & Hm2).
  destruct (int_of_ceil_rank_bounds n _ Hn Hv1 H01 H11) as (c1 & Hc1 & Hb1).
  destruct (int_of_ceil_rank_bounds n _ Hn Hv2 H02 H21) as (c2 & Hc2 & Hb2).
  exists c1, c2. split; [done|]. split; [done|]. split; [lia|]. split; [|lia].
  pose proof (float8_le_value mq1 eq1 mq2 eq2 Hv1 Hv2 H12) as Hval.
  revert Hc1 Hc2.
  destruct (float8_of_int_normal n Hn') as (mn & en & -> & Hen & Hmn & Hdn).
  destruct (int_of_ceil_product mn mq1 en eq1 n Hn' Hen Hmn Hdn)
    as (m1 & e1 & -> & Hz1); [lia|lia|].
  destruct (int_of_ceil_product mn mq2 en eq2 n Hn' Hen Hmn Hdn)
    as (m2 & e2 & -> & Hz2); [lia|lia|].
  unfold int_of_ceil. cbn [cond_Zopp]. rewrite Hz1, Hz2.
  destruct (_ && _); [|discriminate]. intros [= <-].
  destruct (_ && _); [|discriminate]. intros [= <-].
  apply ceil_scaled_mono.
  destruct (rank_product_shape mn mq1 en eq1 n Hn' Hen Hmn Hdn) as (Hk1 & _ & _);
    [lia|lia|].
  destruct (rank_product_shape mn mq2 en eq2 n Hn' Hen Hmn Hdn) as (Hk2 & _ & _);
    [lia|lia|].
  apply (rounded_scaled_mono _ _ _ _ 1126 Hk1 Hk2); [lia|lia|].
  rewrite !Pos2Z.inj_mul.
  replace (en + eq1 + 1126) with ((en + 52) + (eq1 + 1074)) by lia.
  replace (en + eq2 + 1126) with ((en + 52) + (eq2 + 1074)) by lia.
  rewrite (pow2_split (en + 52) (eq1 + 1074)), (pow2_split (en + 52) (eq2 + 1074))
    by lia.
  assert (Hp : 0 <= 2 ^ (en + 52)) by (apply Z.pow_nonneg; lia).
  set (P := 2 ^ (en + 52)) in *.
  set (A := 2 ^ (eq1 + 1074)) in *. set (B := 2 ^ (eq2 + 1074)) in *.
  assert (Hmp : 0 <= Zpos mn * P) by (apply Z.mul_nonneg_nonneg; lia).
  pose proof (Z.mul_le_mono_nonneg_l _ _ (Zpos mn * P) Hmp Hval) as Hmul.
  set (X := Zpos mn) in *. set (Y1 := Zpos mq1) in *. set (Y2 := Zpos mq2) in *.
  clearbody X Y1 Y2 P A B.
  replace (X * Y1 * (P * A)) with (X * P * (Y1 * A)) by ring.
  replace (X * Y2 * (P * B)) with (X * P * (Y2 * B)) by ring.
  exact Hmul.
Qed.

(** The index of the nearest-rank rule is monotone in the probability. *)
Lemma nearest_rank_mono n q1 q2 idx1 idx2 :
  1 <= n <= INT_MAX ->
  valid_binary prec emax q1 = true -> valid_binary prec emax q2 = true ->
  float8_le q1 q2 = true ->
  nearest_rank n q1 = Some idx1 -> nearest_rank n q2 = Some idx2 ->
  idx1 <= idx2.
Proof.
  intros Hn Hv1 Hv2 Hle H1 H2.
  destruct (float8_le_not_nan q1 q2 Hle) as [Hnan1 Hnan2].
  destruct (nearest_rank_defined n q1 Hn Hv1 Hnan1) as (i1 & Hi1 & Hr1).
  destruct (nearest_rank_defined n q2 Hn Hv2 Hnan2) as (i2 & Hi2 & Hr2).
  assert (i1 = idx1) as -> by congruence. assert (i2 = idx2) as -> by congruence.
  clear Hi1 Hi2.
  destruct (float8_le q1 float8_zero) eqn:Hlow.
  { rewrite (nearest_rank_low n q1 Hlow) in H1. injection H1 as <-. lia. }
  destruct (float8_le float8_one q2) eqn:Hhigh.
  { rewrite (nearest_rank_high n q2 Hhigh) in H2. injection H2 as <-. lia. }
  destruct (float8_not_nan_cases q1 Hnan1) as [[H01|H01] _]; [|congruence].
  destruct (float8_not_nan_cases q2 Hnan2) as [_ [H21|H21]]; [|congruence].
  destruct (int_of_ceil_mono n q1 q2 Hn Hv1 Hv2 H01 Hle H21)
    as (c1 & c2 & Hc1 & Hc2 & Hb).
  pose proof (float8_lt_le_trans _ _ _ H01 Hle) as H02.
  pose proof (float8_le_lt_trans _ _ _ Hle H21) as H11.
  unfold nearest_rank in H1, H2.
  rewrite H01, H11, Hc1 in H1. rewrite H02, H21, Hc2 in H2.
  simpl in H1, H2. injection H1 as <-. injection H2 as <-. lia.
Qed.

(** The scalar final functions of the integer and numeric domains return
    the entry at index [n - 1] of the sorted buffer for the probability 1:
    the product [n * 1.0] is exact.  The value returned is one of the
    accumulated values, and where the comparator orders them it is a
    greatest one: no value compares greater. *)
Theorem scalar_final_at_one D fname m data (st : struct_T D) vals qs :
  sized D -> m !! data = Some st -> holds st vals -> requests st qs -> vals <> [] ->
  qs !! 0%nat = Some float8_one ->
  exists v,
    int_of_ceil (float8_mul (float8_of_int (Z.of_nat (length vals))) float8_one)
      = Some (Z.of_nat (length vals))
    /\ (quantile_T D fname true (Some data) m).1 = Done (Some v)
    /\ v ∈ vals
    /\ (ordersb (comparator D) vals = true ->
        forall x, x ∈ vals -> cmp_le (comparator D) x v).
Proof.
  intros HD Hm Hh Hr Hne Hq.
  pose proof (holds_bounds D HD st vals Hh) as [Hb1 Hb2].
  assert (Hlen : 1 <= Z.of_nat (length vals) <= INT_MAX).
  { destruct Hh as [Hn _ _ _]. destruct vals; [done|].
    simpl length in *. unfold INT_MAX. lia. }
  destruct (quantile_T_ceil D HD fname m data st vals qs float8_one _ Hm Hh Hr Hq
              eq_refl (int_of_ceil_times_one _ Hlen)) as (v & Hv & Hrun); [lia|].
  replace (Z.to_nat (Z.of_nat (length vals) - 1)) with (length vals - 1)%nat in Hv by lia.
  exists v. split; [by apply int_of_ceil_times_one|]. split; [by rewrite Hrun|].
  split; [by eapply pg_qsort_lookup_elem_of|].
  intros Hord x Hx.
  assert (Hn : (0 < length vals)%nat) by lia.
  destruct (lookup_lt_is_Some_2 (pg_qsort (comparator D) vals) 0) as [lo Hlo];
    [rewrite pg_qsort_length; lia|].
  by destruct (sorted_ends (comparator D) vals lo v x Hord Hlo Hv Hx).
Qed.

Lemma scalar_final_at_one_witness :
  exists v,
    int_of_ceil (float8_mul (float8_of_int (Z.of_nat (length sample_ints))) float8_one)
      = Some (Z.of_nat (length sample_ints))
    /\ (quantile_int32 true (Some 1%positive) (sample_memory_int32 [float8_one])).1
       = Done (Some v)
    /\ v ∈ sample_ints
    /\ (ordersb int32_comparator sample_ints = true ->
        forall x, x ∈ sample_ints -> cmp_le int32_comparator x v).
Proof.
  apply (scalar_final_at_one int32_domain "quantile_int32"
           (sample_memory_int32 [float8_one]) 1%positive
           (sample_struct_int32 [float8_one]) sample_ints [float8_one]).
  - unfold sized. simpl. lia.
  - apply lookup_singleton_eq.
  - apply struct_after_holds. vm_compute. discriminate.
  - split; [reflexivity|reflexivity|vm_compute; discriminate|reflexivity].
  - discriminate.
  - reflexivity.
Defined.

(** The values returned are monotone in the probabilities: where the
    comparator orders the accumulated values, a probability that is not
    above another one never gets a value that compares greater.  The
    rounding of the double product cannot reverse two ranks. *)
Theorem quantiles_are_monotone D fname m data (st : struct_T D) vals qs :
  sized D -> m !! data = Some st -> holds st vals -> requests st qs -> vals <> [] ->
  ordersb (comparator D) vals = true ->
  exists res,
    (quantile_T_array D fname true (Some data) m).1 = Done (Some res)
    /\ forall (i j : nat) q1 q2 v1 v2,
         qs !! i = Some q1 -> qs !! j = Some q2 -> float8_le q1 q2 = true ->
         res !! i = Some v1 -> res !! j = Some v2 ->
         cmp_le (comparator D) v1 v2.
Proof.
  intros HD Hm Hh Hr Hne Hord.
  destruct (quantile_T_array_run D HD fname m data st vals qs Hm Hh Hr Hne)
    as (res & Hrun & Hlen & Hres).
  exists res. split; [by rewrite Hrun|].
  intros i j q1 q2 v1 v2 Hq1 Hq2 Hle Hv1 Hv2.
  pose proof (holds_bounds D HD st vals Hh) as [Hb1 Hb2].
  assert (Hn : 1 <= Z.of_nat (length vals) <= INT_MAX).
  { destruct Hh as [Hnx _ _ _]. destruct vals; [done|].
    simpl length in *. unfold INT_MAX. lia. }
  destruct (float8_le_not_nan q1 q2 Hle) as [Hnan1 Hnan2].
  pose proof (requests_valid_at D st qs i q1 Hr Hq1) as Hval1.
  pose proof (requests_valid_at D st qs j q2 Hr Hq2) as Hval2.
  destruct (nearest_rank_defined _ q1 Hn Hval1 Hnan1) as (idx1 & Hidx1 & Hr1).
  destruct (nearest_rank_defined _ q2 Hn Hval2 Hnan2) as (idx2 & Hidx2 & Hr2).
  pose proof (nearest_rank_mono _ q1 q2 idx1 idx2 Hn Hval1 Hval2 Hle Hidx1 Hidx2) as Hmono.
  destruct (Hres i q1 idx1 Hq1 Hidx1) as [_ Hi].
  destruct (Hres j q2 idx2 Hq2 Hidx2) as [_ Hj].
  rewrite Hv1 in Hi. rewrite Hv2 in Hj.
  apply (sorted_lookup_le (comparator D) vals (Z.to_nat idx1) (Z.to_nat idx2)); auto.
  lia.
Qed.

Lemma quantiles_are_monotone_witness :
  exists res,
    (quantile_int32_array true (Some 1%positive)
       (sample_memory_int32 [float8_half; float8_quarter; float8_one])).1
      = Done (Some res)
    /\ forall (i j : nat) q1 q2 v1 v2,
         [float8_half; float8_quarter; float8_one] !! i = Some q1 ->
         [float8_half; float8_quarter; float8_one] !! j = Some q2 ->
         float8_le q1 q2 = true ->
         res !! i = Some v1 -> res !! j = Some v2 ->
         cmp_le int32_comparator v1 v2.
Proof.
  apply (quantiles_are_monotone int32_domain "quantile_int32_array"
           (sample_memory_int32 [float8_half; float8_quarter; float8_one]) 1%positive
           (sample_struct_int32 [float8_half; float8_quarter; float8_one]) sample_ints
           [float8_half; float8_quarter; float8_one]).
  - unfold sized. simpl. lia.
  - apply lookup_singleton_eq.
  - apply struct_after_holds. vm_compute. discriminate.
  - split; [reflexivity|reflexivity|vm_compute; discriminate|reflexivity].
  - discriminate.
  - reflexivity.
Defined.

(** A valid double above 1 is infinite or stands for a number of at least
    [1 + 2^-52]. *)
Lemma float8_above_one q :
  valid_binary prec emax q = true -> float8_lt float8_one q = true ->
  q = S754_infinity false
  \/ exists mq eq, q = S754_finite false mq eq
       /\ -52 <= eq /\ 2 ^ 52 + 1 <= Zpos mq * 2 ^ (eq + 52).
Proof.
  intros Hv Hlt. destruct q as [s|s| |s mq eq]; try discriminate.
  - destruct s; [discriminate|by left].
  - destruct s; [discriminate|]. right. exists mq, eq. split; [done|].
    apply valid_finite_canonical in Hv.
    destruct (digits2_pos_bounds mq) as [Hlo Hup].
    set (d := Zpos (digits2_pos mq)) in *.
    unfold float8_lt, SFltb, float8_one in Hlt. cbn [SFcompare] in Hlt.
    destruct (Z.compare_spec (-52) eq) as [He|He|He]; try discriminate.
    + subst eq. split; [lia|].
      rewrite Pos.compare_cont_spec in Hlt.
      destruct (Pos.compare_spec 4503599627370496 mq) as [Hm|Hm|Hm];
        cbn [Pos.switch_Eq] in Hlt; try discriminate.
      change (-52 + 52) with 0. rewrite Z.pow_0_r, Z.mul_1_r.
      change (2 ^ 52) with (Zpos 4503599627370496). lia.
    + split; [lia|].
      assert (Hd : d = 53) by lia.
      rewrite Hd in Hlo. change (53 - 1) with 52 in Hlo.
      assert (Hp : 2 <= 2 ^ (eq + 52)).
      { change 2 with (2 ^ 1) at 1. apply Z.pow_le_mono_r; lia. }
      assert (0 < 2 ^ 52) by (apply Z.pow_pos_nonneg; lia).
      nia.
Qed.

(** The least double above 1 times [n] rounds to a double above [n]. *)
Lemma rounded_scaled_above (mn : positive) en n :
  1 <= n -> -52 <= en <= -22 -> Zpos mn = n * 2 ^ (- en) ->
  Zpos (digits2_pos mn) = 53 ->
  n * 2 ^ 1074 < rounded_scaled (mn * 4503599627370497) (en - 52).
Proof.
  intros Hn Hen Hmn Hdn.
  destruct (digits2_pos_bounds mn) as [Hlon Hupn]. rewrite Hdn in Hlon, Hupn.
  change (53 - 1) with 52 in Hlon.
  assert (H53 : 2 ^ 53 = 2 * 2 ^ 52) by reflexivity.
  assert (HM : Zpos (mn * 4503599627370497) = Zpos mn * 2 ^ 52 + Zpos mn).
  { rewrite Pos2Z.inj_mul. change (Zpos 4503599627370497) with (2 ^ 52 + 1). ring. }
  assert (Hp52 : 0 < 2 ^ 52) by (apply Z.pow_pos_nonneg; lia).
  unfold rounded_scaled, round_exponent.
  destruct (digits2_pos_bounds (mn * 4503599627370497)) as [Hlo Hup].
  set (d := Zpos (digits2_pos (mn * 4503599627370497))) in *.
  rewrite HM in *.
  assert (H104 : 2 ^ 104 = 2 ^ 52 * 2 ^ 52) by reflexivity.
  assert (H106 : 2 ^ 106 = 2 ^ 53 * 2 ^ 53) by reflexivity.
  assert (Hd : d = 105 \/ d = 106).
  { assert (104 < d).
    { apply (Z.pow_lt_mono_r_iff 2); [lia|unfold d; lia|].
      eapply Z.le_lt_trans; [|exact Hup]. rewrite H104. nia. }
    assert (d - 1 < 106).
    { apply (Z.pow_lt_mono_r_iff 2); [lia|lia|].
      eapply Z.le_lt_trans; [exact Hlo|]. rewrite H106, H53. nia. }
    lia. }
  assert (Hpe : 0 < 2 ^ (en + 1074)) by (apply Z.pow_pos_nonneg; lia).
  assert (Hn1074 : n * 2 ^ 1074 = Zpos mn * 2 ^ (en + 1074)).
  { rewrite Hmn, <- Z.mul_assoc, <- pow2_split by lia. do 2 f_equal. lia. }
  rewrite Hn1074.
  destruct Hd as [Hd|Hd]; rewrite Hd.
  - replace (Z.max (105 + (en - 52) - 53) (-1074)) with en by lia.
    replace (en - (en - 52)) with 52 by lia.
    pose proof (rne_div_bounds (Zpos mn * 2 ^ 52 + Zpos mn) 52 ltac:(lia)) as [HR _].
    rewrite Z.div_add_l in HR by lia.
    assert (Hq : Zpos mn / 2 ^ 52 = 1).
    { symmetry. apply Z.div_unique with (Zpos mn - 2 ^ 52); lia. }
    rewrite Hq in HR.
    apply Z.mul_lt_mono_pos_r; [done|lia].
  - replace (Z.max (106 + (en - 52) - 53) (-1074)) with (en + 1) by lia.
    replace (en + 1 - (en - 52)) with 53 by lia.
    pose proof (rne_div_bounds (Zpos mn * 2 ^ 52 + Zpos mn) 53 ltac:(lia)) as [HR _].
    assert (Hfl : 2 ^ 52 <= (Zpos mn * 2 ^ 52 + Zpos mn) / 2 ^ 53).
    { apply Z.div_le_lower_bound; [apply Z.pow_pos_nonneg; lia|].
      rewrite Hd in Hlo. change (106 - 1) with 105 in Hlo.
      change (2 ^ 53 * 2 ^ 52) with (2 ^ 105). lia. }
    replace (en + 1 + 1074) with (1 + (en + 1074)) by lia.
    rewrite (pow2_split 1 (en + 1074)) by lia. change (2 ^ 1) with 2.
    set (P := 2 ^ (en + 1074)) in *. set (T := 2 ^ 52) in *.
    set (R := rne_div (Zpos mn * T + Zpos mn) 53) in *.
    assert (T <= R) by lia.
    assert (Zpos mn * P < 2 * T * P) by nia.
    assert (T * (2 * P) <= R * (2 * P)) by nia.
    lia.
Qed.

Lemma ceil_scaled_above n W : n * 2 ^ 1074 < W -> n < ceil_scaled W.
Proof.
  intros HW. unfold ceil_scaled.
  assert (Hp : 0 < 2 ^ 1074) by (apply Z.pow_pos_nonneg; lia).
  assert ((- W) / 2 ^ 1074 < - n); [|lia].
  apply Z.div_lt_upper_bound; lia.
Qed.

(** Over [n >= 1] entries a probability above 1 has no rank within the
    buffer: the conversion to [int] is undefined or gives more than [n]. *)
Lemma int_of_ceil_beyond_one n q :
  1 <= n <= INT_MAX -> valid_binary prec emax q = true ->
  float8_lt float8_one q = true ->
  forall c, int_of_ceil (float8_mul (float8_of_int n) q) = Some c -> n < c.
Proof.
  intros Hn Hv Hlt c.
  assert (Hn' : 1 <= n < 2 ^ 31) by (unfold INT_MAX in Hn; lia).
  destruct (float8_of_int_normal n Hn') as (mn & en & -> & Hen & Hmn & Hdn).
  destruct (float8_above_one q Hv Hlt) as [-> |(mq & eq & -> & Heq & Hval)].
  { discriminate. }
  unfold float8_mul, SFmul. cbn [xorb].
  destruct (digits2_pos_bounds mn) as [Hlon Hupn]. rewrite Hdn in Hlon, Hupn.
  change (53 - 1) with 52 in Hlon.
  set (M := (mn * mq)%positive). set (E := en + eq).
  destruct (digits2_pos_bounds M) as [Hlo Hup].
  assert (HM : Zpos M = Zpos mn * Zpos mq) by (unfold M; lia).
  assert (Hd53 : 52 < Zpos (digits2_pos M)).
  { apply digits_gt_of_le; [lia|]. nia. }
  (* the product is at least 1, so the result is normal *)
  assert (Hp52 : 0 < 2 ^ 52) by (apply Z.pow_pos_nonneg; lia).
  assert (Hpq : 0 < 2 ^ (eq + 52)) by (apply Z.pow_pos_nonneg; lia).
  assert (Hbig : 2 ^ (- E) <= Zpos M).
  { destruct (Z.le_gt_cases 0 E) as [HE|HE].
    - assert (2 ^ (- E) <= 1); [|lia].
      destruct (Z.eq_dec E 0) as [-> |]; [done|].
      rewrite Z.pow_neg_r by lia. lia.
    - assert (Hs : 2 ^ 52 = 2 ^ (eq + 52) * 2 ^ (- eq) \/ 0 < eq).
      { destruct (Z.le_gt_cases eq 0); [left|by right].
        rewrite <- pow2_split by lia. f_equal. lia. }
      assert (Hsplit : 2 ^ (- E) * 2 ^ (eq + 52) = 2 ^ (- en) * 2 ^ 52).
      { rewrite <- !pow2_split by (unfold E in *; lia). f_equal. unfold E. lia. }
      assert (Hpn : 0 < 2 ^ (- en)) by (apply Z.pow_pos_nonneg; lia).
      assert (Hpe : 0 < 2 ^ (- E)) by (apply Z.pow_pos_nonneg; lia).
      rewrite HM, Hmn.
      apply (Z.mul_le_mono_pos_r _ _ (2 ^ (eq + 52))); [done|].
      rewrite Hsplit.
      set (A := 2 ^ (- en)) in *. set (B := 2 ^ (eq + 52)) in *. set (T := 2 ^ 52) in *.
      assert (HT : T <= Zpos mq * B) by lia.
      assert (HU : 0 <= A * (Zpos mq * B)).
      { apply Z.mul_nonneg_nonneg; [lia|]. apply Z.mul_nonneg_nonneg; lia. }
      transitivity (A * (Zpos mq * B)); [apply Z.mul_le_mono_nonneg_l; lia|].
      replace (n * A * Zpos mq * B) with (n * (A * (Zpos mq * B))) by ring.
      set (U := A * (Zpos mq * B)) in *. clearbody U. clear - HU Hn'. nia. }
  assert (HdE : 1 <= Zpos (digits2_pos M) + E).
  { destruct (Z.le_gt_cases 0 E) as [HE|HE]; [lia|].
    assert (- E < Zpos (digits2_pos M)); [|lia].
    apply (Z.pow_lt_mono_r_iff 2); lia. }
  assert (Hre : round_exponent M E = Zpos (digits2_pos M) + E - 53)
    by (unfold round_exponent; lia).
  assert (Hk : E <= round_exponent M E) by lia.
  assert (Hfloor : 2 ^ 52 <= Zpos M / 2 ^ (round_exponent M E - E)).
  { apply Z.div_le_lower_bound; [apply Z.pow_pos_nonneg; lia|].
    rewrite Z.mul_comm, <- pow2_split by lia.
    eapply Z.le_trans; [|exact Hlo]. apply Z.pow_le_mono_r; lia. }
  pose proof (rne_div_bounds (Zpos M) (round_exponent M E - E) ltac:(lia)) as HR.
  destruct (binary_round_aux_cases M E Hk ltac:(lia)) as (m & e & He & Hv' & ->).
  destruct (e <=? emax - prec); [|discriminate].
  unfold int_of_ceil. cbn [cond_Zopp].
  destruct (_ && _); [|discriminate]. intros [= <-].
  destruct (Z.le_gt_cases 0 e) as [He0|He0].
  - (* an integer of at least 2^51 *)
    unfold Zceil_scaled. apply Z.leb_le in He0 as Hleb. rewrite Hleb.
    assert (Hm : 2 ^ 51 <= Zpos m).
    { assert (Hp : 2 ^ (e - round_exponent M E) <= 2).
      { change 2 with (2 ^ 1) at 2. apply Z.pow_le_mono_r; lia. }
      assert (0 < 2 ^ (e - round_exponent M E)) by (apply Z.pow_pos_nonneg; lia).
      change (2 ^ 52) with (2 * 2 ^ 51) in Hfloor.
      assert (0 < 2 ^ 51) by (apply Z.pow_pos_nonneg; lia).
      nia. }
    assert (H31 : 2 ^ 31 <= 2 ^ 51) by (apply Z.pow_le_mono_r; lia).
    assert (1 <= 2 ^ e).
    { change 1 with (2 ^ 0). apply Z.pow_le_mono_r; lia. }
    nia.
  - rewrite Zceil_scaled_value by lia.
    apply ceil_scaled_above.
    assert (Hval2 : Zpos m * 2 ^ (e + 1074) = rounded_scaled M E).
    { unfold rounded_scaled. rewrite <- Hv'.
      rewrite <- Z.mul_assoc, <- pow2_split by lia. do 2 f_equal. lia. }
    rewrite Hval2.
    eapply Z.lt_le_trans; [apply (rounded_scaled_above mn en n); lia|].
    assert (Hd1 : 52 < Zpos (digits2_pos (mn * 4503599627370497))).
    { apply digits_gt_of_le; [lia|]. rewrite Pos2Z.inj_mul. lia. }
    apply (rounded_scaled_mono _ _ _ _ 104).
    + unfold round_exponent. lia.
    + exact Hk.
    + lia.
    + unfold E. lia.
    + rewrite HM, Pos2Z.inj_mul.
      change (Zpos 4503599627370497) with (2 ^ 52 + 1).
      replace (E + 104) with ((en + 52) + (eq + 52)) by (unfold E; lia).
      replace (en - 52 + 104) with (en + 52) by lia.
      rewrite (pow2_split (en + 52) (eq + 52)) by lia.
      assert (Hp : 0 <= 2 ^ (en + 52)) by (apply Z.pow_nonneg; lia).
      set (P := 2 ^ (en + 52)) in *. set (B := 2 ^ (eq + 52)) in *.
      set (T := 2 ^ 52) in *.
      assert (Hmp : 0 <= Zpos mn * P) by (apply Z.mul_nonneg_nonneg; lia).
      pose proof (Z.mul_le_mono_nonneg_l _ _ (Zpos mn * P) Hmp Hval) as Hmul.
      set (X := Zpos mn) in *. set (Y := Zpos mq) in *.
      clearbody X Y P B T.
      replace (X * (T + 1) * P) with (X * P * (T + 1)) by ring.
      replace (X * Y * (P * B)) with (X * P * (Y * B)) by ring.
      exact Hmul.
Qed.

Lemma int_of_ceil_range x c :
  int_of_ceil x = Some c -> INT_MIN <= c <= INT_MAX.
Proof.
  unfold int_of_ceil. destruct x as [s|s| |s m e]; try discriminate.
  - intros [= <-]. unfold INT_MIN, INT_MAX. lia.
  - destruct (Z.leb_spec INT_MIN (Zceil_scaled (cond_Zopp s (Zpos m)) e));
      destruct (Z.leb_spec (Zceil_scaled (cond_Zopp s (Zpos m)) e) INT_MAX);
      cbn [andb]; try discriminate.
    intros [= <-]. lia.
Qed.

Section Beyond.
Context (D : domain) (HD : sized D).
Implicit Types (m : gmap ptr (struct_T D)) (st : struct_T D) (vals : list (elt D)).

(** No cell at or after position [next] holds a value. *)
Lemma read_element_beyond m data st vals idx :
  m !! data = Some st -> holds st vals -> Z.of_nat (length vals) <= idx ->
  read_element D data idx m = (Undefined, m).
Proof.
  intros Hm [Hn Hc Hr Ha] Hidx. unfold read_element, index. mrun.
  rewrite (load_run _ _ _ Hm). mrun. rewrite Hc.
  destruct (Z.ltb_spec idx 0); [done|].
  destruct (buffer_of (nelements st) vals !! Z.to_nat idx) as [[v|]|] eqn:Hcell; try done.
  exfalso. by apply (buffer_of_lookup_unwritten (nelements st) vals (Z.to_nat idx) v); [lia|].
Qed.

Lemma quantile_T_beyond fname m data st vals qs q :
  m !! data = Some st -> holds st vals -> requests st qs -> vals <> [] ->
  qs !! 0%nat = Some q -> float8_lt float8_one q = true ->
  quantile_T D fname true (Some data) m
  = (Undefined, <[data := sorted_struct st vals]> m).
Proof.
  intros Hm Hh Hr Hne Hq Hlt.
  set (m1 := <[data := sorted_struct st vals]> m).
  assert (Hm1 : m1 !! data = Some (sorted_struct st vals)) by apply lookup_insert_eq.
  pose proof (sorted_struct_holds D st vals Hh) as Hh1.
  pose proof (sorted_struct_requests D st vals qs Hr) as Hr1.
  pose proof (holds_bounds D HD st vals Hh) as [Hb1 Hb2].
  pose proof (requests_valid_at D st qs 0 q Hr Hq) as Hv.
  assert (Hlen : 1 <= Z.of_nat (length vals) <= INT_MAX).
  { destruct Hh as [Hn _ _ _]. destruct vals; [done|].
    simpl length in *. unfold INT_MAX. lia. }
  assert (H0 : float8_lt float8_zero q = true).
  { destruct (float8_above_one q Hv Hlt) as [-> |(mq & eq & -> & _)]; reflexivity. }
  unfold quantile_T, CHECK_AGG_CONTEXT. mrun.
  rewrite (qsort_elements_run D HD m data st vals Hm Hh). fold m1.
  pose proof (read_quantile_run D m1 data _ qs 0 q Hm1 Hr1 Hq) as Hrq.
  change (Z.of_nat 0) with 0 in Hrq. rewrite Hrq. mrun.
  change (float8_gt q float8_zero) with (float8_lt float8_zero q). rewrite H0.
  unfold ceil_rank. mrun. rewrite (load_run _ _ _ Hm1). mrun.
  cbn [sorted_struct next]. destruct Hh as [Hn _ _ _]. rewrite Hn.
  destruct (int_of_ceil _) as [c|] eqn:Hc; [|done]. mrun.
  pose proof (int_of_ceil_beyond_one _ q Hlen Hv Hlt c Hc) as Hbig.
  pose proof (int_of_ceil_range _ c Hc) as Hrange.
  unfold int_sub. rewrite int_wrap_small by (unfold INT_MIN, INT_MAX in *; lia).
  rewrite (read_element_beyond m1 data _ _ (c - 1) Hm1 Hh1); [done|].
  rewrite pg_qsort_length. lia.
Qed.
End Beyond.

(** The scalar final functions of the integer and numeric domains have no
    upper clamp: for every probability above 1, infinity included, the index
    [ceil(n*q) - 1] falls at or after position [n] or leaves the range of
    [int], and the function reads a cell that holds no value. *)
Theorem scalar_final_beyond_one D fname m data (st : struct_T D) vals qs q :
  sized D -> m !! data = Some st -> holds st vals -> requests st qs -> vals <> [] ->
  qs !! 0%nat = Some q -> float8_lt float8_one q = true ->
  (quantile_T D fname true (Some data) m).1 = Undefined
  /\ forall c,
       int_of_ceil (float8_mul (float8_of_int (Z.of_nat (length vals))) q) = Some c ->
       Z.of_nat (length vals) < c.
Proof.
  intros HD Hm Hh Hr Hne Hq Hlt. split.
  - by rewrite (quantile_T_beyond D HD fname m data st vals qs q Hm Hh Hr Hne Hq Hlt).
  - pose proof (holds_bounds D HD st vals Hh) as [Hb1 Hb2].
    assert (Hlen : 1 <= Z.of_nat (length vals) <= INT_MAX).
    { destruct Hh as [Hn _ _ _]. destruct vals; [done|].
      simpl length in *. unfold INT_MAX. lia. }
    apply int_of_ceil_beyond_one; [done| |done].
    by apply (requests_valid_at D st qs 0 q Hr Hq).
Qed.

Lemma scalar_final_beyond_one_witness :
  (quantile_int64 true (Some 1%positive)
     {[1%positive := struct_after (D := int64_domain) 1
                       (Some [S754_finite false 4503599627370497 (-52)]) sample_ints]}).1
    = Undefined
  /\ forall c,
       int_of_ceil (float8_mul (float8_of_int (Z.of_nat (length sample_ints)))
                      (S754_finite false 4503599627370497 (-52))) = Some c ->
       Z.of_nat (length sample_ints) < c.
Proof.
  apply (scalar_final_beyond_one int64_domain "quantile_int64"
           {[1%positive := struct_after (D := int64_domain) 1
                             (Some [S754_finite false 4503599627370497 (-52)])
                             sample_ints]}
           1%positive
           (struct_after (D := int64_domain) 1
              (Some [S754_finite false 4503599627370497 (-52)]) sample_ints)
           sample_ints [S754_finite false 4503599627370497 (-52)]
           (S754_finite false 4503599627370497 (-52))).
  - unfold sized. simpl. lia.
  - apply lookup_singleton_eq.
  - apply struct_after_holds. vm_compute. discriminate.
  - split; [reflexivity|reflexivity|vm_compute; discriminate|reflexivity].
  - discriminate.
  - reflexivity.
  - reflexivity.
Defined.

(** * The array builders and whole groups *)

Section BuilderFacts.
Context {D : domain} {ArrayBuildState Datum : Type}.
Context (accumArrayResult : option ArrayBuildState -> elt D -> bool -> Z -> ArrayBuildState).
Context (makeArrayResult : option ArrayBuildState -> Datum).

Lemma accum_loop_run oid (d : list (elt D)) (m : gmap ptr (struct_T D)) :
  forall (count i : nat) astate,
    (i + count <= length d)%nat ->
    accum_loop accumArrayResult oid d count (Z.of_nat i) astate m
    = (Done (foldl (fun a v => Some (accumArrayResult a v false oid)) astate
               (take count (drop i d))), m).
Proof.
  induction count as [|count IH]; intros i astate Hlen; [done|].
  cbn [accum_loop]. unfold index.
  assert (Hneg : (Z.of_nat i <? 0) = false) by (apply Z.ltb_ge; lia).
  rewrite Hneg, Nat2Z.id.
  destruct (lookup_lt_is_Some_2 d i) as [v Hv]; [lia|].
  rewrite Hv. replace (Z.of_nat i + 1) with (Z.of_nat (S i)) by lia.
  rewrite IH by lia.
  rewrite (drop_S d v i Hv). done.
Qed.

Lemma accum_loop_short oid (d : list (elt D)) (m : gmap ptr (struct_T D)) :
  forall (count i : nat) astate,
    (i <= length d < i + count)%nat ->
    accum_loop accumArrayResult oid d count (Z.of_nat i) astate m = (Undefined, m).
Proof.
  induction count as [|count IH]; intros i astate Hlen; [lia|].
  cbn [accum_loop]. unfold index.
  assert (Hneg : (Z.of_nat i <? 0) = false) by (apply Z.ltb_ge; lia).
  rewrite Hneg, Nat2Z.id.
  destruct (d !! i) as [v|] eqn:Hv; [|done].
  apply lookup_lt_Some in Hv.
  replace (Z.of_nat i + 1) with (Z.of_nat (S i)) by lia.
  apply IH. lia.
Qed.
End BuilderFacts.

(** The array builders hand the host the first [len] entries of [d], in
    this order, none flagged NULL and all typed by the OID of the domain.
    With [len <= 0] the host's [accumArrayResult] is never called, and
    [makeArrayResult] receives the NULL build state it started from.  A
    [len] beyond the entries of [d] reads outside the array. *)
Theorem T_to_array_hands_over {D : domain} {ArrayBuildState Datum : Type}
    (accumArrayResult : option ArrayBuildState -> elt D -> bool -> Z -> ArrayBuildState)
    (makeArrayResult : option ArrayBuildState -> Datum)
    oid (d : list (elt D)) len (m : gmap ptr (struct_T D)) :
  (len <= Z.of_nat (length d) ->
   T_to_array accumArrayResult makeArrayResult oid d len m
   = (Done (makeArrayResult
              (foldl (fun a v => Some (accumArrayResult a v false oid)) None
                 (take (Z.to_nat len) d))), m))
  /\ (len <= 0 ->
      T_to_array accumArrayResult makeArrayResult oid d len m
      = (Done (makeArrayResult None), m))
  /\ (Z.of_nat (length d) < len ->
      T_to_array accumArrayResult makeArrayResult oid d len m = (Undefined, m)).
Proof.
  split; [|split].
  - intros Hlen. unfold T_to_array. rewrite bind_run.
    change 0 with (Z.of_nat 0).
    rewrite accum_loop_run by lia. by rewrite drop_0.
  - intros Hlen. unfold T_to_array. rewrite bind_run.
    replace (Z.to_nat len) with 0%nat by lia. done.
  - intros Hlen. unfold T_to_array. rewrite bind_run.
    change 0 with (Z.of_nat 0).
    rewrite accum_loop_short by lia. done.
Qed.

Lemma T_to_array_hands_over_witness :
  (2 <= Z.of_nat (length [float8_half; float8_one; float8_two]) ->
   double_to_array (fun a v _ _ => default [] a ++ [v]) id
     [float8_half; float8_one; float8_two] 2 ∅
   = (Done (Some [float8_half; float8_one]), ∅))
  /\ (2 <= 0 ->
      double_to_array (fun a v _ _ => default [] a ++ [v]) id
        [float8_half; float8_one; float8_two] 2 ∅
      = (Done None, ∅))
  /\ (Z.of_nat (length [float8_half; float8_one; float8_two]) < 2 ->
      double_to_array (fun a v _ _ => default [] a ++ [v]) id
        [float8_half; float8_one; float8_two] 2 ∅
      = (Undefined, ∅)).
Proof.
  apply (T_to_array_hands_over (D := double_domain)
           (fun a v _ _ => default [] a ++ [v]) id FLOAT8OID
           [float8_half; float8_one; float8_two] 2 ∅).
Defined.

(** The whole aggregate [quantile(double, p)]: for the rows of a group that
    carry at least one observation (and no more than a group can hold) the
    transition calls followed by the final call succeed for every
    probability and return one of the observations.  Where no observation
    is a NaN it is read from an arrangement of the observations in
    ascending numeric order: the entry at index [ceil(n*q) - 1] for a
    probability strictly inside (0,1), and the first entry, the minimum,
    for any other probability. *)
Theorem aggregate_double_scalar rows q (m : gmap ptr (struct_T double_domain)) :
  omap id rows <> [] -> Z.of_nat (length (omap id rows)) <= group_limit double_domain ->
  valid_binary prec emax q = true ->
  exists v,
    (aggregate (fun state element => quantile_append_double true state element q)
               (quantile_double true) rows m).1 = Done (Some v)
    /\ v ∈ omap id rows
    /\ (forallb (fun x => negb (is_nan x)) (omap id rows) = true ->
        exists sorted,
          ascending float8_order (omap id rows) sorted
          /\ (float8_lt float8_zero q = true -> float8_lt q float8_one = true ->
              exists c,
                int_of_ceil
                  (float8_mul (float8_of_int (Z.of_nat (length (omap id rows)))) q)
                  = Some c
                /\ 1 <= c <= Z.of_nat (length (omap id rows))
                /\ sorted !! Z.to_nat (c - 1) = Some v)
          /\ (float8_lt float8_zero q && float8_lt q float8_one = false ->
              sorted !! 0%nat = Some v
              /\ forall x, x ∈ omap id rows -> float8_le v x = true)).
Proof.
  intros Hrows Hk Hvalid.
  assert (HD : sized double_domain) by (unfold sized; simpl; lia).
  apply (fits_limit double_domain _ HD) in Hk.
  assert (Hne : rows <> []) by (intros ->; done).
  set (st := struct_after (D := double_domain) 1 (Some [q]) (omap id rows)).
  assert (Hh : holds st (omap id rows)) by (by apply struct_after_holds).
  assert (Hr : requests st [q]).
  { split; [done|done|vm_compute; discriminate|]. simpl. by rewrite Hvalid. }
  set (m1 := <[fresh (dom m) := st]> m).
  assert (Hm1 : m1 !! fresh (dom m) = Some st) by apply lookup_insert_eq.
  assert (Hagg : (aggregate (fun state element =>
                               quantile_append_double true state element q)
                            (quantile_double true) rows m)
                 = quantile_double true (Some (fresh (dom m))) m1).
  { unfold aggregate. rewrite bind_run. unfold quantile_append_double.
    by rewrite (run_append_T_granted double_domain _ q rows m HD Hne Hk). }
  rewrite Hagg.
  destruct (float8_lt float8_zero q && float8_lt q float8_one) eqn:Hin.
  - apply andb_true_iff in Hin as [H0 H1].
    destruct (quantile_double_inside m1 _ st _ [q] q Hm1 Hh Hr Hrows eq_refl H0 H1)
      as (c & v & Hc & Hcb & Hv & Hrun).
    exists v. split; [by rewrite Hrun|].
    split; [by eapply pg_qsort_lookup_elem_of|].
    intros Hnan. exists (pg_qsort double_comparator (omap id rows)).
    split; [by apply pg_qsort_ascending_doubles|].
    split; [|done]. intros _ _. by exists c.
  - destruct (quantile_double_outside m1 _ st _ [q] q Hm1 Hh Hr Hrows eq_refl Hin)
      as (v & Hv & Hrun).
    exists v. split; [by rewrite Hrun|].
    split; [by eapply pg_qsort_lookup_elem_of|].
    intros Hnan. exists (pg_qsort double_comparator (omap id rows)).
    pose proof (pg_qsort_ascending_doubles _ Hnan) as Hasc.
    split; [done|].
    split; [intros H0 H1; rewrite H0, H1 in Hin; discriminate|].
    intros _. split; [done|]. intros x Hx.
    apply (ascending_least float8_order (omap id rows)
             (fun x y => float8_order_total _ x y Hnan)
             (pg_qsort double_comparator (omap id rows)) v x); auto.
Qed.

Lemma aggregate_double_scalar_witness :
  exists v,
    (aggregate (fun state element =>
                  quantile_append_double true state element float8_half)
               (quantile_double true)
               [Some (float8_of_int 30); None; Some (float8_of_int 10)] ∅).1
      = Done (Some v)
    /\ v ∈ omap id [Some (float8_of_int 30); None; Some (float8_of_int 10)]
    /\ (forallb (fun x => negb (is_nan x))
          (omap id [Some (float8_of_int 30); None; Some (float8_of_int 10)]) = true ->
        exists sorted,
          ascending float8_order
            (omap id [Some (float8_of_int 30); None; Some (float8_of_int 10)]) sorted
          /\ (float8_lt float8_zero float8_half = true ->
              float8_lt float8_half float8_one = true ->
              exists c,
                int_of_ceil
                  (float8_mul
                     (float8_of_int
                        (Z.of_nat
                           (length (omap id [Some (float8_of_int 30); None;
                                             Some (float8_of_int 10)]))))
                     float8_half) = Some c
                /\ 1 <= c <= Z.of_nat (length (omap id [Some (float8_of_int 30); None;
                                                         Some (float8_of_int 10)]))
                /\ sorted !! Z.to_nat (c - 1) = Some v)
          /\ (float8_lt float8_zero float8_half && float8_lt float8_half float8_one
              = false ->
              sorted !! 0%nat = Some v
              /\ forall x,
                   x ∈ omap id [Some (float8_of_int 30); None; Some (float8_of_int 10)] ->
                   float8_le v x = true)).
Proof.
  apply (aggregate_double_scalar
           [Some (float8_of_int 30); None; Some (float8_of_int 10)] float8_half ∅).
  - discriminate.
  - vm_compute. discriminate.
  - reflexivity.
Defined.

(** A group without observations.  Without any row the final functions get
    a NULL state and return NULL.  With rows that all carry a NULL
    observation the first transition call has created a state, and the
    final functions read a cell that was never written or lies before the
    buffer: the outcome is undefined, whatever the probabilities are. *)
Theorem null_only_group_undefined D fa ff fa' ff' q v rows (m : gmap ptr (struct_T D)) :
  sized D -> valid_binary prec emax q = true ->
  ARR_NDIM v = 1 -> ARR_DIMS v = [Z.of_nat (length (ARR_DATA v))] ->
  ARR_DATA v <> [] -> 8 * Z.of_nat (length (ARR_DATA v)) <= MaxAllocSize ->
  forallb (valid_binary prec emax) (ARR_DATA v) = true ->
  omap id rows = [] ->
  (rows = [] ->
   (aggregate (fun state element => quantile_append_T D fa true state element q)
              (quantile_T D ff true) rows m).1 = Done None
   /\ (aggregate (fun state element => quantile_append_T_array D fa' true state element v)
                 (quantile_T_array D ff' true) rows m).1 = Done None)
  /\ (rows <> [] ->
      (aggregate (fun state element => quantile_append_T D fa true state element q)
                 (quantile_T D ff true) rows m).1 = Undefined
      /\ (aggregate (fun state element =>
                       quantile_append_T_array D fa' true state element v)
                    (quantile_T_array D ff' true) rows m).1 = Undefined).
Proof.
  intros HD Hvalid Hdim Hdims Hne Hsize Hvalids Hrows. split.
  { intros ->. done. }
  intros Hnil. destruct rows as [|r rows]; [done|].
  assert (Hfit : fits D (length (@nil (elt D)))) by (by apply fits_first_slab).
  assert (Hleb : (elt_size D * capacity_after (length (omap id (r :: rows)))
                  <=? MaxAllocSize) = true).
  { rewrite Hrows. by apply Z.leb_le. }
  split.
  - set (st := struct_after (D := D) 1 (Some [q]) []).
    assert (Hh : holds st []) by (by apply struct_after_holds).
    assert (Hr : requests st [q]).
    { split; [done|done|vm_compute; discriminate|]. simpl. by rewrite Hvalid. }
    unfold aggregate. rewrite bind_run.
    rewrite (run_append_created D HD _ 1 (Some [q]) r rows m);
      [|intros; apply quantile_append_T_existing
       |intros; by apply quantile_append_T_creation].
    rewrite Hleb, Hrows. fold st.
    by rewrite (quantile_T_unwritten D HD ff _ _ st [q] q
                  (lookup_insert_eq _ _ _) Hh Hr eq_refl).
  - set (n := Z.of_nat (length (ARR_DATA v))).
    set (st := struct_after (D := D) n (Some (ARR_DATA v)) []).
    assert (Hh : holds st []) by (by apply struct_after_holds).
    assert (Hr : requests st (ARR_DATA v)) by (by split).
    unfold aggregate. rewrite bind_run.
    rewrite (run_append_created D HD _ n (Some (ARR_DATA v)) r rows m);
      [|intros; apply quantile_append_T_array_existing|].
    + rewrite Hleb, Hrows. fold st.
      by rewrite (quantile_T_array_unwritten D HD ff' _ _ st (ARR_DATA v)
                    (lookup_insert_eq _ _ _) Hh Hr Hne).
    + intros. rewrite (quantile_append_T_array_creation D HD).
      by rewrite (array_to_double_items D v m Hdim Hdims Hne Hsize).
Qed.

Lemma null_only_group_undefined_witness :
  (([None; None] : list (option Z)) = [] ->
   (aggregate (fun state element =>
                 quantile_append_int64 true state element float8_half)
              (quantile_int64 true) [None; None] ∅).1 = Done None
   /\ (aggregate (fun state element =>
                    quantile_append_int64_array true state element
                      (Array 1 [2] [float8_zero; float8_one]))
                 (quantile_int64_array true) [None; None] ∅).1 = Done None)
  /\ (([None; None] : list (option Z)) <> [] ->
      (aggregate (fun state element =>
                    quantile_append_int64 true state element float8_half)
                 (quantile_int64 true) [None; None] ∅).1 = Undefined
      /\ (aggregate (fun state element =>
                       quantile_append_int64_array true state element
                         (Array 1 [2] [float8_zero; float8_one]))
                    (quantile_int64_array true) [None; None] ∅).1 = Undefined).
Proof.
  apply (null_only_group_undefined int64_domain
           "quantile_append_int64" "quantile_int64"
           "quantile_append_int64_array" "quantile_int64_array"
           float8_half (Array 1 [2] [float8_zero; float8_one]) [None; None] ∅).
  - unfold sized. simpl. lia.
  - reflexivity.
  - reflexivity.
  - reflexivity.
  - discriminate.
  - vm_compute. discriminate.
  - reflexivity.
  - reflexivity.
Defined.

(** The scalar and the array final functions agree on a request of one
    probability that is not at or above 1: the scalar functions of every
    domain return the value the array functions return at position 0.  (At
    and above 1 they part: the array functions clamp, [quantile_double]
    returns the first entry and the other scalar functions use the rank.) *)
Theorem scalar_and_array_agree D fname fname' m data (st : struct_T D) vals q
    md (std : struct_T double_domain) valsd :
  sized D -> m !! data = Some st -> holds st vals -> requests st [q] -> vals <> [] ->
  md !! data = Some std -> holds std valsd -> requests std [q] -> valsd <> [] ->
  float8_le float8_one q = false ->
  (exists v,
     (quantile_T D fname true (Some data) m).1 = Done (Some v)
     /\ (quantile_T_array D fname' true (Some data) m).1 = Done (Some [v]))
  /\ (exists v,
        (quantile_double true (Some data) md).1 = Done (Some v)
        /\ (quantile_double_array true (Some data) md).1 = Done (Some [v])).
Proof.
  intros HD Hm Hh Hr Hne Hmd Hhd Hrd Hned Hhigh.
  assert (HDd : sized double_domain) by (unfold sized; simpl; lia).
  assert (Hone : forall D' (HD' : sized D') fn m' (st' : struct_T D') vals',
    m' !! data = Some st' -> holds st' vals' -> requests st' [q] -> vals' <> [] ->
    exists v,
      pg_qsort (comparator D') vals'
        !! Z.to_nat (default 0 (nearest_rank (Z.of_nat (length vals')) q)) = Some v
      /\ (quantile_T_array D' fn true (Some data) m').1 = Done (Some [v])).
  { intros D' HD' fn m' st' vals' Hm' Hh' Hr' Hne'.
    destruct (quantile_T_array_indices D' HD' fn m' data st' vals' [q] Hm' Hh' Hr' Hne')
      as (res & Hrun & Hres).
    cbn [kept_indices] in Hres.
    apply Forall2_cons_inv_r in Hres as (v & res' & [_ Hv] & Hnil & ->).
    apply Forall2_nil_inv_r in Hnil as ->.
    exists v. split; [done|]. by rewrite Hrun. }
  pose proof (requests_valid_at D st [q] 0 q Hr eq_refl) as Hvalid.
  assert (Hrank : forall n, 1 <= n <= INT_MAX ->
    (float8_lt float8_zero q = false /\ default 0 (nearest_rank n q) = 0)
    \/ (float8_lt float8_zero q = true /\ float8_lt q float8_one = true
        /\ exists c, int_of_ceil (float8_mul (float8_of_int n) q) = Some c
             /\ 1 <= c <= n /\ default 0 (nearest_rank n q) = c - 1)).
  { intros n Hn. unfold nearest_rank. rewrite Hhigh.
    destruct (float8_lt float8_zero q) eqn:H0; cbn [andb].
    - destruct (float8_lt q float8_one) eqn:H1.
      + right. do 2 (split; [done|]).
        destruct (int_of_ceil_rank_bounds n q Hn Hvalid H0 H1) as (c & Hc & Hcb).
        exists c. rewrite Hc. simpl. split; [done|]. split; [lia|done].
      + exfalso. destruct q as [s|s| |s mq eq]; try discriminate.
        * by destruct s.
        * destruct s; [discriminate|].
          assert (Hn' : is_nan (S754_finite false mq eq) = false) by done.
          destruct (float8_not_nan_cases _ Hn') as [_ [?|?]]; congruence.
    - left. split; [done|]. by destruct (float8_le q float8_zero). }
  assert (Hlen : forall D' (st' : struct_T D') vals', sized D' -> holds st' vals' ->
            vals' <> [] -> 1 <= Z.of_nat (length vals') <= INT_MAX).
  { intros D' st' vals' HD' Hh' Hne'.
    pose proof (holds_bounds D' HD' st' vals' Hh') as [Hb1 Hb2].
    destruct Hh' as [Hn _ _ _]. destruct vals'; [done|].
    simpl length in *. unfold INT_MAX. lia. }
  split.
  - destruct (Hone D HD fname' m st vals Hm Hh Hr Hne) as (v & Hv & Harr).
    exists v. split; [|done].
    destruct (Hrank _ (Hlen D st vals HD Hh Hne)) as [[H0 Hd]|(H0 & H1 & c & Hc & Hcb & Hd)];
      rewrite Hd in Hv.
    + destruct (quantile_T_first D HD fname m data st vals [q] q Hm Hh Hr Hne eq_refl H0)
        as (v' & Hv' & Hrun).
      rewrite Hrun. simpl. change (Z.to_nat 0) with 0%nat in Hv. congruence.
    + destruct (quantile_T_ceil D HD fname m data st vals [q] q c Hm Hh Hr eq_refl H0 Hc Hcb)
        as (v' & Hv' & Hrun).
      rewrite Hrun. simpl. congruence.
  - destruct (Hone double_domain HDd "quantile_double_array" md std valsd Hmd Hhd Hrd Hned)
      as (v & Hv & Harr).
    exists v. split; [|done].
    destruct (Hrank _ (Hlen double_domain std valsd HDd Hhd Hned))
      as [[H0 Hd]|(H0 & H1 & c & Hc & Hcb & Hd)]; rewrite Hd in Hv.
    + destruct (quantile_double_outside md data std valsd [q] q Hmd Hhd Hrd Hned eq_refl)
        as (v' & Hv' & Hrun); [by rewrite H0|].
      rewrite Hrun. simpl. change (Z.to_nat 0) with 0%nat in Hv.
      change (comparator double_domain) with double_comparator in Hv.
      change (elt double_domain) with float8 in *. congruence.
    + destruct (quantile_double_inside md data std valsd [q] q Hmd Hhd Hrd Hned eq_refl H0 H1)
        as (c' & v' & Hc' & _ & Hv' & Hrun).
      rewrite Hrun. simpl.
      change (comparator double_domain) with double_comparator in Hv.
      change (elt double_domain) with float8 in *.
      assert (c' = c) as -> by congruence. congruence.
Qed.

Lemma scalar_and_array_agree_witness :
  (exists v,
     (quantile_int32 true (Some 1%positive) (sample_memory_int32 [float8_half])).1
       = Done (Some v)
     /\ (quantile_int32_array true (Some 1%positive)
           (sample_memory_int32 [float8_half])).1 = Done (Some [v]))
  /\ (exists v,
        (quantile_double true (Some 1%positive) (sample_memory [float8_half])).1
          = Done (Some v)
        /\ (quantile_double_array true (Some 1%positive)
              (sample_memory [float8_half])).1 = Done (Some [v])).
Proof.
  apply (scalar_and_array_agree int32_domain "quantile_int32" "quantile_int32_array"
           (sample_memory_int32 [float8_half]) 1%positive
           (sample_struct_int32 [float8_half]) sample_ints float8_half
           (sample_memory [float8_half]) (sample_struct [float8_half]) sample_doubles).
  - unfold sized. simpl. lia.
  - apply lookup_singleton_eq.
  - apply struct_after_holds. vm_compute. discriminate.
  - split; [reflexivity|reflexivity|vm_compute; discriminate|reflexivity].
  - discriminate.
  - apply lookup_singleton_eq.
  - apply struct_after_holds. vm_compute. discriminate.
  - split; [reflexivity|reflexivity|vm_compute; discriminate|reflexivity].
  - discriminate.
  - reflexivity.
Defined.

(** NULL observations are ignored as long as one observation is not NULL:
    the outcome of a group is the outcome of the same rows without the
    NULL ones.  (Rows that are all NULL are not the same as no rows: the
    state exists then, without entries.) *)
Theorem null_observations_are_ignored D fa ff fa' ff' q v rows
    (m : gmap ptr (struct_T D)) :
  sized D -> omap id rows <> [] ->
  (aggregate (fun state element => quantile_append_T D fa true state element q)
             (quantile_T D ff true) rows m).1
  = (aggregate (fun state element => quantile_append_T D fa true state element q)
               (quantile_T D ff true) (Some <$> omap id rows) m).1
  /\ (aggregate (fun state element => quantile_append_T_array D fa' true state element v)
                (quantile_T_array D ff' true) rows m).1
     = (aggregate (fun state element => quantile_append_T_array D fa' true state element v)
                  (quantile_T_array D ff' true) (Some <$> omap id rows) m).1.
Proof.
  intros HD Hne.
  pose proof (omap_id_Some (omap id rows)) as Hid.
  assert (Hgen : forall {A} append (final : option ptr -> M D A) nq qs,
    (forall data element m', append (Some data) element m'
                             = append_tail D data element m') ->
    (forall element,
       append None element m
       = append_tail D (fresh (dom m)) element
           (<[fresh (dom m) := struct_after nq qs []]> m)) ->
    (aggregate append final rows m).1
    = (aggregate append final (Some <$> omap id rows) m).1).
  { intros A append final nq qs Hex Hnew.
    destruct rows as [|r rows]; [done|].
    destruct (Some <$> omap id (r :: rows)) as [|r' rows'] eqn:Hs.
    { by apply fmap_nil_inv in Hs. }
    unfold aggregate. rewrite !bind_run.
    rewrite (run_append_created D HD append nq qs r rows m Hex Hnew).
    rewrite (run_append_created D HD append nq qs r' rows' m Hex Hnew).
    rewrite Hid. by destruct (_ <=? _). }
  split.
  - apply (Hgen _ _ _ 1 (Some [q])).
    + intros. apply quantile_append_T_existing.
    + intros. by apply quantile_append_T_creation.
  - destruct (array_to_double D v m) as [[[qs len]| |] m'] eqn:Harr.
    + apply (Hgen _ _ _ len qs).
      * intros. apply quantile_append_T_array_existing.
      * intros. by rewrite (quantile_append_T_array_creation D HD), Harr.
    + destruct rows as [|r rows]; [done|].
      destruct (Some <$> omap id (r :: rows)) as [|r' rows'] eqn:Hs.
      { by apply fmap_nil_inv in Hs. }
      unfold aggregate. rewrite !bind_run. cbn [run_append]. rewrite !bind_run.
      by rewrite !(quantile_append_T_array_creation D HD), Harr.
    + destruct rows as [|r rows]; [done|].
      destruct (Some <$> omap id (r :: rows)) as [|r' rows'] eqn:Hs.
      { by apply fmap_nil_inv in Hs. }
      unfold aggregate. rewrite !bind_run. cbn [run_append]. rewrite !bind_run.
      by rewrite !(quantile_append_T_array_creation D HD), Harr.
Qed.

Lemma null_observations_are_ignored_witness :
  (aggregate (fun state element => quantile_append_int32 true state element float8_half)
             (quantile_int32 true) [None; Some 3; None; Some 1] ∅).1
  = (aggregate (fun state element => quantile_append_int32 true state element float8_half)
               (quantile_int32 true) (Some <$> omap id [None; Some 3; None; Some 1]) ∅).1
  /\ (aggregate (fun state element =>
                   quantile_append_int32_array true state element
                     (Array 1 [1] [float8_half]))
                (quantile_int32_array true) [None; Some 3; None; Some 1] ∅).1
     = (aggregate (fun state element =>
                     quantile_append_int32_array true state element
                       (Array 1 [1] [float8_half]))
                  (quantile_int32_array true)
                  (Some <$> omap id [None; Some 3; None; Some 1]) ∅).1.
Proof.
  apply (null_observations_are_ignored int32_domain
           "quantile_append_int32" "quantile_int32"
           "quantile_append_int32_array" "quantile_int32_array"
           float8_half (Array 1 [1] [float8_half]) [None; Some 3; None; Some 1] ∅).
  - unfold sized. simpl. lia.
  - discriminate.
Defined.

(** ** Maps that keep the comparisons *)

Section SortMap.
Context {A : Type} (cmp : A -> A -> Z) (f : A -> A).
Hypothesis Hf : forall x y, cmp (f x) (f y) = cmp x y.

Lemma sift_fmap x rpre : sift cmp (f x) (f <$> rpre) = f <$> sift cmp x rpre.
Proof.
  induction rpre as [|y r IH]; [done|].
  cbn [sift fmap list_fmap]. rewrite Hf.
  destruct (0 <? cmp y x); [|done]. cbn [fmap list_fmap]. by rewrite <- IH.
Qed.

Lemma foldl_sift_fmap l : forall rpre,
  foldl (fun r x => sift cmp x r) (f <$> rpre) (f <$> l)
  = f <$> foldl (fun r x => sift cmp x r) rpre l.
Proof.
  induction l as [|x l IH]; intros rpre; [done|].
  cbn [foldl fmap list_fmap]. by rewrite sift_fmap, IH.
Qed.

(** Sorting commutes with a map that keeps the comparisons. *)
Lemma pg_qsort_fmap l : pg_qsort cmp (f <$> l) = f <$> pg_qsort cmp l.
Proof.
  unfold pg_qsort. change (@nil A) with (f <$> @nil A) at 1.
  by rewrite foldl_sift_fmap, fmap_reverse.
Qed.
End SortMap.

(** The aggregate commutes with every map of the values that keeps their
    comparisons (a change of unit, a shift): the ranks depend on the number
    of values and on the probabilities only, so transforming the
    accumulated values transforms the values returned. *)
Theorem quantile_commutes_with_order_maps
    D fname m m' data (st st' : struct_T D) vals qs (f : elt D -> elt D) :
  sized D -> (forall x y, comparator D (f x) (f y) = comparator D x y) ->
  m !! data = Some st -> holds st vals -> requests st qs -> vals <> [] ->
  m' !! data = Some st' -> holds st' (f <$> vals) -> requests st' qs ->
  exists res,
    (quantile_T_array D fname true (Some data) m).1 = Done (Some res)
    /\ (quantile_T_array D fname true (Some data) m').1 = Done (Some (f <$> res)).
Proof.
  intros HD Hf Hm Hh Hr Hne Hm' Hh' Hr'.
  assert (Hne' : f <$> vals <> []).
  { intros H. by apply fmap_nil_inv in H. }
  destruct (quantile_T_array_indices D HD fname m data st vals qs Hm Hh Hr Hne)
    as (res & Hrun & Hres).
  destruct (quantile_T_array_indices D HD fname m' data st' (f <$> vals) qs Hm' Hh' Hr' Hne')
    as (res' & Hrun' & Hres').
  exists res. split; [by rewrite Hrun|]. rewrite Hrun'. simpl. do 2 f_equal.
  rewrite length_fmap, (pg_qsort_fmap (comparator D) f Hf) in Hres'.
  clear Hrun Hrun'. revert Hres Hres'.
  generalize (kept_indices (Z.of_nat (length vals)) 0 qs) as ixs. revert res'.
  induction res as [|v res IH]; intros res' ixs H1 H2.
  - apply Forall2_nil_inv_l in H1 as ->. by apply Forall2_nil_inv_r in H2 as ->.
  - apply Forall2_cons_inv_l in H1 as (ix & ixs' & [_ Hv] & Hrest & ->).
    apply Forall2_cons_inv_r in H2 as (v' & res'' & [_ Hv'] & Hrest' & ->).
    rewrite list_lookup_fmap, Hv in Hv'. simpl in Hv'. injection Hv' as <-.
    cbn [fmap list_fmap]. f_equal. by apply (IH _ ixs').
Qed.

Lemma quantile_commutes_with_order_maps_witness :
  exists res,
    (quantile_int64_array true (Some 1%positive)
       {[1%positive := struct_after (D := int64_domain) 2
                         (Some [float8_half; float8_one]) sample_ints]}).1
      = Done (Some res)
    /\ (quantile_int64_array true (Some 1%positive)
          {[1%positive := struct_after (D := int64_domain) 2
                            (Some [float8_half; float8_one])
                            ((fun x => x + 1000) <$> sample_ints)]}).1
       = Done (Some ((fun x => x + 1000) <$> res)).
Proof.
  apply (quantile_commutes_with_order_maps int64_domain "quantile_int64_array"
           {[1%positive := struct_after (D := int64_domain) 2
                             (Some [float8_half; float8_one]) sample_ints]}
           {[1%positive := struct_after (D := int64_domain) 2
                             (Some [float8_half; float8_one])
                             ((fun x => x + 1000) <$> sample_ints)]}
           1%positive
           (struct_after (D := int64_domain) 2 (Some [float8_half; float8_one]) sample_ints)
           (struct_after (D := int64_domain) 2 (Some [float8_half; float8_one])
              ((fun x => x + 1000) <$> sample_ints))
           sample_ints [float8_half; float8_one] (fun x => x + 1000)).
  - unfold sized. simpl. lia.
  - intros x y. simpl. unfold int64_comparator.
    destruct (Z.ltb_spec (y + 1000) (x + 1000)); destruct (Z.ltb_spec y x);
      destruct (Z.ltb_spec (x + 1000) (y + 1000)); destruct (Z.ltb_spec x y);
      simpl; lia.
  - apply lookup_singleton_eq.
  - apply struct_after_holds. vm_compute. discriminate.
  - split; [reflexivity|reflexivity|vm_compute; discriminate|reflexivity].
  - discriminate.
  - apply lookup_singleton_eq.
  - apply (struct_after_holds int64_domain). vm_compute. discriminate.
  - split; [reflexivity|reflexivity|vm_compute; discriminate|reflexivity].
Defined.
